(** * Evolving-art: evaluation of genomes into coloured partitions

    A shallow embedding of [src/rendering/geometry_utils.py] (geometry repair,
    the fail-soft boolean operations, primitive conversion and the recursive
    evaluation of a genome tree), of [BackendAdapter.evolve] and
    [BackendAdapter.render_all_previews_parallel] from
    [src/population_manager/backend_adapter.py], of the selection and
    evolution logic of [src/app/screens/evolve_screen.py], of the layout of
    the population grid image of [src/rendering/vectorizer/drawing.py] and of
    the paths and the tree layout of [src/rendering/tree_renderer.py].

    The planar-geometry library (shapely) is an external collaborator of the
    program; it is taken as an interface, [Shapely], whose calls may raise.
    A small pixel-grid implementation of that interface, [Grid], is used to
    run the definitions on concrete inputs. *)

From stdpp Require Import gmap strings list sorting.

Local Open Scope string_scope.
Local Open Scope list_scope.

(** ** Python exceptions as an error monad *)

Inductive exn : Type :=
  | GEOSException
  | ValueError (msg : string)
  | AttributeError
  | InvalidSelection.

Inductive Exc (A : Type) : Type :=
  | Ret (a : A)
  | Raise (e : exn).
Arguments Ret {A} a.
Arguments Raise {A} e.

Global Instance Exc_ret : MRet Exc := fun A a => Ret a.
Global Instance Exc_bind : MBind Exc := fun A B k m =>
  match m with
  | Ret a => k a
  | Raise e => Raise e
  end.
Global Instance Exc_fmap : FMap Exc := fun A B f m =>
  match m with
  | Ret a => Ret (f a)
  | Raise e => Raise e
  end.

(** [try: body except Exception: handler] *)
Definition try_except {A} (body : Exc A) (handler : Exc A) : Exc A :=
  match body with
  | Ret a => Ret a
  | Raise _ => handler
  end.

(** A block of a function either returns from the function or falls through
    to the next statement with a value. *)
Inductive flow (R B : Type) : Type :=
  | Return (r : R)
  | Next (b : B).
Arguments Return {R B} r.
Arguments Next {R B} b.

(** [for x in xs: acc = body(acc, x)] *)
Fixpoint for_each {A S} (xs : list A) (body : S → A → Exc S) (acc : S) : Exc S :=
  match xs with
  | [] => Ret acc
  | x :: xs' => acc' ← body acc x; for_each xs' body acc'
  end.

(** [returns e P]: the computation returns normally with a value satisfying [P]. *)
Definition returns {A} (e : Exc A) (P : A → Prop) : Prop :=
  match e with
  | Ret a => P a
  | Raise _ => False
  end.

(** ** The geometry substrate, as the code uses it *)

Class Shapely : Type := {
  Geom : Type;
  Num : Type;
  Coords : Type;
  (** [Polygon()] *)
  Polygon_empty : Geom;
  (** attributes *)
  is_empty : Geom → bool;
  is_valid : Geom → Exc bool;
  geom_type : Geom → string;
  geoms : Geom → list Geom;
  (** [g.buffer(0)]; [None] is Python's [None] *)
  buffer0 : Geom → Exc (option Geom);
  intersection : Geom → Geom → Exc Geom;
  difference : Geom → Geom → Exc Geom;
  (** [shapely.ops.unary_union] *)
  unary_union : list Geom → Exc Geom;
  (** [Point(0, 0).buffer(1.0, resolution=32)] *)
  unit_disk : Geom;
  (** [box(-0.5, -0.5, 0.5, 0.5)] *)
  unit_box : Geom;
  (** [Polygon(vertices)] *)
  Polygon_of : Coords → Exc Geom;
  (** [affinity.scale(g, xfact, yfact, origin=(0, 0))] *)
  scale : Geom → Num → Num → Exc Geom;
  (** [affinity.rotate(g, theta, origin=(0, 0), use_radians=True)] *)
  rotate : Geom → Num → Exc Geom;
  (** [affinity.translate(g, xoff, yoff)] *)
  translate : Geom → Num → Num → Exc Geom;
}.

(** [ColorAlgebra] of [src.core.shapes.geometry]: two pure binary laws. *)
Class ColorAlgebra : Type := {
  Color : Type;
  or_color : Color → Color → Color;
  and_color : Color → Color → Color;
}.

Section Geometry.
Context `{Shapely}.

(** [g.geom_type in ['Polygon', 'MultiPolygon']] *)
Definition polygonal (g : Geom) : bool :=
  String.eqb (geom_type g) "Polygon" || String.eqb (geom_type g) "MultiPolygon".

(** The last block of [fix_geom], on the buffered geometry. *)
Definition collapse (geom : Geom) : Exc (flow Geom unit) :=
  if polygonal geom then
    Ret (Return (if negb (is_empty geom) then geom else Polygon_empty))
  else if String.eqb (geom_type geom) "GeometryCollection" then
    let polys := List.filter polygonal (geoms geom) in
    match polys with
    | [] => Ret (Return Polygon_empty)
    | _ => u ← unary_union polys; Ret (Return u)
    end
  else Ret (Next ()).

Definition fix_geom (geom : option Geom) : Exc Geom :=
  match geom with
  | None => Ret Polygon_empty
  | Some geom =>
    if is_empty geom then Ret Polygon_empty else
    b1 ← try_except
           (v ← is_valid geom;
            if v && polygonal geom && negb (is_empty geom)
            then Ret (Return geom) else Ret (Next ()))
           (Ret (Return Polygon_empty));
    match b1 with
    | Return r => Ret r
    | Next _ =>
      b2 ← try_except
             (repaired ← buffer0 geom;
              match repaired with
              | None => Ret (Return Polygon_empty)
              | Some repaired =>
                if is_empty repaired then Ret (Return Polygon_empty)
                else Ret (Next repaired)
              end)
             (Ret (Return Polygon_empty));
      match b2 with
      | Return r => Ret r
      | Next geom =>
        b3 ← try_except (collapse geom) (Ret (Return Polygon_empty));
        match b3 with
        | Return r => Ret r
        | Next _ => Ret Polygon_empty
        end
      end
    end
  end.

Definition safe_intersection (a b : Geom) : Exc Geom :=
  if is_empty a || is_empty b then Ret Polygon_empty else
  r ← try_except
        (Next <$> intersection a b)
        (try_except
           (fa ← fix_geom (Some a); fb ← fix_geom (Some b);
            Next <$> intersection fa fb)
           (Ret (Return Polygon_empty)));
  match r with
  | Return v => Ret v
  | Next res => fix_geom (Some res)
  end.

Definition safe_difference (a b : Geom) : Exc Geom :=
  if is_empty a then Ret Polygon_empty else
  if is_empty b then Ret a else
  r ← try_except
        (Next <$> difference a b)
        (try_except
           (fa ← fix_geom (Some a); fb ← fix_geom (Some b);
            Next <$> difference fa fb)
           (Ret (Return a)));
  match r with
  | Return v => Ret v
  | Next res => fix_geom (Some res)
  end.

(** ** Genomes *)

Context `{ColorAlgebra}.

Record Transform : Type := {
  sx : Num; sy : Num; theta : Num; dx : Num; dy : Num;
}.

Record PrimitiveGene : Type := {
  kind : string;
  transform : Transform;
  color_rgb : Color;
  polygon_vertices : Coords;
}.

Local Unset Elimination Schemes.
Inductive node : Type :=
  | PrimitiveNode (gene : PrimitiveGene)
  | OpNode (op : string) (children : list node).
Local Set Elimination Schemes.

(** A piece of an evaluated genome: [(geometry, color)]. *)
Definition patch : Type := Geom * Color.

Definition gene_to_shapely (gene : PrimitiveGene) : Exc Geom :=
  b ← (if String.eqb (kind gene) "disk" then Ret (Next unit_disk)
       else if String.eqb (kind gene) "square" then Ret (Next unit_box)
       else if String.eqb (kind gene) "polygon" then
         try_except (Next <$> Polygon_of (polygon_vertices gene))
                    (Ret (Return Polygon_empty))
       else Raise (ValueError ("Unknown kind " +:+ kind gene)));
  match b with
  | Return r => Ret r
  | Next base =>
    base ← fix_geom (Some base);
    let t := transform gene in
    r ← try_except
          (geom ← scale base (sx t) (sy t);
           geom ← rotate geom (theta t);
           geom ← translate geom (dx t) (dy t);
           Ret (Next geom))
          (Ret (Return Polygon_empty));
    match r with
    | Return v => Ret v
    | Next geom => fix_geom (Some geom)
    end
  end.

(** One iteration of the loop of [_shatter_and_blend_with_color_alg]; the loop
    state is [(next_gen_patches, shape_to_add)]. *)
Definition shatter_step (new_color : Color) (blend_mode : string)
    (st : list patch * Geom) (p : patch) : Exc (list patch * Geom) :=
  let '(next_gen_patches, shape_to_add) := st in
  let '(exist_geom, exist_color) := p in
  if is_empty shape_to_add then
    Ret (next_gen_patches ++ [(exist_geom, exist_color)], shape_to_add)
  else
    intersection ← safe_intersection exist_geom shape_to_add;
    if is_empty intersection then
      Ret (next_gen_patches ++ [(exist_geom, exist_color)], shape_to_add)
    else
      exist_non_overlap ← safe_difference exist_geom shape_to_add;
      let next_gen_patches :=
        if negb (is_empty exist_non_overlap)
        then next_gen_patches ++ [(exist_non_overlap, exist_color)]
        else next_gen_patches in
      let blended_color :=
        if String.eqb blend_mode "or" then or_color exist_color new_color
        else if String.eqb blend_mode "and" then and_color exist_color new_color
        else new_color in
      let next_gen_patches :=
        if negb (is_empty intersection)
        then next_gen_patches ++ [(intersection, blended_color)]
        else next_gen_patches in
      shape_to_add ← safe_difference shape_to_add exist_geom;
      Ret (next_gen_patches, shape_to_add).

Definition _shatter_and_blend_with_color_alg (existing_patches : list patch)
    (new_geom : Geom) (new_color : Color) (blend_mode : string)
    : Exc (list patch) :=
  shape_to_add ← fix_geom (Some new_geom);
  if is_empty shape_to_add then Ret existing_patches else
  st ← for_each existing_patches (shatter_step new_color blend_mode)
                ([], shape_to_add);
  let '(next_gen_patches, shape_to_add) := st in
  Ret (if negb (is_empty shape_to_add)
       then next_gen_patches ++ [(shape_to_add, new_color)]
       else next_gen_patches).

(** The [union] branch of [process_node]. *)
Definition process_union (children_results : list (list patch)) : Exc (list patch) :=
  match children_results with
  | [] => Ret []
  | first :: rest =>
    for_each rest
      (fun current_patches next_child_list =>
         for_each next_child_list
           (fun current_patches '(new_geom, new_col) =>
              _shatter_and_blend_with_color_alg current_patches new_geom new_col "or")
           current_patches)
      first
  end.

(** The [intersection] branch of [process_node]. *)
Definition process_intersection (children_results : list (list patch))
    : Exc (list patch) :=
  match children_results with
  | [] => Ret []
  | first :: rest =>
    for_each rest
      (fun current_shapes next_child_list =>
         for_each current_shapes
           (fun new_shapes '(geom_a, col_a) =>
              for_each next_child_list
                (fun new_shapes '(geom_b, col_b) =>
                   inter ← safe_intersection geom_a geom_b;
                   Ret (if negb (is_empty inter)
                        then new_shapes ++ [(inter, and_color col_a col_b)]
                        else new_shapes))
                new_shapes)
           [])
      first
  end.

(** The [difference] branch of [process_node]. *)
Definition process_difference (children_results : list (list patch))
    : Exc (list patch) :=
  match children_results with
  | [] => Ret []
  | current_shapes :: rest =>
    let subtractors :=
      List.filter (fun geom => negb (is_empty geom))
                  (List.map fst (List.concat rest)) in
    match subtractors with
    | [] => Ret current_shapes
    | _ =>
      r ← try_except
            (total_subtractor ← unary_union subtractors;
             total_subtractor ← fix_geom (Some total_subtractor);
             Ret (Next total_subtractor))
            (Ret (Return current_shapes));
      match r with
      | Return v => Ret v
      | Next total_subtractor =>
        if is_empty total_subtractor then Ret current_shapes else
        for_each current_shapes
          (fun final_shapes '(geom_a, col_a) =>
             diff ← safe_difference geom_a total_subtractor;
             Ret (if negb (is_empty diff)
                  then final_shapes ++ [(diff, col_a)]
                  else final_shapes))
          []
      end
    end
  end.

(** The body of the [OpNode] case once the children are evaluated. *)
Definition process_op (op : string) (children_results : list (list patch))
    : Exc (list patch) :=
  match children_results with
  | [] => Ret []
  | _ =>
    if String.eqb op "union" then process_union children_results
    else if String.eqb op "intersection" then process_intersection children_results
    else if String.eqb op "difference" then process_difference children_results
    else Ret []
  end.

(** [children_results.append(res)] only [if res]. *)
Definition append_if_nonempty (res : list patch) (children_results : list (list patch))
    : list (list patch) :=
  match res with
  | [] => children_results
  | _ => res :: children_results
  end.

Fixpoint process_node (n : node) : Exc (list patch) :=
  match n with
  | PrimitiveNode gene =>
    geom ← gene_to_shapely gene;
    if is_empty geom then Ret [] else Ret [(geom, color_rgb gene)]
  | OpNode op children =>
    children_results ←
      (fix eval_children (cs : list node) : Exc (list (list patch)) :=
         match cs with
         | [] => Ret []
         | child :: cs' =>
           res ← process_node child;
           later ← eval_children cs';
           Ret (append_if_nonempty res later)
         end) children;
    process_op op children_results
  end.

(** The loop of [process_node] over the children of an [OpNode]. *)
Fixpoint eval_children (cs : list node) : Exc (list (list patch)) :=
  match cs with
  | [] => Ret []
  | child :: cs' =>
    res ← process_node child;
    later ← eval_children cs';
    Ret (append_if_nonempty res later)
  end.

End Geometry.

Global Arguments fix_geom : simpl never.
Global Arguments safe_intersection : simpl never.
Global Arguments safe_difference : simpl never.
Global Arguments gene_to_shapely : simpl never.
Global Arguments _shatter_and_blend_with_color_alg : simpl never.

(** ** A pixel-grid substrate

    Regions are finite sets of unit cells of the integer grid.  A polygon may
    be invalid in two ways: its ring crosses itself, and it still has an area,
    which the zero-width buffer rebuilds as a valid polygon; or it has been
    flattened by a scaling with a zero factor, and it has no area, so that
    the zero-width buffer of it is empty.  The affine transforms return on
    every geometry, invalid ones included.  The overlay operations refuse
    invalid operands, and they also fail where two operands meet on a cell
    marked by [glitch], the way a robustness failure of the real library is
    tied to a location.  Coordinates are integers: there is no rounding, and
    nothing is shown here about coordinates that collapse in floating
    point. *)

Module Grid.

Definition cell : Type := Z * Z.

Inductive shape : Type :=
  | Poly (valid : bool) (cells : gset cell)
  | Flat (cells : gset cell)
  | Line (cells : gset cell)
  | Coll (members : list (bool * gset cell)).

(** A member of a collection: [(true, c)] is a polygon, [(false, c)] a line. *)
Definition member (m : bool * gset cell) : shape :=
  if m.1 then Poly true m.2 else Line m.2.

(** The cells a shape covers with positive area.  [Poly false c] is an
    invalid polygon that has an area, as a ring that crosses itself has;
    [Flat c] is a polygon flattened onto the cells [c], which has none. *)
Definition area (g : shape) : gset cell :=
  match g with
  | Poly _ c => c
  | Flat _ => ∅
  | Line _ => ∅
  | Coll ms => ⋃ (List.map (fun m : bool * gset cell => if m.1 then m.2 else ∅) ms)
  end.

Definition shape_is_empty (g : shape) : bool :=
  match g with
  | Poly _ c => bool_decide (c = ∅)
  | Flat c => bool_decide (c = ∅)
  | Line c => bool_decide (c = ∅)
  | Coll ms => forallb (fun m : bool * gset cell => bool_decide (m.2 = ∅)) ms
  end.

Definition shape_is_valid (g : shape) : bool :=
  match g with
  | Poly v _ => v
  | Flat _ => false
  | _ => true
  end.

Definition shape_type (g : shape) : string :=
  match g with
  | Poly _ _ => "Polygon"
  | Flat _ => "Polygon"
  | Line _ => "LineString"
  | Coll _ => "GeometryCollection"
  end.

Definition shape_geoms (g : shape) : list shape :=
  match g with
  | Coll ms => List.map member ms
  | _ => []
  end.

Definition meets_glitch (glitch : cell → bool) (a b : shape) : bool :=
  bool_decide (set_Exists (fun c => glitch c = true) (area a ∩ area b)).

Definition overlay (glitch : cell → bool) (op : gset cell → gset cell → gset cell)
    (a b : shape) : Exc shape :=
  if negb (shape_is_valid a && shape_is_valid b) || meets_glitch glitch a b
  then Raise GEOSException
  else Ret (Poly true (op (area a) (area b))).

Definition shape_union (gs : list shape) : Exc shape :=
  if forallb shape_is_valid gs
  then Ret (Poly true (⋃ (List.map area gs)))
  else Raise GEOSException.

(** Apply a map of the plane to every cell; a map that is not injective
    flattens a polygon, which leaves it invalid and without area. *)
Definition map_cells (injective : bool) (f : cell → cell) (g : shape) : shape :=
  match g with
  | Poly v c => if injective then Poly v (set_map f c) else Flat (set_map f c)
  | Flat c => Flat (set_map f c)
  | Line c => Line (set_map f c)
  | Coll ms => Coll (List.map (fun m : bool * gset cell => (m.1, set_map f m.2)) ms)
  end.

Definition shape_scale (g : shape) (xfact yfact : Z) : Exc shape :=
  Ret (map_cells (negb (xfact =? 0)%Z && negb (yfact =? 0)%Z)
                 (fun c : cell => (c.1 * xfact, c.2 * yfact)%Z) g).

(** Rotation by [theta] quarter turns. *)
Definition quarter_turns (theta : Z) (c : cell) : cell :=
  match (theta mod 4)%Z with
  | 0%Z => c
  | 1%Z => (- c.2, c.1)%Z
  | 2%Z => (- c.1, - c.2)%Z
  | _ => (c.2, - c.1)%Z
  end.

Definition shape_rotate (g : shape) (theta : Z) : Exc shape :=
  Ret (map_cells true (quarter_turns theta) g).

Definition shape_translate (g : shape) (xoff yoff : Z) : Exc shape :=
  Ret (map_cells true (fun c : cell => (c.1 + xoff, c.2 + yoff)%Z) g).

(** A ring needs three vertices; a ring that repeats a vertex is invalid. *)
Definition shape_of_vertices (vs : option (list cell)) : Exc shape :=
  match vs with
  | None => Ret (Poly true ∅)
  | Some vs =>
    if bool_decide (length vs < 3)%nat
    then Raise (ValueError "A LinearRing requires at least 4 coordinates")
    else Ret (Poly (bool_decide (NoDup vs)) (list_to_set vs))
  end.

Definition substrate (glitch : cell → bool) : Shapely := {|
  Geom := shape;
  Num := Z;
  Coords := option (list cell);
  Polygon_empty := Poly true ∅;
  is_empty := shape_is_empty;
  is_valid := fun g => Ret (shape_is_valid g);
  geom_type := shape_type;
  geoms := shape_geoms;
  buffer0 := fun g => Ret (Some (Poly true (area g)));
  intersection := overlay glitch (∩);
  difference := overlay glitch (fun a b => a ∖ b);
  unary_union := shape_union;
  unit_disk := Poly true {[ (0, 0); (1, 0); (-1, 0); (0, 1); (0, -1) ]}%Z;
  unit_box := Poly true {[ (0, 0)%Z ]};
  Polygon_of := shape_of_vertices;
  scale := shape_scale;
  rotate := shape_rotate;
  translate := shape_translate;
|}.

(** The substrate without robustness failures. *)
Definition exact : Shapely := substrate (fun _ => false).

(** A substrate whose overlays fail where the operands meet at the origin. *)
Definition glitchy : Shapely := substrate (fun c => bool_decide (c = (0, 0)%Z)).

(** Colours as three integer channels; [or] averages, [and] takes the
    channel-wise minimum. *)
Definition rgb : Type := Z * Z * Z.

Definition colors : ColorAlgebra := {|
  Color := rgb;
  or_color := fun a b =>
    ((a.1.1 + b.1.1) `div` 2, (a.1.2 + b.1.2) `div` 2, (a.2 + b.2) `div` 2)%Z;
  and_color := fun a b =>
    (a.1.1 `min` b.1.1, a.1.2 `min` b.1.2, a.2 `min` b.2)%Z;
|}.

(** Genomes over the exact grid. *)
Definition tf (sx sy theta dx dy : Z) : @Transform exact :=
  @Build_Transform exact sx sy theta dx dy.

Definition gene (kind : string) (t : @Transform exact) (color : rgb)
    (vertices : option (list cell)) : @PrimitiveGene exact colors :=
  @Build_PrimitiveGene exact colors kind t color vertices.

Definition leaf (kind : string) (t : @Transform exact) (color : rgb)
    (vertices : option (list cell)) : @node exact colors :=
  PrimitiveNode (gene kind t color vertices).

Definition op_node (op : string) (children : list (@node exact colors))
    : @node exact colors :=
  OpNode op children.

Definition evaluate (n : @node exact colors) : Exc (list (shape * rgb)) :=
  @process_node exact colors n.

(** A red disk at the origin, a green disk one cell to the right, a blue
    square, and a polygon gene with too few vertices to make a ring. *)
Definition red_disk : @node exact colors :=
  leaf "disk" (tf 1 1 0 0 0) (255, 0, 0)%Z None.
Definition green_disk : @node exact colors :=
  leaf "disk" (tf 1 1 0 1 0) (0, 255, 0)%Z None.
Definition blue_square : @node exact colors :=
  leaf "square" (tf 1 1 0 0 0) (0, 0, 255)%Z None.
Definition degenerate : @node exact colors :=
  leaf "polygon" (tf 1 1 0 0 0) (0, 0, 255)%Z (Some [(0, 0)%Z]).

End Grid.

(** ** What the specification says, in its own words *)

Section Specification.
Context `{Shapely} `{ColorAlgebra}.

(** The region a fail-soft operation hands back. *)
Definition region_of (e : Exc Geom) : Geom :=
  match e with
  | Ret g => g
  | Raise _ => Polygon_empty
  end.

Definition region_inter (a b : Geom) : Geom := region_of (safe_intersection a b).
Definition region_diff (a b : Geom) : Geom := region_of (safe_difference a b).

(** The shatter step of the specification: compare the incoming region with
    every existing piece, in order; the result is the list of pieces and what
    is left of the incoming region. *)
Fixpoint spec_shatter_loop (P : list patch) (region_b : Geom) (color_b : Color)
    : list patch * Geom :=
  match P with
  | [] => ([], region_b)
  | (region_a, color_a) :: P' =>
    let overlap := region_inter region_a region_b in
    if is_empty overlap then
      let '(pieces, remainder) := spec_shatter_loop P' region_b color_b in
      ((region_a, color_a) :: pieces, remainder)
    else
      let survivor := region_diff region_a overlap in
      let '(pieces, remainder) :=
        spec_shatter_loop P' (region_diff region_b region_a) color_b in
      ((if is_empty survivor then [] else [(survivor, color_a)])
         ++ (overlap, or_color color_a color_b) :: pieces, remainder)
  end.

Definition spec_shatter (P : list patch) (region_b : Geom) (color_b : Color)
    : list patch :=
  let '(pieces, remainder) := spec_shatter_loop P region_b color_b in
  pieces ++ (if is_empty remainder then [] else [(remainder, color_b)]).

(** Cross product of two partitions under intersection. *)
Definition cross (acc part : list patch) : list patch :=
  flat_map (fun a : patch =>
    flat_map (fun b : patch =>
      let inter := region_inter a.1 b.1 in
      if is_empty inter then [] else [(inter, and_color a.2 b.2)]) part) acc.

Definition fold_cross (parts : list (list patch)) : list patch :=
  match parts with
  | [] => []
  | first :: rest => foldl cross first rest
  end.

Definition nonempty_result (res : list patch) : bool :=
  match res with
  | [] => false
  | _ => true
  end.

(** The child partitions from the first non-empty one on. *)
Fixpoint from_first_nonempty (parts : list (list patch)) : list (list patch) :=
  match parts with
  | [] => []
  | res :: parts' =>
    if nonempty_result res then res :: parts' else from_first_nonempty parts'
  end.

(** The intersection fold as the claim words it: start at the first non-empty
    child partition, then take every subsequent child partition. *)
Definition claim_intersection (parts : list (list patch)) : list patch :=
  fold_cross (from_first_nonempty parts).

(** The intersection fold over the non-empty child partitions only. *)
Definition spec_intersection (parts : list (list patch)) : list patch :=
  fold_cross (List.filter nonempty_result parts).

(** Difference: every piece of the minuend minus the plain union of all
    regions of the subtrahend partitions; empty pieces are dropped. *)
Definition subtract_all (minuend : list patch) (rest : list (list patch))
    : list patch :=
  let subtrahend := region_of (unary_union (List.map fst (List.concat rest))) in
  flat_map (fun a : patch =>
    let diff := region_diff a.1 subtrahend in
    if is_empty diff then [] else [(diff, a.2)]) minuend.

(** The difference as the claim words it: the first child is the minuend. *)
Definition claim_difference (parts : list (list patch)) : list patch :=
  match parts with
  | [] => []
  | first :: rest => subtract_all first rest
  end.

(** The difference with the first non-empty child partition as the minuend. *)
Definition spec_difference (parts : list (list patch)) : list patch :=
  claim_difference (List.filter nonempty_result parts).

(** What the zero-width buffering repair makes of a geometry: a polygonal
    result is kept, a collection is collapsed to the union of its polygonal
    members, and anything else, or any failure, is the empty region. *)
Definition buffer_repair (g : Geom) : Geom :=
  match buffer0 g with
  | Ret (Some r) =>
    if is_empty r then Polygon_empty
    else if polygonal r then r
    else if String.eqb (geom_type r) "GeometryCollection" then
      match List.filter polygonal (geoms r) with
      | [] => Polygon_empty
      | polys => region_of (unary_union polys)
      end
    else Polygon_empty
  | _ => Polygon_empty
  end.

(** The repaired form of a geometry. *)
Definition repaired (g : Geom) : Geom := region_of (fix_geom (Some g)).

(** A computation that raises. *)
Definition fails {A} (e : Exc A) : Prop := ∃ x, e = Raise x.

(** The canonical unit shape of a gene, before repair. *)
Definition unit_shape (gene : PrimitiveGene) : Exc (flow Geom Geom) :=
  if String.eqb (kind gene) "disk" then Ret (Next unit_disk)
  else if String.eqb (kind gene) "square" then Ret (Next unit_box)
  else if String.eqb (kind gene) "polygon" then
    try_except (Next <$> Polygon_of (polygon_vertices gene))
               (Ret (Return Polygon_empty))
  else Raise (ValueError ("Unknown kind " +:+ kind gene)).

(** The conversion as the claim words it: a repair pass after each of the
    three transform steps. *)
Definition claim_to_region (gene : PrimitiveGene) : Exc Geom :=
  b ← unit_shape gene;
  match b with
  | Return r => Ret r
  | Next base =>
    base ← fix_geom (Some base);
    let t := transform gene in
    try_except
      (geom ← scale base (sx t) (sy t);
       geom ← fix_geom (Some geom);
       geom ← rotate geom (theta t);
       geom ← fix_geom (Some geom);
       geom ← translate geom (dx t) (dy t);
       fix_geom (Some geom))
      (Ret Polygon_empty)
  end.

(** The three transforms chained, as one guarded block runs them. *)
Definition transformed (base : Geom) (t : Transform) : Exc Geom :=
  geom ← scale base (sx t) (sy t);
  geom ← rotate geom (theta t);
  translate geom (dx t) (dy t).

(** All regions of a list of pieces are non-empty. *)
Definition all_nonempty (ps : list patch) : Prop :=
  Forall (fun p : patch => is_empty p.1 = false) ps.

(** Genomes whose primitives have one of the three kinds of the data model. *)
Definition known_kind (gene : PrimitiveGene) : Prop :=
  kind gene = "disk" ∨ kind gene = "square" ∨ kind gene = "polygon".

Fixpoint known_kinds (n : node) : Prop :=
  match n with
  | PrimitiveNode gene => known_kind gene
  | OpNode _ children =>
    (fix all (cs : list node) : Prop :=
       match cs with
       | [] => True
       | c :: cs' => known_kinds c ∧ all cs'
       end) children
  end.

End Specification.

(** ** Exact substrates

    A reading of geometries as point sets, and the laws of a substrate whose
    overlay operations compute exactly on valid polygonal operands. *)

Class Coverage (S : Shapely) : Type := {
  Pt : Type;
  covers : Geom → Pt → Prop;
}.

(** A valid polygonal geometry. *)
Definition wf `{Shapely} (g : Geom) : Prop :=
  is_valid g = Ret true ∧ polygonal g = true.

Class Exact (S : Shapely) (C : Coverage S) : Prop := {
  is_valid_returns g : ∃ v, is_valid g = Ret v;
  empty_covers g p : is_empty g = true → ¬ covers g p;
  nonempty_covers g : wf g → is_empty g = false → ∃ p, covers g p;
  Polygon_empty_wf : wf Polygon_empty;
  Polygon_empty_is_empty : is_empty Polygon_empty = true;
  buffer0_exact g :
    ∃ r, buffer0 g = Ret (Some r) ∧ wf r ∧ ∀ p, covers r p ↔ covers g p;
  intersection_exact a b : wf a → wf b →
    ∃ r, intersection a b = Ret r ∧ ∀ p, covers r p ↔ covers a p ∧ covers b p;
  difference_exact a b : wf a → wf b →
    ∃ r, difference a b = Ret r ∧ ∀ p, covers r p ↔ covers a p ∧ ¬ covers b p;
  unary_union_exact gs : Forall wf gs →
    ∃ r, unary_union gs = Ret r ∧ wf r
         ∧ ∀ p, covers r p ↔ ∃ g, g ∈ gs ∧ covers g p;
}.

(** A geometry without area: it covers no point. *)
Definition flat `{S : Shapely} {C : Coverage S} (g : Geom) : Prop :=
  ∀ p, ¬ covers g p.

(** The affine transforms of a substrate that computes them exactly, where
    they return: scaling a valid polygonal geometry gives a valid polygonal
    non-empty geometry again or, when the geometry is empty or a factor
    flattens it, a geometry without area; a rotation or a translation of a
    valid polygonal non-empty geometry is one again, and a rotation or a
    translation of a geometry without area is without area. *)
Class Affine (S : Shapely) (C : Coverage S) : Prop := {
  scale_exact g xfact yfact r :
    wf g → scale g xfact yfact = Ret r → (wf r ∧ is_empty r = false) ∨ flat r;
  rotate_exact g theta r :
    wf g → is_empty g = false → rotate g theta = Ret r → wf r ∧ is_empty r = false;
  rotate_flat g theta r : flat g → rotate g theta = Ret r → flat r;
  translate_exact g xoff yoff r :
    wf g → is_empty g = false → translate g xoff yoff = Ret r →
    wf r ∧ is_empty r = false;
  translate_flat g xoff yoff r : flat g → translate g xoff yoff = Ret r → flat r;
}.

Section Partitions.
Context `{S : Shapely} `{ColorAlgebra} {C : Coverage S}.

Definition disjoint (a b : Geom) : Prop := ∀ p, ¬ (covers a p ∧ covers b p).

Definition same_region (a b : Geom) : Prop := ∀ p, covers a p ↔ covers b p.

(** [r] lies within [a]. *)
Definition within (r a : Geom) : Prop := ∀ p, covers r p → covers a p.

(** The fail-soft intersection of two regions is empty. *)
Definition no_overlap (a b : Geom) : Prop := is_empty (region_inter a b) = true.

(** A relation holds between every two elements at distinct positions, the
    earlier one on the left. *)
Fixpoint pairwise {A} (R : A → A → Prop) (xs : list A) : Prop :=
  match xs with
  | [] => True
  | x :: xs' => Forall (R x) xs' ∧ pairwise R xs'
  end.

(** The regions of a list of pieces. *)
Definition regions (ps : list patch) : list Geom := List.map fst ps.

(** A partition as evaluation builds it: valid polygonal non-empty regions,
    pairwise disjoint. *)
Definition partition (ps : list patch) : Prop :=
  Forall (fun r => wf r ∧ is_empty r = false) (regions ps)
  ∧ pairwise disjoint (regions ps).

(** A point is covered by a list of pieces when one of its regions covers it. *)
Definition covered (ps : list patch) (p : Pt) : Prop :=
  ∃ piece, piece ∈ ps ∧ covers piece.1 p.

(** Piece by piece: the same colour on the same point set. *)
Definition same_pieces (ps qs : list patch) : Prop :=
  Forall2 (fun p q : patch => same_region p.1 q.1 ∧ p.2 = q.2) ps qs.

End Partitions.

Definition grid_covers (g : Grid.shape) (p : Grid.cell) : Prop := p ∈ Grid.area g.

Definition grid_coverage (glitch : Grid.cell → bool)
    : Coverage (Grid.substrate glitch) :=
  @Build_Coverage (Grid.substrate glitch) Grid.cell grid_covers.

(** ** The population facade *)

Module Backend.
Section Adapter.
Context {Genome Rng Image : Type}.

(** The Mutation Engine, which is not under [src/]: one offspring of a
    parent, drawn from the random stream of the population. *)
Context (mutate : Genome → Rng → Genome * Rng).

(** [PopulationStateManager]: the in-memory population and its stream. *)
Record PopulationStateManager : Type := {
  population : list Genome;
  rng : Rng;
}.

(** Modelled from the spec: the offspring of one generation, which
    [PopulationStateManager.evolve] (not under [src/]) produces.  Each of the
    [slots] places of the next generation takes its parent by cycling through
    the selected parents, in increasing index order, and holds the mutation of
    that parent. *)
Fixpoint breed (parents : list Genome) (slots k : nat) (r : Rng) : list Genome * Rng :=
  match slots with
  | O => ([], r)
  | S slots' =>
    match parents !! (k mod length parents)%nat with
    | None => ([], r)
    | Some parent =>
      let '(child, r') := mutate parent r in
      let '(later, r'') := breed parents slots' (S k) r' in
      (child :: later, r'')
    end
  end.

(** A selection is valid when it is not empty and every index is one of the
    population. *)
Definition valid_selection (population : list Genome) (selected_indices : gset Z) : Prop :=
  selected_indices ≠ ∅
  ∧ set_Forall (fun i => (0 ≤ i < Z.of_nat (length population))%Z) selected_indices.

(** Modelled from the spec: [PopulationStateManager.evolve], which is not
    under [src/].  It requires a non-empty selection of valid indices and fails
    with [InvalidSelection] otherwise, leaving the population as it is; on a
    valid selection it replaces the whole population by the offspring of the
    selected parents. *)
Definition pop_state_evolve (self : PopulationStateManager) (selected_indices : gset Z)
    : PopulationStateManager * Exc (list Genome) :=
  if bool_decide (valid_selection (population self) selected_indices) then
    let parents :=
      omap (fun i : Z => population self !! Z.to_nat i)
           (merge_sort Z.le (elements selected_indices)) in
    let '(offspring, r) := breed parents (length (population self)) 0 (rng self) in
    ({| population := offspring; rng := r |}, Ret offspring)
  else (self, Raise InvalidSelection).

(** The fields of [BackendAdapter] that [evolve] reads or writes. *)
Record BackendAdapter : Type := {
  pop_state : PopulationStateManager;
  generation : Z;
  _image_cache : gmap (Z * Z) Image;
}.

(** The first statements of [evolve]: drop the cached previews of every
    generation older than [generation - 2]. *)
Definition evict_old_generations (cache : gmap (Z * Z) Image) (generation : Z)
    : gmap (Z * Z) Image :=
  let old_gens :=
    filter (fun g : Z => (g < generation - 2)%Z)
           (elements (set_map fst (dom cache) : gset Z)) in
  foldl (fun cache old_gen =>
           let keys_to_remove :=
             filter (fun k : Z * Z => k.1 = old_gen) (elements (dom cache)) in
           foldl (fun cache key => delete key cache) cache keys_to_remove)
        cache old_gens.

(** [BackendAdapter.evolve]: the adapter after the call, and the result or
    the exception of the call. *)
Definition evolve (self : BackendAdapter) (selected_indices : gset Z)
    : BackendAdapter * Exc (list Genome) :=
  let cache := evict_old_generations (_image_cache self) (generation self) in
  let '(pop_state', result) := pop_state_evolve (pop_state self) selected_indices in
  match result with
  | Ret result =>
    ({| pop_state := pop_state';
        generation := generation self + 1;
        _image_cache := cache |}, Ret result)
  | Raise e =>
    ({| pop_state := pop_state';
        generation := generation self;
        _image_cache := cache |}, Raise e)
  end.

End Adapter.

(** A population of numbered genomes whose mutation adds the stream value. *)
Definition toy_mutate (g r : nat) : nat * nat := ((g + r)%nat, S r).

Definition toy_adapter : @BackendAdapter nat nat string := {|
  pop_state := {| population := [10; 20; 30]%nat; rng := 1%nat |};
  generation := 5;
  _image_cache := {[ (1, 0)%Z := "old"; (4, 0)%Z := "recent" ]};
|}.

End Backend.

(** * Preview rendering and its cache ([backend_adapter.py]) *)

Module Previews.

(** PNG data, a [bytes] object; [b""] is the empty list. *)
Definition bytes : Type := list Byte.byte.

(** What a render hands to the caller: the PNG data, or [b""] when the
    future raised. *)
Definition png_or_blank (e : Exc bytes) : bytes :=
  match e with
  | Ret img_bytes => img_bytes
  | Raise _ => []
  end.

Definition is_not_None {A} (x : option A) : bool :=
  match x with
  | Some _ => true
  | None => false
  end.

Section Previews.
Context {Genome Rng : Type}.

(** What [future.result()] gives for the future submitted for each index of
    the population: the PNG data of [_render_single_genome], or the exception
    it raises. *)
Context (outcome : nat → Exc bytes).

(** The first loop of [render_all_previews_parallel]: the cached preview of
    every individual of the current generation, [None] where there is none. *)
Definition cached_results (self : @Backend.BackendAdapter Genome Rng bytes)
    : list (option bytes) :=
  imap (fun idx _ =>
          Backend._image_cache self !! (Backend.generation self, Z.of_nat idx))
       (Backend.population (Backend.pop_state self)).

(** The body of the loop over the completed futures. *)
Definition collect (use_cache : bool) (generation : Z)
    (st : list (option bytes) * gmap (Z * Z) bytes) (idx : nat)
    : list (option bytes) * gmap (Z * Z) bytes :=
  let '(results, cache) := st in
  match outcome idx with
  | Ret img_bytes =>
    (<[idx := Some img_bytes]> results,
     if use_cache then <[(generation, Z.of_nat idx) := img_bytes]> cache else cache)
  | Raise _ => (<[idx := Some []]> results, cache)
  end.

(** [BackendAdapter.render_all_previews_parallel]: the adapter after the call
    and the list it returns.  [completed] is the order in which
    [as_completed] yields the futures, given by their indices; it is a
    permutation of the indices of the population. *)
Definition render_all_previews_parallel (completed : list nat)
    (self : @Backend.BackendAdapter Genome Rng bytes) (use_cache : bool)
    : @Backend.BackendAdapter Genome Rng bytes * list (option bytes) :=
  if use_cache && forallb is_not_None (cached_results self) then
    (self, cached_results self)
  else
    let results :=
      replicate (length (Backend.population (Backend.pop_state self))) None in
    let '(results, cache) :=
      foldl (collect use_cache (Backend.generation self))
            (results, Backend._image_cache self) completed in
    ({| Backend.pop_state := Backend.pop_state self;
        Backend.generation := Backend.generation self;
        Backend._image_cache := cache |}, results).

End Previews.

(** Two numbered genomes of generation 3, the preview of the first one in the
    cache; the render of the second one fails. *)
Definition toy_adapter : @Backend.BackendAdapter nat nat bytes := {|
  Backend.pop_state := {| Backend.population := [10; 20]%nat; Backend.rng := 1%nat |};
  Backend.generation := 3;
  Backend._image_cache := {[ (3, 0)%Z := [Byte.x01] ]};
|}.

Definition toy_outcome (idx : nat) : Exc bytes :=
  match idx with
  | O => Ret [Byte.x0a]
  | _ => Raise GEOSException
  end.

End Previews.

(** * The evolve screen ([evolve_screen.py], [individual_widget.py]) *)

Module EvolveScreen.

(** What a card of the grid shows: the decoded preview, or the dark red
    square that stands for a render that failed. *)
Inductive Pixmap : Type :=
  | DarkRed
  | Loaded (payload : Previews.bytes).

(** [IndividualWidget]: the fields the selection logic reads or writes. *)
Record IndividualWidget : Type := {
  index : Z;
  pixmap : Pixmap;
  is_selected : bool;
}.

(** [IndividualWidget.toggle_select]: the card after the click; it emits
    [toggled_selection(index, is_selected)] with its new state. *)
Definition toggle_select (w : IndividualWidget) : IndividualWidget :=
  {| index := index w; pixmap := pixmap w; is_selected := negb (is_selected w) |}.

(** What [evolve_step] tells the user: the warning box, or one of the two
    status messages. *)
Inductive feedback : Type :=
  | SelectionRequired
  | Created (generation : Z)
  | EvolutionError (e : exn).

Section Screen.
Context {Genome Rng : Type} (mutate : Genome → Rng → Genome * Rng).

(** [QPixmap.loadFromData]: whether Qt decodes the payload. *)
Context (loadFromData : Previews.bytes → bool).

(** The fields of [EvolveScreen] that selection and evolution read or write;
    [cards] are the widgets of [grid_layout] other than the loading label,
    each with its row and column; [lbl_inspector_index] is the index label of
    the inspector panel, [None] for the text [N/A] and [Some index] for
    [#index]. *)
Record EvolveScreen : Type := {
  backend : @Backend.BackendAdapter Genome Rng Previews.bytes;
  generation : Z;
  selected_indices : gset Z;
  current_selected_index : option Z;
  cards : list (IndividualWidget * (Z * Z));
  lbl_inspector_index : option Z;
}.

(** [InspectorWidget.update_inspector], on the index label.  [inspected]
    tells whether the backend calls of its guarded block, which come before
    the label is set, returned; when one of them raises the exception is
    printed and the label keeps its text. *)
Definition update_inspector (inspected : bool) (label : option Z) (index : Z)
    : option Z :=
  if inspected then Some index else label.

(** [InspectorWidget.clear_inspector], on the index label. *)
Definition clear_inspector (label : option Z) : option Z := None.

(** [EvolveScreen.handle_selection], the slot of [toggled_selection]. *)
Definition handle_selection (inspected : bool) (self : EvolveScreen) (index : Z)
    (is_selected : bool) : EvolveScreen :=
  let selected :=
    if is_selected then selected_indices self ∪ {[ index ]}
    else selected_indices self ∖ {[ index ]} in
  if is_selected then
    {| backend := backend self;
       generation := generation self;
       selected_indices := selected;
       current_selected_index := Some index;
       cards := cards self;
       lbl_inspector_index :=
         update_inspector inspected (lbl_inspector_index self) index |}
  else if bool_decide (current_selected_index self = Some index) then
    {| backend := backend self;
       generation := generation self;
       selected_indices := selected;
       current_selected_index := None;
       cards := cards self;
       lbl_inspector_index := clear_inspector (lbl_inspector_index self) |}
  else
    {| backend := backend self;
       generation := generation self;
       selected_indices := selected;
       current_selected_index := current_selected_index self;
       cards := cards self;
       lbl_inspector_index := lbl_inspector_index self |}.

(** [IndividualWidget.mousePressEvent] with the left button on the [i]-th
    card of the grid: the card toggles and the screen handles the signal.
    The event carries whether the backend answers the inspection it may
    start. *)
Definition mousePressEvent (self : EvolveScreen) (click : nat * bool) : EvolveScreen :=
  let '(i, inspected) := click in
  match cards self !! i with
  | None => self
  | Some (w, position) =>
    let w' := toggle_select w in
    handle_selection inspected
      {| backend := backend self;
         generation := generation self;
         selected_indices := selected_indices self;
         current_selected_index := current_selected_index self;
         cards := <[i := (w', position)]> (cards self);
         lbl_inspector_index := lbl_inspector_index self |}
      (index w') (is_selected w')
  end.

(** The pixmap of a card, from the payload of its preview. *)
Definition preview_pixmap (payload : option Previews.bytes) : Pixmap :=
  match payload with
  | None => DarkRed
  | Some [] => DarkRed
  | Some payload => if loadFromData payload then Loaded payload else DarkRed
  end.

(** [EvolveScreen.render_population_grid]: the old cards are deleted, the
    selection is cleared, the cached previews of the current generation are
    popped, the previews are asked from the backend and laid out in
    [max(1, available_width // 235)] columns.  [available_width] is the width
    left after the inspector panel and the margins.  The inspector is left as
    it is: the callers clear it afterwards. *)
Definition render_population_grid (outcome : nat → Exc Previews.bytes)
    (completed : list nat) (available_width : Z) (self : EvolveScreen) : EvolveScreen :=
  let pop := Backend.population (Backend.pop_state (backend self)) in
  match pop with
  | [] =>
    {| backend := backend self;
       generation := generation self;
       selected_indices := ∅;
       current_selected_index := None;
       cards := [];
       lbl_inspector_index := lbl_inspector_index self |}
  | _ :: _ =>
    let cache :=
      foldl (fun cache idx =>
               delete (Backend.generation (backend self), Z.of_nat idx) cache)
            (Backend._image_cache (backend self)) (seq 0 (length pop)) in
    let '(backend', image_payloads) :=
      Previews.render_all_previews_parallel outcome completed
        {| Backend.pop_state := Backend.pop_state (backend self);
           Backend.generation := Backend.generation (backend self);
           Backend._image_cache := cache |} true in
    let cols := Z.max 1 (available_width `div` 235) in
    {| backend := backend';
       generation := generation self;
       selected_indices := ∅;
       current_selected_index := None;
       cards :=
         imap (fun i payload =>
                 ({| index := Z.of_nat i;
                     pixmap := preview_pixmap payload;
                     is_selected := false |},
                  (Z.of_nat i `div` cols, Z.of_nat i `mod` cols)%Z))
              image_payloads;
       lbl_inspector_index := lbl_inspector_index self |}
  end.

(** [EvolveScreen.evolve_step].  [saved] is what
    [backend.save_generation_state] does, which writes to disk: it returns or
    raises.  Every exception of the guarded block ends in the error status
    message; the cards are deleted when the loading message is shown; the
    inspector is cleared at the end of the guarded block. *)
Definition evolve_step (outcome : nat → Exc Previews.bytes) (completed : list nat)
    (available_width : Z) (saved : Exc unit) (self : EvolveScreen)
    : EvolveScreen * feedback :=
  let selected :=
    if bool_decide (selected_indices self = ∅) then
      match current_selected_index self with
      | Some index => selected_indices self ∪ {[ index ]}
      | None => selected_indices self
      end
    else selected_indices self in
  if bool_decide (selected = ∅) then
    ({| backend := backend self;
        generation := generation self;
        selected_indices := selected;
        current_selected_index := current_selected_index self;
        cards := cards self;
        lbl_inspector_index := lbl_inspector_index self |}, SelectionRequired)
  else
    let '(backend', result) := Backend.evolve mutate (backend self) selected in
    match result with
    | Raise e =>
      ({| backend := backend';
          generation := generation self;
          selected_indices := selected;
          current_selected_index := current_selected_index self;
          cards := [];
          lbl_inspector_index := lbl_inspector_index self |}, EvolutionError e)
    | Ret _ =>
      let shown :=
        {| backend := backend';
           generation := Backend.generation backend';
           selected_indices := selected;
           current_selected_index := current_selected_index self;
           cards := [];
           lbl_inspector_index := lbl_inspector_index self |} in
      match saved with
      | Raise e => (shown, EvolutionError e)
      | Ret _ =>
        let drawn := render_population_grid outcome completed available_width shown in
        ({| backend := backend drawn;
            generation := generation drawn;
            selected_indices := selected_indices drawn;
            current_selected_index := current_selected_index drawn;
            cards := cards drawn;
            lbl_inspector_index := clear_inspector (lbl_inspector_index drawn) |},
         Created (Backend.generation backend'))
      end
    end.

(** The selection is in step with the cards: every card carries its place in
    the grid as its index, the selected indices are those of the highlighted
    cards, [current_selected_index], if it is set, is selected, and there is
    one card for each individual. *)
Definition in_step (self : EvolveScreen) : Prop :=
  (∀ k w position, cards self !! k = Some (w, position) → index w = Z.of_nat k)
  ∧ (∀ i : Z, i ∈ selected_indices self
       ↔ ∃ k w position,
           i = Z.of_nat k ∧ cards self !! k = Some (w, position)
           ∧ is_selected w = true)
  ∧ (∀ i, current_selected_index self = Some i → i ∈ selected_indices self)
  ∧ length (cards self)
    = length (Backend.population (Backend.pop_state (backend self))).

End Screen.

(** A screen on the toy adapter of [Previews], with its first individual
    selected and no card drawn yet. *)
Definition toy_screen : @EvolveScreen nat nat :=
  @Build_EvolveScreen nat nat Previews.toy_adapter 3 {[ 0%Z ]} (Some 0%Z) [] None.

End EvolveScreen.

(** * The population grid image ([drawing.py]) *)

Module Drawing.
Section Grid.
Context {Genome : Type}.

(** The size of the image [save_genome_as_png(genome, filename=None,
    resolution)] returns, [None] when it returns [None]. *)
Context (image_size : Genome → Z → option (Z * Z)).

(** The height of the label under a cell, from the metrics of the font. *)
Context (label_height : Z).

(** The grid image: its size and, for every individual, where its image is
    pasted and the size of that image. *)
Record GridImage : Type := {
  size : Z * Z;
  pasted : list ((Z * Z) * (Z * Z));
}.

(** [math.ceil(n / cols)] for [cols ≥ 1].  The division is the float
    division of Python; for a length and a number of columns below [2^53] its
    rounding does not reach the next integer, so that the ceiling is the
    ceiling of the exact quotient. *)
Definition ceil_div (n cols : Z) : Z := ((n + cols - 1) `div` cols)%Z.

(** The image of one cell: the render of the genome, or a white square of
    the resolution when there is none. *)
Definition cell_image (resolution : Z) (genome : Genome) : Z * Z :=
  match image_size genome resolution with
  | None => (resolution, resolution)
  | Some img => img
  end.

(** [render_population_grid]: the layout of the cells.  The cell size is the
    size of the first image. *)
Definition render_population_grid (population : list Genome)
    (cols resolution cell_padding : Z) : Exc GridImage :=
  match population with
  | [] => Raise (ValueError "Population is empty; nothing to render.")
  | _ :: _ =>
    let cols := Z.max 1 cols in
    let rows := ceil_div (Z.of_nat (length population)) cols in
    let cell_images := List.map (cell_image resolution) population in
    let '(cell_width, cell_height) := hd (0, 0)%Z cell_images in
    let grid_width := (cols * cell_width + (cols + 1) * cell_padding)%Z in
    let grid_height :=
      (rows * (cell_height + label_height) + (rows + 1) * cell_padding)%Z in
    Ret {| size := (grid_width, grid_height);
           pasted :=
             imap (fun idx img =>
                     let row := (Z.of_nat idx `div` cols)%Z in
                     let col := (Z.of_nat idx `mod` cols)%Z in
                     let origin_x :=
                       (cell_padding + col * (cell_width + cell_padding))%Z in
                     let origin_y :=
                       (cell_padding
                        + row * (cell_height + label_height + cell_padding))%Z in
                     ((origin_x, origin_y), img))
                  cell_images |}
  end.

End Grid.

(** Five numbered genomes whose renders have the size of the resolution, and
    the grid image of them in four columns at resolution 250, with a padding
    and a label height of 24. *)
Definition toy_sizes (genome : nat) (resolution : Z) : option (Z * Z) :=
  Some (resolution, resolution).

Definition toy_grid : GridImage := {|
  size := (1120, 620)%Z;
  pasted := [ ((24, 24), (250, 250)); ((298, 24), (250, 250));
              ((572, 24), (250, 250)); ((846, 24), (250, 250));
              ((24, 322), (250, 250)) ]%Z;
|}.

End Drawing.

(** * The composition tree ([tree_renderer.py]) *)

Module TreeRenderer.

(** The codes of a Matplotlib path. *)
Inductive code : Type := MOVETO | LINETO | CLOSEPOLY.

(** The codes of a closed subpath of [n] points: it is opened at the first
    point, drawn through the points between, and closed at the last one. *)
Definition subpath_codes (n : nat) : list code :=
  MOVETO :: replicate (n - 2) LINETO ++ [CLOSEPOLY].

Section Paths.
Context {Coord Vertex : Type}.

(** The vertex [(float(coord[0]), float(coord[1]))] of a coordinate. *)
Context (xy : Coord → Vertex).

(** A shapely polygon, as [_polygon_to_path] reads it. *)
Record Polygon : Type := {
  is_empty : bool;
  exterior : list Coord;
  interiors : list (list Coord);
}.

(** The inner function [_add_ring], on the two lists it appends to. *)
Definition _add_ring (coords : list Coord) (path : list Vertex * list code)
    : list Vertex * list code :=
  let ring := coords in
  if (length ring <? 2)%nat then path
  else
    foldl (fun '(vertices, codes) '(idx, coord) =>
             (vertices ++ [xy coord],
              codes ++ [if (idx =? 0)%nat then MOVETO
                        else if (idx =? length ring - 1)%nat then CLOSEPOLY
                        else LINETO]))
          path (zip (seq 0 (length ring)) ring).

(** [_polygon_to_path]: the vertices and the codes of the path, [None] when
    there is nothing to draw. *)
Definition _polygon_to_path (polygon : Polygon) : option (list Vertex * list code) :=
  if is_empty polygon then None
  else
    let path := _add_ring (exterior polygon) ([], []) in
    let path := foldl (fun path interior => _add_ring interior path) path
                      (interiors polygon) in
    match path.1 with
    | [] => None
    | _ :: _ => Some path
    end.

End Paths.

Section Layout.
Context {F : Type}.

(** The float arithmetic of [_assign_positions]: the float [n.0], which
    [next_x] reaches in steps of [1.0]; [sum(xs) / len(xs)]; and
    [-depth * y_step]. *)
Context (float_of_nat : nat → F) (mean : list F → F) (level_y : nat → F).

Local Unset Elimination Schemes.
Inductive TreeNode : Type :=
  | Node (kind label : string) (x y : F) (children : list TreeNode).
Local Set Elimination Schemes.

Definition x (node : TreeNode) : F :=
  match node with Node _ _ x _ _ => x end.

Definition y (node : TreeNode) : F :=
  match node with Node _ _ _ y _ => y end.

Fixpoint _compute_depth (root : TreeNode) : nat :=
  match root with
  | Node _ _ _ _ [] => 1
  | Node _ _ _ _ children =>
    1 + foldr (fun child deepest => Nat.max (_compute_depth child) deepest) 0 children
  end.

(** The loop of [assign_x] over the children of a node, [assign] being the
    recursive call one level down: it threads [next_x] through the children
    and extends [x_positions] by what each call returns. *)
Definition assign_children (assign : TreeNode → nat → (nat * list F) * TreeNode)
    : list TreeNode → nat → list F → nat * list F * list TreeNode :=
  fix loop (children : list TreeNode) (next_x : nat) (x_positions : list F) :=
    match children with
    | [] => (next_x, x_positions, [])
    | child :: children =>
      let '((next_x, child_xs), child) := assign child next_x in
      let '(next_x, x_positions, children) :=
        loop children next_x (x_positions ++ child_xs) in
      (next_x, x_positions, child :: children)
    end.

(** The inner function [assign_x]: what it returns, and the node with its
    position set. *)
Fixpoint assign_x (node : TreeNode) (depth next_x : nat) : (nat * list F) * TreeNode :=
  match node with
  | Node kind label _ _ [] =>
    ((S next_x, [float_of_nat next_x]),
     Node kind label (float_of_nat next_x) (level_y depth) [])
  | Node kind label _ _ children =>
    let '(next_x, x_positions, children) :=
      assign_children (fun child next_x => assign_x child (S depth) next_x)
                      children next_x [] in
    ((next_x, [mean x_positions]),
     Node kind label (mean x_positions) (level_y depth) children)
  end.

(** [_assign_positions]: the tree with the positions set. *)
Definition _assign_positions (root : TreeNode) : TreeNode :=
  (assign_x root 0 0).2.

(** The inner function [collect_leaves] of [_draw_tree]. *)
Fixpoint collect_leaves (node : TreeNode) : list TreeNode :=
  match node with
  | Node _ _ _ _ [] => [node]
  | Node _ _ _ _ children => flat_map collect_leaves children
  end.

(** The nodes of a tree with their level, the root at level [depth]. *)
Fixpoint levels (node : TreeNode) (depth : nat) : list (nat * TreeNode) :=
  match node with
  | Node _ _ _ _ children =>
    (depth, node) :: flat_map (fun child => levels child (S depth)) children
  end.

End Layout.

(** Positions as expressions, to run the layout without float arithmetic:
    the float of a count, a mean, and the line of a level. *)
Local Unset Elimination Schemes.
Inductive position : Type :=
  | Count (n : nat)
  | Mean (xs : list position)
  | Line (depth : nat).
Local Set Elimination Schemes.

(** The tree of a union of a disk with the difference of a square and a
    polygon, before it is laid out. *)
Definition toy_tree : @TreeNode position :=
  Node "op" "union" (Count 0) (Line 0)
    [ Node "primitive" "disk" (Count 0) (Line 0) [];
      Node "op" "difference" (Count 0) (Line 0)
        [ Node "primitive" "square" (Count 0) (Line 0) [];
          Node "primitive" "polygon(4)" (Count 0) (Line 0) [] ] ].

End TreeRenderer.

(** * Properties *)

(** ** The error monad *)

Lemma returns_spec {A} (e : Exc A) (P : A → Prop) :
  returns e P ↔ ∃ a, e = Ret a ∧ P a.
Proof.
  destruct e as [a|x]; simpl; split.
  - intros HP. exists a. auto.
  - intros (a' & Heq & HP). injection Heq as ->. exact HP.
  - intros [].
  - intros (a' & Heq & _). discriminate Heq.
Qed.

Lemma returns_mono {A} (e : Exc A) (P Q : A → Prop) :
  returns e P → (∀ a, P a → Q a) → returns e Q.
Proof. destruct e; simpl; auto. Qed.

Lemma returns_bind {A B} (e : Exc A) (k : A → Exc B) (P : A → Prop) (Q : B → Prop) :
  returns e P → (∀ a, P a → returns (k a) Q) → returns (e ≫= k) Q.
Proof. destruct e; simpl; [auto | intros []]. Qed.

Lemma returns_and {A} (e : Exc A) (P Q : A → Prop) :
  returns e P → returns e Q → returns e (fun a => P a ∧ Q a).
Proof. destruct e; simpl; auto. Qed.

Lemma for_each_app {A S} (xs ys : list A) (body : S → A → Exc S) (acc : S) :
  for_each (xs ++ ys) body acc = for_each xs body acc ≫= for_each ys body.
Proof.
  revert acc. induction xs as [|x xs IH]; intros acc; simpl; [done|].
  destruct (body acc x) as [acc'|e]; simpl; [apply IH | done].
Qed.

(** A loop whose body always returns and keeps an invariant returns, and the
    invariant holds at the end. *)
Lemma for_each_invariant {A S} (I : S → Prop) (xs : list A) (body : S → A → Exc S) acc :
  I acc →
  (∀ s x, x ∈ xs → I s → returns (body s x) I) →
  returns (for_each xs body acc) I.
Proof.
  revert acc. induction xs as [|x xs IH]; intros acc Hacc Hbody; simpl; [done|].
  eapply returns_bind.
  - apply Hbody; [left | exact Hacc].
  - intros s Hs. apply IH; [exact Hs|].
    intros s' x' Hx'. apply Hbody. right. exact Hx'.
Qed.

(** ** Repair and the fail-soft operations never raise *)

Section Totality.
Context `{Shapely} `{ColorAlgebra}.

Lemma fix_geom_returns (x : option Geom) : ∃ r, fix_geom x = Ret r.
Proof.
  unfold fix_geom, collapse, try_except.
  repeat (simpl; case_match; simplify_eq/=; eauto).
Qed.

End Totality.

Section Repair.
Context `{Shapely} `{ColorAlgebra}.

Lemma fix_geom_repaired (g : Geom) : fix_geom (Some g) = Ret (repaired g).
Proof.
  unfold repaired. destruct (fix_geom_returns (Some g)) as [r ->]. done.
Qed.

Lemma fix_geom_empty (g : Geom) :
  is_empty g = true → fix_geom (Some g) = Ret Polygon_empty.
Proof. intros Hg. unfold fix_geom. rewrite Hg. done. Qed.

Lemma fix_geom_as_is (g : Geom) :
  is_empty g = false → is_valid g = Ret true → polygonal g = true →
  fix_geom (Some g) = Ret g.
Proof.
  intros Hg Hv Hp. unfold fix_geom. rewrite Hg, Hv. simpl.
  rewrite Hp, ?Hg. done.
Qed.

Lemma fix_geom_buffer (g : Geom) (v : bool) :
  is_empty g = false → is_valid g = Ret v → v && polygonal g = false →
  fix_geom (Some g) = Ret (buffer_repair g).
Proof.
  intros Hg Hv Hp. unfold fix_geom, buffer_repair, collapse, try_except.
  rewrite Hg, Hv. simpl. rewrite Hp. simpl.
  destruct (buffer0 g) as [[r|]|x]; simpl; [|done|done].
  destruct (is_empty r) eqn:Hr; simpl; [done|].
  destruct (polygonal r); simpl; [rewrite Hr; done|].
  destruct (String.eqb (geom_type r) "GeometryCollection"); simpl; [|done].
  destruct (List.filter polygonal (geoms r)) as [|q polys]; simpl; [done|].
  destruct (unary_union (q :: polys)); done.
Qed.

Lemma fix_geom_validity_raises (g : Geom) :
  is_empty g = false → fails (is_valid g) → fix_geom (Some g) = Ret Polygon_empty.
Proof. intros Hg [x Hx]. unfold fix_geom. rewrite Hg, Hx. done. Qed.

(** C8, as amended — [fix_geom] is total and never raises.  [None] and an
    empty geometry become the empty region; a valid, polygonal, non-empty
    geometry is returned as it is; any other non-empty geometry, an invalid one
    included, goes through the zero-width buffering repair, whose polygonal
    result is kept, whose collection result is collapsed to the union of its
    polygonal members, and whose failure (like a failure of the validity test)
    gives the empty region. *)
Theorem fix_geom_total_repair (x : option Geom) :
  (∃ r, fix_geom x = Ret r)
  ∧ (x = None → fix_geom x = Ret Polygon_empty)
  ∧ (∀ g, x = Some g → is_empty g = true → fix_geom x = Ret Polygon_empty)
  ∧ (∀ g, x = Some g → is_empty g = false → is_valid g = Ret true →
          polygonal g = true → fix_geom x = Ret g)
  ∧ (∀ g v, x = Some g → is_empty g = false → is_valid g = Ret v →
            v && polygonal g = false → fix_geom x = Ret (buffer_repair g))
  ∧ (∀ g, x = Some g → is_empty g = false → fails (is_valid g) →
          fix_geom x = Ret Polygon_empty).
Proof.
  split; [apply fix_geom_returns|].
  split; [intros ->; done|].
  split; [intros g ->; apply fix_geom_empty|].
  split; [intros g ->; apply fix_geom_as_is|].
  split; [intros g v ->; apply fix_geom_buffer|].
  intros g ->; apply fix_geom_validity_raises.
Qed.

End Repair.

Section FailSoft.
Context `{Shapely} `{ColorAlgebra}.

Lemma safe_intersection_returns (a b : Geom) : ∃ r, safe_intersection a b = Ret r.
Proof.
  unfold safe_intersection.
  destruct (is_empty a || is_empty b); [eauto|].
  rewrite !fix_geom_repaired. simpl.
  destruct (intersection a b) as [r|x]; simpl; [exact (fix_geom_returns (Some r))|].
  destruct (intersection (repaired a) (repaired b)) as [r|y]; simpl;
    [exact (fix_geom_returns (Some r)) | eauto].
Qed.

Lemma safe_difference_returns (a b : Geom) : ∃ r, safe_difference a b = Ret r.
Proof.
  unfold safe_difference.
  destruct (is_empty a); [eauto|]. destruct (is_empty b); [eauto|].
  rewrite !fix_geom_repaired. simpl.
  destruct (difference a b) as [r|x]; simpl; [exact (fix_geom_returns (Some r))|].
  destruct (difference (repaired a) (repaired b)) as [r|y]; simpl;
    [exact (fix_geom_returns (Some r)) | eauto].
Qed.

Lemma safe_intersection_region (a b : Geom) :
  safe_intersection a b = Ret (region_inter a b).
Proof.
  unfold region_inter. destruct (safe_intersection_returns a b) as [r ->]. done.
Qed.

Lemma safe_difference_region (a b : Geom) :
  safe_difference a b = Ret (region_diff a b).
Proof.
  unfold region_diff. destruct (safe_difference_returns a b) as [r ->]. done.
Qed.

Lemma safe_intersection_fails (a b : Geom) :
  fails (intersection a b) → fails (intersection (repaired a) (repaired b)) →
  safe_intersection a b = Ret Polygon_empty.
Proof.
  intros [x Hx] [y Hy]. unfold safe_intersection.
  destruct (is_empty a || is_empty b); [done|].
  rewrite !fix_geom_repaired, Hx. simpl. rewrite Hy. done.
Qed.

Lemma safe_difference_fails (a b : Geom) :
  is_empty a = false →
  fails (difference a b) → fails (difference (repaired a) (repaired b)) →
  safe_difference a b = Ret a.
Proof.
  intros Ha [x Hx] [y Hy]. unfold safe_difference. rewrite Ha.
  destruct (is_empty b); [done|].
  rewrite !fix_geom_repaired, Hx. simpl. rewrite Hy. done.
Qed.

Lemma safe_difference_empty_right (a b : Geom) :
  is_empty a = false → is_empty b = true → safe_difference a b = Ret a.
Proof. intros Ha Hb. unfold safe_difference. rewrite Ha, Hb. done. Qed.

Lemma safe_difference_empty_left (a b : Geom) :
  is_empty a = true → safe_difference a b = Ret Polygon_empty.
Proof. intros Ha. unfold safe_difference. rewrite Ha. done. Qed.

End FailSoft.

(** ** Evaluation returns, and returns non-empty pieces *)

Section Evaluation.
Context `{Shapely} `{ColorAlgebra}.

Lemma node_induction (P : node → Prop) :
  (∀ gene, P (PrimitiveNode gene)) →
  (∀ op children, Forall P children → P (OpNode op children)) →
  ∀ n, P n.
Proof.
  intros Hleaf Hop. fix IH 1. intros [gene|op children]; [apply Hleaf|].
  apply Hop. induction children as [|c cs IHcs]; constructor; [apply IH | exact IHcs].
Qed.

Lemma process_node_op (op : string) (cs : list node) :
  process_node (OpNode op cs) = eval_children cs ≫= process_op op.
Proof. reflexivity. Qed.

Lemma known_kinds_children (op : string) (cs : list node) :
  known_kinds (OpNode op cs) ↔ Forall known_kinds cs.
Proof.
  simpl. induction cs as [|c cs IH]; split; intros Hcs.
  - constructor.
  - exact I.
  - destruct Hcs as [Hc Hcs]. constructor; [exact Hc | apply IH, Hcs].
  - inversion Hcs; subst. split; [assumption | apply IH; assumption].
Qed.

Lemma gene_to_shapely_returns (gene : PrimitiveGene) :
  known_kind gene → ∃ r, gene_to_shapely gene = Ret r.
Proof.
  intros Hk. unfold gene_to_shapely.
  assert (∃ b, (if String.eqb (kind gene) "disk" then Ret (Next unit_disk)
       else if String.eqb (kind gene) "square" then Ret (Next unit_box)
       else if String.eqb (kind gene) "polygon" then
         try_except (Next <$> Polygon_of (polygon_vertices gene))
                    (Ret (Return Polygon_empty))
       else Raise (ValueError ("Unknown kind " +:+ kind gene))) = Ret b) as [b ->].
  { destruct Hk as [-> | [-> | ->]]; simpl; eauto.
    destruct (Polygon_of (polygon_vertices gene)); simpl; eauto. }
  simpl. destruct b as [r|base]; [eauto|].
  rewrite fix_geom_repaired. simpl.
  destruct (scale _ _ _) as [g1|]; simpl; [|eauto].
  destruct (rotate _ _) as [g2|]; simpl; [|eauto].
  destruct (translate _ _ _) as [g3|]; simpl; [|eauto].
  exact (fix_geom_returns (Some g3)).
Qed.

Lemma shatter_step_nonempty (new_color : Color) (blend_mode : string)
    (st : list patch * Geom) (p : patch) :
  all_nonempty st.1 → is_empty p.1 = false →
  returns (shatter_step new_color blend_mode st p) (fun st' => all_nonempty st'.1).
Proof.
  destruct st as [next s], p as [a ca]. simpl. intros Hnext Ha.
  assert (all_nonempty (next ++ [(a, ca)])) as Hkeep.
  { apply Forall_app. split; [exact Hnext|]. constructor; [exact Ha | constructor]. }
  destruct (is_empty s); [exact Hkeep|].
  rewrite safe_intersection_region. simpl.
  destruct (is_empty (region_inter a s)) eqn:Hi; [exact Hkeep|].
  rewrite !safe_difference_region. simpl.
  destruct (is_empty (region_diff a s)) eqn:Hd; simpl.
  - apply Forall_app. split; [exact Hnext|]. constructor; [exact Hi | constructor].
  - apply Forall_app. split; [|constructor; [exact Hi | constructor]].
    apply Forall_app. split; [exact Hnext|]. constructor; [exact Hd | constructor].
Qed.

Lemma shatter_nonempty (existing : list patch) (g : Geom) (c : Color) (mode : string) :
  all_nonempty existing →
  returns (_shatter_and_blend_with_color_alg existing g c mode) all_nonempty.
Proof.
  intros Hex. unfold _shatter_and_blend_with_color_alg.
  rewrite fix_geom_repaired. simpl.
  destruct (is_empty (repaired g)); [exact Hex|].
  eapply returns_bind.
  - apply (for_each_invariant (fun st : list patch * Geom => all_nonempty st.1)).
    + constructor.
    + intros st p Hp Hst. apply shatter_step_nonempty; [exact Hst|].
      unfold all_nonempty in Hex. rewrite Forall_forall in Hex. apply Hex, Hp.
  - intros [next s] Hnext. simpl in *.
    destruct (is_empty s) eqn:Hs; simpl; [exact Hnext|].
    apply Forall_app. split; [exact Hnext|]. constructor; [exact Hs | constructor].
Qed.

Lemma process_union_nonempty (results : list (list patch)) :
  Forall all_nonempty results → returns (process_union results) all_nonempty.
Proof.
  intros Hres. destruct results as [|first rest]; [constructor|].
  inversion Hres as [|? ? Hfirst Hrest]; subst. simpl.
  apply for_each_invariant; [exact Hfirst|].
  intros current next_child_list _ Hcur.
  apply for_each_invariant; [exact Hcur|].
  intros cur [g c] _ Hc. apply shatter_nonempty, Hc.
Qed.

Lemma process_intersection_nonempty (results : list (list patch)) :
  Forall all_nonempty results → returns (process_intersection results) all_nonempty.
Proof.
  intros Hres. destruct results as [|first rest]; [constructor|].
  inversion Hres as [|? ? Hfirst Hrest]; subst. simpl.
  apply for_each_invariant; [exact Hfirst|].
  intros current next_child_list _ _.
  apply for_each_invariant; [constructor|].
  intros new_shapes [a ca] _ Hnew.
  apply for_each_invariant; [exact Hnew|].
  intros shapes [b cb] _ Hshapes.
  rewrite safe_intersection_region. simpl.
  destruct (is_empty (region_inter a b)) eqn:Hi; simpl; [exact Hshapes|].
  apply Forall_app. split; [exact Hshapes|]. constructor; [exact Hi | constructor].
Qed.

Lemma process_difference_nonempty (results : list (list patch)) :
  Forall all_nonempty results → returns (process_difference results) all_nonempty.
Proof.
  intros Hres. destruct results as [|first rest]; [constructor|].
  inversion Hres as [|? ? Hfirst Hrest]; subst. unfold process_difference.
  destruct (List.filter _ _) as [|s subs]; [exact Hfirst|].
  destruct (unary_union (s :: subs)) as [u|x]; simpl; [|exact Hfirst].
  rewrite fix_geom_repaired. simpl.
  destruct (is_empty (repaired u)); [exact Hfirst|].
  apply for_each_invariant; [constructor|].
  intros final [a ca] _ Hfinal.
  rewrite safe_difference_region. simpl.
  destruct (is_empty (region_diff a (repaired u))) eqn:Hd; simpl; [exact Hfinal|].
  apply Forall_app. split; [exact Hfinal|]. constructor; [exact Hd | constructor].
Qed.

Lemma process_op_nonempty (op : string) (results : list (list patch)) :
  Forall all_nonempty results → returns (process_op op results) all_nonempty.
Proof.
  intros Hres. unfold process_op. destruct results as [|first rest]; [constructor|].
  destruct (String.eqb op "union"); [apply process_union_nonempty, Hres|].
  destruct (String.eqb op "intersection"); [apply process_intersection_nonempty, Hres|].
  destruct (String.eqb op "difference"); [apply process_difference_nonempty, Hres|].
  constructor.
Qed.

Lemma append_if_nonempty_Forall (P : list patch → Prop) res later :
  P res → Forall P later → Forall P (append_if_nonempty res later).
Proof. intros Hr Hl. destruct res; simpl; [exact Hl | constructor; assumption]. Qed.

Lemma eval_children_nonempty (cs : list node) :
  Forall (fun c => returns (process_node c) all_nonempty) cs →
  returns (eval_children cs) (Forall all_nonempty).
Proof.
  induction 1 as [|c cs Hc _ IH]; simpl; [constructor|].
  eapply returns_bind; [exact Hc|]. intros res Hres.
  eapply returns_bind; [exact IH|]. intros later Hlater.
  apply append_if_nonempty_Forall; assumption.
Qed.

Lemma process_node_nonempty (n : node) :
  known_kinds n → returns (process_node n) all_nonempty.
Proof.
  induction n as [gene|op cs IH] using node_induction; intros Hk.
  - simpl in *. destruct (gene_to_shapely_returns gene Hk) as [g ->]. simpl.
    destruct (is_empty g) eqn:Hg; simpl; [constructor|].
    constructor; [exact Hg | constructor].
  - rewrite process_node_op. apply (known_kinds_children op cs) in Hk.
    eapply returns_bind.
    + apply eval_children_nonempty.
      rewrite Forall_forall in *. intros c Hc. apply IH; [exact Hc | apply Hk, Hc].
    + intros results Hres. apply process_op_nonempty, Hres.
Qed.

End Evaluation.

Section EvaluationReturns.
Context `{Shapely} `{ColorAlgebra}.

Lemma gene_to_shapely_known (gene : PrimitiveGene) (r : Geom) :
  gene_to_shapely gene = Ret r → known_kind gene.
Proof.
  unfold gene_to_shapely, known_kind.
  destruct (String.eqb (kind gene) "disk") eqn:Hd;
    [apply String.eqb_eq in Hd; auto|].
  destruct (String.eqb (kind gene) "square") eqn:Hs;
    [apply String.eqb_eq in Hs; auto|].
  destruct (String.eqb (kind gene) "polygon") eqn:Hp;
    [apply String.eqb_eq in Hp; auto|].
  simpl. discriminate.
Qed.

Lemma eval_children_known (cs : list node) (results : list (list patch)) :
  Forall (fun c => ∀ r, process_node c = Ret r → known_kinds c) cs →
  eval_children cs = Ret results → Forall known_kinds cs.
Proof.
  intros Hcs. revert results. induction Hcs as [|c cs Hc _ IH]; intros results; simpl.
  - constructor.
  - destruct (process_node c) as [res|x] eqn:Hres; simpl; [|discriminate].
    destruct (eval_children cs) as [later|y] eqn:Hlater; simpl; [|discriminate].
    intros _. constructor; [eapply Hc; reflexivity | eapply IH; reflexivity].
Qed.

Lemma process_node_known (n : node) (pieces : list patch) :
  process_node n = Ret pieces → known_kinds n.
Proof.
  revert pieces. induction n as [gene|op cs IH] using node_induction; intros pieces.
  - simpl. destruct (gene_to_shapely gene) as [g|x] eqn:Hg; simpl; [|discriminate].
    intros _. eapply gene_to_shapely_known, Hg.
  - rewrite process_node_op.
    destruct (eval_children cs) as [results|x] eqn:Hres; simpl; [|discriminate].
    intros _. apply (known_kinds_children op cs).
    exact (eval_children_known cs results IH Hres).
Qed.

Lemma process_node_returns (n : node) :
  known_kinds n → ∃ pieces, process_node n = Ret pieces.
Proof.
  intros Hk. apply process_node_nonempty in Hk.
  apply returns_spec in Hk as (pieces & Hp & _). eauto.
Qed.

(** C5 — The fail-soft operations never propagate an exception.  Both always
    return; when the underlying intersection raises, and raises again on the
    repaired operands, [safe_intersection] returns the empty region; when the
    underlying difference (attempted on a non-empty left operand) raises, and
    raises again on the repaired operands, [safe_difference] returns the left
    operand itself; and the evaluation of a genome whose primitives have one of
    the three kinds of the data model returns, whatever the geometry does. *)
Theorem safe_operations_fail_soft :
  (∀ a b : Geom, ∃ r, safe_intersection a b = Ret r)
  ∧ (∀ a b : Geom, ∃ r, safe_difference a b = Ret r)
  ∧ (∀ a b : Geom,
       fails (intersection a b) →
       fails (intersection (repaired a) (repaired b)) →
       safe_intersection a b = Ret Polygon_empty)
  ∧ (∀ a b : Geom,
       is_empty a = false →
       fails (difference a b) →
       fails (difference (repaired a) (repaired b)) →
       safe_difference a b = Ret a)
  ∧ (∀ n : node, known_kinds n → ∃ pieces, process_node n = Ret pieces).
Proof.
  split; [exact safe_intersection_returns|].
  split; [exact safe_difference_returns|].
  split; [exact safe_intersection_fails|].
  split; [exact safe_difference_fails|].
  exact process_node_returns.
Qed.

(** C9 — Evaluation returns for every genome of known primitive kinds, and
    every piece of every sequence it returns has a non-empty region; a leaf
    whose region is empty returns the empty sequence. *)
Theorem process_node_pieces_nonempty (n : node) :
  (known_kinds n → ∃ pieces, process_node n = Ret pieces)
  ∧ (∀ pieces, process_node n = Ret pieces →
       Forall (fun p : patch => is_empty p.1 = false) pieces)
  ∧ (∀ gene geom, n = PrimitiveNode gene → gene_to_shapely gene = Ret geom →
       is_empty geom = true → process_node n = Ret []).
Proof.
  split; [apply process_node_returns|]. split.
  - intros pieces Hp.
    pose proof (process_node_nonempty n (process_node_known n pieces Hp)) as Hn.
    rewrite Hp in Hn. exact Hn.
  - intros gene geom -> Hg He. simpl. rewrite Hg. simpl. rewrite He. done.
Qed.

(** C10, as amended — If [b] is empty and [a] is not, [safe_difference a b]
    returns [a] itself, with no repair; if [a] is empty it returns the empty
    polygon, whatever [b] is. *)
Theorem safe_difference_empty_operand (a b : Geom) :
  (is_empty a = false → is_empty b = true → safe_difference a b = Ret a)
  ∧ (is_empty a = true → safe_difference a b = Ret Polygon_empty).
Proof.
  split; [apply safe_difference_empty_right | apply safe_difference_empty_left].
Qed.

End EvaluationReturns.

(** ** The loops of the operator branches as list functions *)

Lemma for_each_pure {A S} (f : S → A → S) (xs : list A) (body : S → A → Exc S) acc :
  (∀ s x, body s x = Ret (f s x)) → for_each xs body acc = Ret (foldl f acc xs).
Proof.
  intros Hbody. revert acc. induction xs as [|x xs IH]; intros acc; simpl; [done|].
  rewrite Hbody. simpl. apply IH.
Qed.

Lemma for_each_collect {A B} (g : A → list B) (xs : list A)
    (body : list B → A → Exc (list B)) acc :
  (∀ s x, body s x = Ret (s ++ g x)) →
  for_each xs body acc = Ret (acc ++ flat_map g xs).
Proof.
  intros Hbody. revert acc. induction xs as [|x xs IH]; intros acc; simpl.
  - rewrite app_nil_r. done.
  - rewrite Hbody. simpl. rewrite IH, <- app_assoc. done.
Qed.

Section Folds.
Context `{Shapely} `{ColorAlgebra}.

Lemma process_intersection_fold (results : list (list patch)) :
  process_intersection results = Ret (fold_cross results).
Proof.
  destruct results as [|first rest]; [done|]. simpl.
  apply for_each_pure. intros current next_child_list.
  unfold cross.
  rewrite (for_each_collect
    (fun a : patch =>
       flat_map (fun b : patch =>
         let inter := region_inter a.1 b.1 in
         if is_empty inter then [] else [(inter, and_color a.2 b.2)])
       next_child_list)); [done|].
  intros new_shapes [geom_a col_a].
  apply for_each_collect. intros shapes [geom_b col_b].
  rewrite safe_intersection_region. simpl.
  destruct (is_empty (region_inter geom_a geom_b)); simpl; [rewrite app_nil_r|]; done.
Qed.

Lemma append_if_nonempty_filter (res : list patch) (parts : list (list patch)) :
  append_if_nonempty res (List.filter nonempty_result parts)
  = List.filter nonempty_result (res :: parts).
Proof. destruct res; done. Qed.

Lemma eval_children_parts (children : list node) (parts : list (list patch)) :
  Forall2 (fun c p => process_node c = Ret p) children parts →
  eval_children children = Ret (List.filter nonempty_result parts).
Proof.
  induction 1 as [|c p cs ps Hc _ IH]; [done|].
  cbn [eval_children]. rewrite Hc, IH. simpl.
  rewrite append_if_nonempty_filter. done.
Qed.

Lemma process_op_intersection (results : list (list patch)) :
  process_op "intersection" results = process_intersection results.
Proof. destruct results; done. Qed.

Lemma process_op_difference (results : list (list patch)) :
  process_op "difference" results = process_difference results.
Proof. destruct results; done. Qed.

Lemma process_op_union (results : list (list patch)) :
  process_op "union" results = process_union results.
Proof. destruct results; done. Qed.

Lemma intersection_node_fold
    (children : list node) (parts : list (list patch)) :
  Forall2 (fun c p => process_node c = Ret p) children parts →
  process_node (OpNode "intersection" children) = Ret (spec_intersection parts).
Proof.
  intros Hparts. rewrite process_node_op, (eval_children_parts _ _ Hparts).
  change (process_op "intersection" (List.filter nonempty_result parts)
          = Ret (spec_intersection parts)).
  rewrite process_op_intersection. apply process_intersection_fold.
Qed.

(** C4, as amended — An [intersection] node folds the cross product over the
    non-empty child partitions only, in child order: the accumulator starts as
    the first non-empty partition; at each later non-empty partition it
    becomes the list of the non-empty fail-soft intersections of all pairs,
    each coloured [and_color]; an empty child partition is skipped, it does
    not empty the accumulator. *)
Theorem intersection_folds_nonempty_children
    (children : list node) (parts : list (list patch)) :
  Forall2 (fun c p => process_node c = Ret p) children parts →
  process_node (OpNode "intersection" children) = Ret (spec_intersection parts).
Proof.
  intros Hparts. rewrite process_node_op, (eval_children_parts _ _ Hparts).
  change (process_op "intersection" (List.filter nonempty_result parts)
          = Ret (spec_intersection parts)).
  rewrite process_op_intersection. apply process_intersection_fold.
Qed.

End Folds.

(** ** On an exact substrate *)

Section ExactSubstrate.
Context `{S : Shapely} `{CA : ColorAlgebra} {C : Coverage S} {E : Exact S C}.

Lemma wf_empty_iff (g : Geom) :
  wf g → is_empty g = true ↔ ∀ p, ¬ covers g p.
Proof.
  intros Hg. split.
  - intros He p. apply empty_covers, He.
  - intros Hnone. destruct (is_empty g) eqn:He; [done|].
    destruct (nonempty_covers g Hg He) as [p Hp]. destruct (Hnone p Hp).
Qed.

Lemma buffer_repair_exact (g : Geom) :
  wf (buffer_repair g) ∧ same_region (buffer_repair g) g.
Proof.
  unfold buffer_repair.
  destruct (buffer0_exact g) as (r & -> & Hr & Hsame).
  destruct (is_empty r) eqn:He.
  - split; [apply Polygon_empty_wf|]. intros p. split; intros Hp.
    + destruct (empty_covers _ p Polygon_empty_is_empty Hp).
    + apply Hsame in Hp. destruct (empty_covers _ p He Hp).
  - destruct Hr as [Hv Hpoly]. rewrite Hpoly. split; [split; assumption | exact Hsame].
Qed.

Lemma repaired_exact (g : Geom) : wf (repaired g) ∧ same_region (repaired g) g.
Proof.
  unfold repaired. destruct (is_empty g) eqn:He.
  - rewrite (fix_geom_empty g He). simpl. split; [apply Polygon_empty_wf|].
    intros p. split; intros Hp.
    + destruct (empty_covers _ p Polygon_empty_is_empty Hp).
    + destruct (empty_covers _ p He Hp).
  - destruct (is_valid_returns g) as [v Hv].
    destruct (v && polygonal g) eqn:Hvp.
    + apply andb_true_iff in Hvp as [-> Hp].
      rewrite (fix_geom_as_is g He Hv Hp). simpl. split; [split; assumption | done].
    + rewrite (fix_geom_buffer g v He Hv Hvp). simpl. apply buffer_repair_exact.
Qed.

Lemma repaired_wf (g : Geom) : wf g → is_empty g = false → repaired g = g.
Proof.
  intros [Hv Hp] He. unfold repaired. rewrite (fix_geom_as_is g He Hv Hp). done.
Qed.

Lemma region_inter_exact (a b : Geom) :
  wf a → wf b →
  wf (region_inter a b)
  ∧ ∀ p, covers (region_inter a b) p ↔ covers a p ∧ covers b p.
Proof.
  intros Ha Hb. unfold region_inter, safe_intersection.
  destruct (is_empty a) eqn:Hea; simpl.
  { split; [apply Polygon_empty_wf|]. intros p. split.
    - intros Hp. destruct (empty_covers _ p Polygon_empty_is_empty Hp).
    - intros [Hp _]. destruct (empty_covers _ p Hea Hp). }
  destruct (is_empty b) eqn:Heb; simpl.
  { split; [apply Polygon_empty_wf|]. intros p. split.
    - intros Hp. destruct (empty_covers _ p Polygon_empty_is_empty Hp).
    - intros [_ Hp]. destruct (empty_covers _ p Heb Hp). }
  destruct (intersection_exact a b Ha Hb) as (r & -> & Hr). simpl.
  rewrite fix_geom_repaired. simpl.
  destruct (repaired_exact r) as [Hwf Hsame]. split; [exact Hwf|].
  intros p. rewrite (Hsame p). apply Hr.
Qed.

Lemma region_diff_exact (a b : Geom) :
  wf a → wf b →
  wf (region_diff a b)
  ∧ ∀ p, covers (region_diff a b) p ↔ covers a p ∧ ¬ covers b p.
Proof.
  intros Ha Hb. unfold region_diff, safe_difference.
  destruct (is_empty a) eqn:Hea; simpl.
  { split; [apply Polygon_empty_wf|]. intros p. split.
    - intros Hp. destruct (empty_covers _ p Polygon_empty_is_empty Hp).
    - intros [Hp _]. destruct (empty_covers _ p Hea Hp). }
  destruct (is_empty b) eqn:Heb; simpl.
  { split; [exact Ha|]. intros p. split; [|tauto].
    intros Hp. split; [exact Hp | apply empty_covers, Heb]. }
  destruct (difference_exact a b Ha Hb) as (r & -> & Hr). simpl.
  rewrite fix_geom_repaired. simpl.
  destruct (repaired_exact r) as [Hwf Hsame]. split; [exact Hwf|].
  intros p. rewrite (Hsame p). apply Hr.
Qed.

Lemma no_overlap_disjoint (a b : Geom) :
  wf a → wf b → no_overlap a b ↔ disjoint a b.
Proof.
  intros Ha Hb. destruct (region_inter_exact a b Ha Hb) as [Hwf Hcov].
  unfold no_overlap, disjoint. rewrite (wf_empty_iff _ Hwf).
  split; intros Hd p Hp; apply (Hd p); apply Hcov; exact Hp.
Qed.

End ExactSubstrate.

Section PartitionInvariant.
Context `{S : Shapely} `{CA : ColorAlgebra} {C : Coverage S} {E : Exact S C}.

Lemma disjoint_sym (a b : Geom) : disjoint a b → disjoint b a.
Proof. intros Hd p [Hb Ha]. apply (Hd p). split; assumption. Qed.

Lemma disjoint_within (r a x b : Geom) :
  within r a → within x b → disjoint a b → disjoint r x.
Proof. intros Hr Hx Hd p [Hp Hq]. apply (Hd p). split; [apply Hr, Hp | apply Hx, Hq]. Qed.

Lemma within_refl (a : Geom) : within a a.
Proof. intros p Hp. exact Hp. Qed.

Lemma empty_disjoint (a s : Geom) : is_empty s = true → disjoint a s.
Proof. intros Hs p [_ Hp]. destruct (empty_covers s p Hs Hp). Qed.

Lemma pairwise_app {A} (R : A → A → Prop) (xs ys : list A) :
  pairwise R (xs ++ ys)
  ↔ pairwise R xs ∧ pairwise R ys ∧ Forall (fun x => Forall (R x) ys) xs.
Proof.
  induction xs as [|x xs IH]; simpl.
  - split; [intros Hys; repeat split; [exact Hys | constructor] | tauto].
  - rewrite Forall_app, IH, Forall_cons. tauto.
Qed.

Lemma regions_app (ps qs : list patch) : regions (ps ++ qs) = regions ps ++ regions qs.
Proof. unfold regions. apply map_app. Qed.

Lemma partition_snoc (next : list patch) (r : Geom) (c : Color) :
  partition next → wf r → is_empty r = false →
  Forall (fun x => disjoint x r) (regions next) →
  partition (next ++ [(r, c)]).
Proof.
  intros [Hreg Hpair] Hwf He Hd. unfold partition. rewrite regions_app. simpl. split.
  - apply Forall_app. split; [exact Hreg|]. constructor; [split; assumption | constructor].
  - apply pairwise_app. split; [exact Hpair|]. split; [simpl; split; [constructor | exact I]|].
    eapply Forall_impl; [exact Hd|]. intros x Hx. constructor; [exact Hx | constructor].
Qed.

Lemma partition_nil : partition [].
Proof. split; constructor. Qed.

Lemma partition_tail (p : patch) (ps : list patch) : partition (p :: ps) → partition ps.
Proof.
  intros [Hreg [_ Hpair]]. split; [|exact Hpair]. inversion Hreg; assumption.
Qed.

Lemma Forall_regions_snoc (P : Geom → Prop) (next : list patch) (r : Geom) (c : Color) :
  Forall P (regions next) → P r → Forall P (regions (next ++ [(r, c)])).
Proof.
  intros Hn Hr. rewrite regions_app. apply Forall_app. split; [exact Hn|].
  constructor; [exact Hr | constructor].
Qed.

(** The loop of the shatter step keeps a partition: the pieces produced so
    far are pairwise disjoint, disjoint from what is left of the incoming
    shape, and disjoint from the existing pieces not yet visited. *)
Lemma shatter_loop_partition (new_color : Color) (mode : string)
    (existing next : list patch) (s : Geom) :
  wf s → partition existing → partition next →
  Forall (fun r => disjoint r s) (regions next) →
  Forall (fun r => Forall (disjoint r) (regions existing)) (regions next) →
  returns (for_each existing (shatter_step new_color mode) (next, s))
    (fun st => wf st.2 ∧ partition st.1
               ∧ Forall (fun r => disjoint r st.2) (regions st.1)).
Proof.
  revert next s. induction existing as [|[a ca] rest IH]; intros next s Hs Hex Hnext Hns Hne.
  { simpl. auto. }
  pose proof Hex as [Hreg [Harest Hprest]]. simpl in Hreg, Harest.
  apply Forall_cons in Hreg as [[Hwa Hea] Hregrest].
  assert (Forall (fun r => disjoint r a) (regions next)) as Hna.
  { eapply Forall_impl; [exact Hne|]. intros r Hr. simpl in Hr.
    apply Forall_cons in Hr as [Hr _]. exact Hr. }
  assert (Forall (fun r => Forall (disjoint r) (regions rest)) (regions next)) as Hnrest.
  { eapply Forall_impl; [exact Hne|]. intros r Hr. simpl in Hr.
    apply Forall_cons in Hr as [_ Hr]. exact Hr. }
  assert (disjoint a s →
    returns (for_each rest (shatter_step new_color mode) (next ++ [(a, ca)], s))
      (fun st => wf st.2 ∧ partition st.1
                 ∧ Forall (fun r => disjoint r st.2) (regions st.1))) as Hkeep.
  { intros Has. apply IH.
    - exact Hs.
    - eapply partition_tail, Hex.
    - apply partition_snoc; assumption.
    - apply Forall_regions_snoc; assumption.
    - apply Forall_regions_snoc; assumption. }
  cbn [for_each]. unfold shatter_step at 2.
  destruct (is_empty s) eqn:Hes.
  { simpl. apply Hkeep, empty_disjoint, Hes. }
  rewrite safe_intersection_region. simpl.
  destruct (region_inter_exact a s Hwa Hs) as [Hwi Hci].
  destruct (is_empty (region_inter a s)) eqn:Hei.
  { simpl. apply Hkeep. apply no_overlap_disjoint; assumption. }
  rewrite !safe_difference_region. simpl.
  destruct (region_diff_exact a s Hwa Hs) as [Hwd Hcd].
  destruct (region_diff_exact s a Hs Hwa) as [Hws Hcs].
  assert (within (region_inter a s) a) as Hia by (intros p Hp; apply Hci in Hp; tauto).
  assert (within (region_diff a s) a) as Hda by (intros p Hp; apply Hcd in Hp; tauto).
  assert (within (region_diff s a) s) as Hss by (intros p Hp; apply Hcs in Hp; tauto).
  assert (disjoint (region_diff a s) (region_inter a s)) as Hdi.
  { intros p [Hp Hq]. apply Hcd in Hp. apply Hci in Hq. tauto. }
  assert (disjoint (region_inter a s) (region_diff s a)) as His.
  { intros p [Hp Hq]. apply Hci in Hp. apply Hcs in Hq. tauto. }
  assert (disjoint (region_diff a s) (region_diff s a)) as Hds.
  { intros p [Hp Hq]. apply Hcd in Hp. apply Hcs in Hq. tauto. }
  assert (∀ x, within x a → Forall (fun r => disjoint r x) (regions next)) as Hnx.
  { intros x Hx. eapply Forall_impl; [exact Hna|]. intros r Hr.
    eapply disjoint_within; [apply within_refl | exact Hx | exact Hr]. }
  assert (∀ x, within x a → Forall (disjoint x) (regions rest)) as Hxrest.
  { intros x Hx. eapply Forall_impl; [exact Harest|]. intros r Hr.
    eapply disjoint_within; [exact Hx | apply within_refl | exact Hr]. }
  assert (Forall (fun r => disjoint r (region_diff s a)) (regions next)) as Hns'.
  { eapply Forall_impl; [exact Hns|]. intros r Hr.
    eapply disjoint_within; [apply within_refl | exact Hss | exact Hr]. }
  destruct (is_empty (region_diff a s)) eqn:Hed; simpl; apply IH.
  - exact Hws.
  - eapply partition_tail, Hex.
  - apply partition_snoc; auto.
  - apply Forall_regions_snoc; assumption.
  - apply Forall_regions_snoc; auto.
  - exact Hws.
  - eapply partition_tail, Hex.
  - apply partition_snoc; [apply partition_snoc; auto | exact Hwi | exact Hei |].
    apply Forall_regions_snoc; auto.
  - apply Forall_regions_snoc; [apply Forall_regions_snoc; assumption | exact His].
  - apply Forall_regions_snoc; [apply Forall_regions_snoc; auto | auto].
Qed.

Lemma shatter_partition (existing : list patch) (g : Geom) (c : Color) (mode : string) :
  partition existing →
  returns (_shatter_and_blend_with_color_alg existing g c mode) partition.
Proof.
  intros Hex. unfold _shatter_and_blend_with_color_alg.
  rewrite fix_geom_repaired. simpl.
  destruct (is_empty (repaired g)) eqn:He; [exact Hex|].
  destruct (repaired_exact g) as [Hwf _].
  eapply returns_bind.
  - apply (shatter_loop_partition c mode existing [] (repaired g));
      [exact Hwf | exact Hex | apply partition_nil | constructor | constructor].
  - intros [next s] (Hs & Hnext & Hns). simpl in *.
    destruct (is_empty s) eqn:Hes; simpl; [exact Hnext|].
    apply partition_snoc; assumption.
Qed.

End PartitionInvariant.

Section PartitionBranches.
Context `{S : Shapely} `{CA : ColorAlgebra} {C : Coverage S} {E : Exact S C}.

Lemma flat_map_within {X} (Q : X → Geom → Prop) (f : X → list patch) (xs : list X) :
  (∀ x, x ∈ xs → Forall (Q x) (regions (f x))) →
  Forall (fun r => ∃ x, x ∈ xs ∧ Q x r) (regions (flat_map f xs)).
Proof.
  induction xs as [|x xs IH]; intros Hf; simpl; [constructor|].
  rewrite regions_app. apply Forall_app. split.
  - eapply Forall_impl; [apply Hf; left|]. intros r Hr. exists x. split; [left | exact Hr].
  - eapply Forall_impl; [apply IH; intros y Hy; apply Hf; right; exact Hy|].
    intros r (y & Hy & Hr). exists y. split; [right; exact Hy | exact Hr].
Qed.

(** Pieces cut out of pairwise disjoint footprints, each list of pieces a
    partition inside its footprint, form a partition. *)
Lemma flat_map_partition {X} (fp : X → Geom) (f : X → list patch) (xs : list X) :
  pairwise disjoint (List.map fp xs) →
  (∀ x, x ∈ xs → partition (f x) ∧ Forall (fun r => within r (fp x)) (regions (f x))) →
  partition (flat_map f xs).
Proof.
  induction xs as [|x xs IH]; intros Hfp Hf; simpl; [apply partition_nil|].
  destruct Hfp as [Hx Hfp].
  destruct (Hf x) as [[Hreg Hpair] Hin]; [left|].
  destruct IH as [Hregs Hpairs]; [exact Hfp | intros y Hy; apply Hf; right; exact Hy|].
  unfold partition. rewrite regions_app. split.
  - apply Forall_app. split; assumption.
  - apply pairwise_app. split; [exact Hpair|]. split; [exact Hpairs|].
    eapply Forall_impl; [exact Hin|]. intros u Hu.
    eapply Forall_impl.
    + apply (flat_map_within (fun y r => y ∈ xs ∧ within r (fp y)) f xs).
      intros y Hy. eapply Forall_impl; [apply Hf; right; exact Hy|].
      intros r Hr. split; [exact Hy | exact Hr].
    + intros v (y & _ & Hy & Hv). cbv beta in *.
      eapply disjoint_within; [exact Hu | exact Hv|].
      rewrite Forall_forall in Hx. apply Hx.
      apply list_elem_of_fmap. exists y. split; [reflexivity | exact Hy].
Qed.

Lemma partition_regions_wf (ps : list patch) (p : patch) :
  partition ps → p ∈ ps → wf p.1 ∧ is_empty p.1 = false.
Proof.
  intros [Hreg _] Hp. unfold regions in Hreg. rewrite Forall_forall in Hreg.
  apply Hreg. apply list_elem_of_fmap. exists p. split; [reflexivity | exact Hp].
Qed.

Lemma cross_partition (acc part : list patch) :
  partition acc → partition part → partition (cross acc part).
Proof.
  intros Hacc Hpart. unfold cross.
  apply (flat_map_partition fst); [apply Hacc|].
  intros a Ha. destruct (partition_regions_wf acc a Hacc Ha) as [Hwa _].
  assert (∀ b, b ∈ part →
     partition (let inter := region_inter a.1 b.1 in
                if is_empty inter then [] else [(inter, and_color a.2 b.2)])
     ∧ Forall (fun r => within r a.1 ∧ within r b.1)
         (regions (let inter := region_inter a.1 b.1 in
                   if is_empty inter then [] else [(inter, and_color a.2 b.2)])))
    as Hpiece.
  { intros b Hb. destruct (partition_regions_wf part b Hpart Hb) as [Hwb _].
    destruct (region_inter_exact a.1 b.1 Hwa Hwb) as [Hwi Hci]. cbv zeta.
    destruct (is_empty (region_inter a.1 b.1)) eqn:Hei.
    - split; [apply partition_nil | constructor].
    - split.
      + apply (partition_snoc []); [apply partition_nil | exact Hwi | exact Hei | constructor].
      + constructor; [|constructor]. simpl.
        split; intros p Hp; apply Hci in Hp; tauto. }
  split.
  - apply (flat_map_partition fst); [apply Hpart|].
    intros b Hb. destruct (Hpiece b Hb) as [Hp Hw]. split; [exact Hp|].
    eapply Forall_impl; [exact Hw|]. intros r [_ Hr]. exact Hr.
  - eapply Forall_impl.
    + apply (flat_map_within (fun (b : patch) r => within r a.1)).
      intros b Hb. destruct (Hpiece b Hb) as [_ Hw].
      eapply Forall_impl; [exact Hw|]. intros r [Hr _]. exact Hr.
    + intros r (_ & _ & Hr). exact Hr.
Qed.

Lemma fold_cross_partition (results : list (list patch)) :
  Forall partition results → partition (fold_cross results).
Proof.
  intros Hres. destruct results as [|first rest]; [apply partition_nil|].
  apply Forall_cons in Hres as [Hfirst Hrest]. simpl.
  revert first Hfirst. induction Hrest as [|part rest Hpart _ IH]; intros first Hfirst.
  - exact Hfirst.
  - simpl. apply IH, cross_partition; assumption.
Qed.

Lemma subtract_partition (current : list patch) (t : Geom) :
  partition current → wf t →
  partition (flat_map (fun a : patch =>
               let diff := region_diff a.1 t in
               if is_empty diff then [] else [(diff, a.2)]) current).
Proof.
  intros Hcur Ht. apply (flat_map_partition fst); [apply Hcur|].
  intros a Ha. destruct (partition_regions_wf current a Hcur Ha) as [Hwa _].
  destruct (region_diff_exact a.1 t Hwa Ht) as [Hwd Hcd]. cbv zeta.
  destruct (is_empty (region_diff a.1 t)) eqn:Hed.
  - split; [apply partition_nil | constructor].
  - split.
    + apply (partition_snoc []); [apply partition_nil | exact Hwd | exact Hed | constructor].
    + constructor; [|constructor]. intros p Hp. apply Hcd in Hp. tauto.
Qed.

(** The subtraction loop of the [difference] branch as a list function. *)
Lemma difference_loop (current : list patch) (t : Geom) :
  for_each current
    (fun final_shapes '(geom_a, col_a) =>
       diff ← safe_difference geom_a t;
       Ret (if negb (is_empty diff)
            then final_shapes ++ [(diff, col_a)]
            else final_shapes))
    []
  = Ret (flat_map (fun a : patch =>
           let diff := region_diff a.1 t in
           if is_empty diff then [] else [(diff, a.2)]) current).
Proof.
  rewrite (for_each_collect (fun a : patch =>
           let diff := region_diff a.1 t in
           if is_empty diff then [] else [(diff, a.2)])); [done|].
  intros final [a ca]. rewrite safe_difference_region. simpl.
  destruct (is_empty (region_diff a t)); simpl; [rewrite app_nil_r|]; done.
Qed.

Lemma process_difference_partition (results : list (list patch)) :
  Forall partition results → returns (process_difference results) partition.
Proof.
  intros Hres. destruct results as [|first rest]; [apply partition_nil|].
  apply Forall_cons in Hres as [Hfirst Hrest]. unfold process_difference.
  destruct (List.filter _ _) as [|s subs]; [exact Hfirst|].
  destruct (unary_union (s :: subs)) as [u|x]; simpl; [|exact Hfirst].
  rewrite fix_geom_repaired. simpl.
  destruct (is_empty (repaired u)); [exact Hfirst|].
  rewrite difference_loop. simpl.
  apply subtract_partition; [exact Hfirst | apply repaired_exact].
Qed.

Lemma process_union_partition (results : list (list patch)) :
  Forall partition results → returns (process_union results) partition.
Proof.
  intros Hres. destruct results as [|first rest]; [apply partition_nil|].
  apply Forall_cons in Hres as [Hfirst Hrest]. simpl.
  apply for_each_invariant; [exact Hfirst|].
  intros current next_child_list _ Hcur.
  apply for_each_invariant; [exact Hcur|].
  intros cur [g c] _ Hc. apply shatter_partition, Hc.
Qed.

Lemma process_op_partition (op : string) (results : list (list patch)) :
  Forall partition results → returns (process_op op results) partition.
Proof.
  intros Hres. unfold process_op. destruct results as [|first rest]; [apply partition_nil|].
  destruct (String.eqb op "union"); [apply process_union_partition, Hres|].
  destruct (String.eqb op "intersection").
  { rewrite process_intersection_fold. apply fold_cross_partition, Hres. }
  destruct (String.eqb op "difference"); [apply process_difference_partition, Hres|].
  apply partition_nil.
Qed.

Lemma gene_to_shapely_wf (gene : PrimitiveGene) (g : Geom) :
  gene_to_shapely gene = Ret g → wf g.
Proof.
  unfold gene_to_shapely.
  destruct (if String.eqb (kind gene) "disk" then _ else _) as [[r|base]|x] eqn:Hb;
    simpl; [| |discriminate].
  { intros Hr. injection Hr as <-.
    destruct (String.eqb (kind gene) "disk"); [discriminate|].
    destruct (String.eqb (kind gene) "square"); [discriminate|].
    destruct (String.eqb (kind gene) "polygon"); [|discriminate].
    destruct (Polygon_of (polygon_vertices gene)); simpl in Hb; [discriminate|].
    injection Hb as <-. apply Polygon_empty_wf. }
  rewrite fix_geom_repaired. simpl.
  destruct (scale _ _ _) as [g1|]; simpl;
    [|injection 1 as <-; apply Polygon_empty_wf].
  destruct (rotate _ _) as [g2|]; simpl;
    [|injection 1 as <-; apply Polygon_empty_wf].
  destruct (translate _ _ _) as [g3|]; simpl;
    [|injection 1 as <-; apply Polygon_empty_wf].
  rewrite fix_geom_repaired. injection 1 as <-. apply repaired_exact.
Qed.

Lemma eval_children_partition (cs : list node) :
  Forall (fun c => returns (process_node c) partition) cs →
  returns (eval_children cs) (Forall partition).
Proof.
  induction 1 as [|c cs Hc _ IH]; simpl; [constructor|].
  eapply returns_bind; [exact Hc|]. intros res Hres.
  eapply returns_bind; [exact IH|]. intros later Hlater.
  apply append_if_nonempty_Forall; assumption.
Qed.

Lemma process_node_partition (n : node) :
  known_kinds n → returns (process_node n) partition.
Proof.
  induction n as [gene|op cs IH] using node_induction; intros Hk.
  - simpl in *. destruct (gene_to_shapely_returns gene Hk) as [g Hg]. rewrite Hg. simpl.
    destruct (is_empty g) eqn:He; simpl; [apply partition_nil|].
    apply (partition_snoc []);
      [apply partition_nil | eapply gene_to_shapely_wf, Hg | exact He | constructor].
  - rewrite process_node_op. apply (known_kinds_children op cs) in Hk.
    eapply returns_bind.
    + apply eval_children_partition.
      rewrite Forall_forall in *. intros c Hc. apply IH; [exact Hc | apply Hk, Hc].
    + intros results Hres. apply process_op_partition, Hres.
Qed.

End PartitionBranches.

Section PartitionTheorem.
Context `{S : Shapely} `{CA : ColorAlgebra} {C : Coverage S} {E : Exact S C}.

Lemma pairwise_impl_on {A} (P : A → Prop) (R R' : A → A → Prop) (xs : list A) :
  (∀ x y, P x → P y → R x y → R' x y) →
  Forall P xs → pairwise R xs → pairwise R' xs.
Proof.
  intros HR. induction xs as [|x xs IH]; intros HP Hpair; simpl; [exact I|].
  apply Forall_cons in HP as [Hx HP]. destruct Hpair as [Hxs Hpair].
  split; [|apply IH; assumption].
  rewrite Forall_forall in *. intros y Hy. apply HR; auto.
Qed.

Lemma partition_no_overlap (pieces : list patch) :
  partition pieces → pairwise no_overlap (regions pieces).
Proof.
  intros [Hreg Hpair].
  eapply (pairwise_impl_on (fun r => wf r ∧ is_empty r = false)); [|exact Hreg|exact Hpair].
  intros x y [Hx _] [Hy _] Hd. apply no_overlap_disjoint; assumption.
Qed.

(** C1 — On an exact substrate, the evaluation of every genome of known
    primitive kinds returns a true partition: any two regions at distinct
    positions of the output share no point, and their fail-soft intersection is
    empty.  A leaf gives a partition, and the shatter-and-blend step, the
    cross product of the intersection fold and the difference branch each
    take partitions to a partition. *)
Theorem process_node_is_partition :
  (∀ n : node, known_kinds n →
     ∃ pieces, process_node n = Ret pieces
       ∧ pairwise disjoint (regions pieces)
       ∧ pairwise no_overlap (regions pieces))
  ∧ (∀ (existing : list patch) (new_geom : Geom) (new_color : Color),
       partition existing →
       returns (_shatter_and_blend_with_color_alg existing new_geom new_color "or")
               partition)
  ∧ (∀ acc part : list patch,
       partition acc → partition part → partition (cross acc part))
  ∧ (∀ results : list (list patch),
       Forall partition results → returns (process_difference results) partition).
Proof.
  split; [|split; [|split]].
  - intros n Hk. pose proof (process_node_partition n Hk) as Hp.
    apply returns_spec in Hp as (pieces & Heq & Hpart).
    exists pieces. split; [exact Heq|]. split; [apply Hpart|].
    apply partition_no_overlap, Hpart.
  - intros existing g c Hex. apply shatter_partition, Hex.
  - apply cross_partition.
  - apply process_difference_partition.
Qed.

End PartitionTheorem.

(** ** The grid is an exact substrate *)

Lemma grid_wf_inv (g : Grid.shape) :
  @wf Grid.exact g → ∃ c, g = Grid.Poly true c.
Proof.
  intros [Hv Hp]. destruct g as [v c|c|c|ms]; simpl in *; try discriminate.
  injection Hv as ->. eauto.
Qed.

Lemma grid_wf_poly (c : gset Grid.cell) : @wf Grid.exact (Grid.Poly true c).
Proof. split; reflexivity. Qed.

Lemma grid_exact : Exact Grid.exact (grid_coverage (fun _ => false)).
Proof.
  split.
  - intros g. eexists. reflexivity.
  - intros g p. simpl. unfold grid_covers.
    destruct g as [v c|c|c|ms]; simpl.
    + intros Hc%bool_decide_eq_true. subst. set_solver.
    + set_solver.
    + set_solver.
    + intros Hms Hp. apply elem_of_union_list in Hp as (X & HX & Hp).
      apply list_elem_of_fmap in HX as ([b c] & -> & Hm).
      rewrite forallb_forall in Hms.
      apply list_elem_of_In in Hm. specialize (Hms _ Hm).
      apply bool_decide_eq_true in Hms. simpl in *. destruct b; set_solver.
  - intros g Hg He. apply grid_wf_inv in Hg as [c ->]. simpl in *.
    apply bool_decide_eq_false in He. apply set_choose_L in He as [p Hp].
    exists p. exact Hp.
  - apply grid_wf_poly.
  - reflexivity.
  - intros g. eexists. split; [reflexivity|]. split; [apply grid_wf_poly | done].
  - intros a b Ha Hb. apply grid_wf_inv in Ha as [ca ->]. apply grid_wf_inv in Hb as [cb ->].
    eexists. split.
    + simpl. unfold Grid.overlay, Grid.meets_glitch. simpl.
      rewrite bool_decide_eq_false_2; [reflexivity|].
      intros (x & _ & Hx). discriminate.
    + intros p. simpl. unfold grid_covers. simpl. set_solver.
  - intros a b Ha Hb. apply grid_wf_inv in Ha as [ca ->]. apply grid_wf_inv in Hb as [cb ->].
    eexists. split.
    + simpl. unfold Grid.overlay, Grid.meets_glitch. simpl.
      rewrite bool_decide_eq_false_2; [reflexivity|].
      intros (x & _ & Hx). discriminate.
    + intros p. simpl. unfold grid_covers. simpl. set_solver.
  - intros gs Hgs. eexists. split; [|split; [apply grid_wf_poly|]].
    + simpl. unfold Grid.shape_union.
      replace (forallb Grid.shape_is_valid gs) with true; [reflexivity|].
      symmetry. apply forallb_forall. intros g Hg%list_elem_of_In.
      rewrite Forall_forall in Hgs. apply Hgs in Hg. apply grid_wf_inv in Hg as [c ->].
      reflexivity.
    + intros p. simpl. unfold grid_covers. simpl. rewrite elem_of_union_list. split.
      * intros (X & HX & Hp). apply list_elem_of_fmap in HX as (g & -> & Hg). eauto.
      * intros (g & Hg & Hp). exists (Grid.area g). split; [|exact Hp].
        apply list_elem_of_fmap. eauto.
Qed.

(** ** The shatter step against its specification *)

Section ShatterSpecification.
Context `{S : Shapely} `{CA : ColorAlgebra} {C : Coverage S} {E : Exact S C}.

Lemma same_region_refl (a : Geom) : same_region a a.
Proof. intros p. reflexivity. Qed.

Lemma same_region_empty (x y : Geom) :
  wf x → wf y → same_region x y → is_empty x = is_empty y.
Proof.
  intros Hx Hy Hxy.
  destruct (is_empty x) eqn:Hex, (is_empty y) eqn:Hey; try reflexivity.
  - destruct (nonempty_covers y Hy Hey) as [p Hp].
    apply Hxy in Hp. destruct (empty_covers x p Hex Hp).
  - destruct (nonempty_covers x Hx Hex) as [p Hp].
    apply Hxy in Hp. destruct (empty_covers y p Hey Hp).
Qed.

Lemma same_pieces_refl (ps : list patch) : same_pieces ps ps.
Proof. apply Forall2_same_length_lookup_2; [done|]. intros i x y Hx Hy.
  rewrite Hx in Hy. injection Hy as ->. split; [apply same_region_refl | done]. Qed.

(** The loop of the code and the loop of the specification, run side by side
    on incoming shapes that cover the same points. *)
Lemma shatter_loop_spec (color_b : Color) (P next : list patch) (s t : Geom) :
  Forall wf (regions P) → wf s → wf t → same_region s t →
  returns (for_each P (shatter_step color_b "or") (next, s))
    (fun st => ∃ out,
       st.1 = next ++ out
       ∧ same_pieces out (spec_shatter_loop P t color_b).1
       ∧ wf st.2 ∧ wf (spec_shatter_loop P t color_b).2
       ∧ same_region st.2 (spec_shatter_loop P t color_b).2).
Proof.
  revert next s t. induction P as [|[a ca] P IH]; intros next s t HP Hs Ht Hst.
  { simpl. exists []. rewrite app_nil_r. split; [done|]. split; [constructor|].
    split; [exact Hs|]. split; [exact Ht | exact Hst]. }
  simpl in HP. apply Forall_cons in HP as [Ha HP].
  destruct (region_inter_exact a s Ha Hs) as [Hwic Hcic].
  destruct (region_inter_exact a t Ha Ht) as [Hwis Hcis].
  assert (same_region (region_inter a s) (region_inter a t)) as Hii.
  { intros p. rewrite Hcic, Hcis, (Hst p). reflexivity. }
  pose proof (same_region_empty _ _ Hwic Hwis Hii) as Hei.
  assert (∀ st' : list patch * Geom,
    (∃ out, st'.1 = (next ++ [(a, ca)]) ++ out
       ∧ same_pieces out (spec_shatter_loop P t color_b).1
       ∧ wf st'.2 ∧ wf (spec_shatter_loop P t color_b).2
       ∧ same_region st'.2 (spec_shatter_loop P t color_b).2) →
    is_empty (region_inter a t) = true →
    ∃ out, st'.1 = next ++ out
       ∧ same_pieces out (spec_shatter_loop ((a, ca) :: P) t color_b).1
       ∧ wf st'.2 ∧ wf (spec_shatter_loop ((a, ca) :: P) t color_b).2
       ∧ same_region st'.2 (spec_shatter_loop ((a, ca) :: P) t color_b).2) as Hkeep.
  { intros st' (out & Hout & Hsame & Hw1 & Hw2 & Hreg) Het.
    cbn [spec_shatter_loop]. rewrite Het.
    destruct (spec_shatter_loop P t color_b) as [pieces rem]. simpl in *.
    exists ((a, ca) :: out). rewrite Hout, <- app_assoc.
    split; [done|]. split; [|auto].
    constructor; [split; [apply same_region_refl | done] | exact Hsame]. }
  cbn [for_each]. unfold shatter_step at 2.
  destruct (is_empty s) eqn:Hes.
  { simpl. eapply returns_mono; [apply (IH (next ++ [(a, ca)]) s t); assumption|].
    intros st' Hst'. apply Hkeep; [exact Hst'|].
    apply (wf_empty_iff _ Hwis). intros p Hp. apply Hcis in Hp as [_ Hp].
    apply Hst in Hp. destruct (empty_covers s p Hes Hp). }
  rewrite safe_intersection_region. simpl.
  destruct (is_empty (region_inter a s)) eqn:Heic.
  { simpl. eapply returns_mono; [apply (IH (next ++ [(a, ca)]) s t); assumption|].
    intros st' Hst'. apply Hkeep; [exact Hst' | congruence]. }
  rewrite !safe_difference_region. simpl.
  destruct (region_diff_exact a s Ha Hs) as [Hwdc Hcdc].
  destruct (region_diff_exact a (region_inter a t) Ha Hwis) as [Hwds Hcds].
  destruct (region_diff_exact s a Hs Ha) as [Hwsc Hcsc].
  destruct (region_diff_exact t a Ht Ha) as [Hwss Hcss].
  assert (same_region (region_diff a s) (region_diff a (region_inter a t))) as Hdd.
  { intros p. rewrite Hcdc, Hcds, Hcis, (Hst p). tauto. }
  assert (same_region (region_diff s a) (region_diff t a)) as Hss.
  { intros p. rewrite Hcsc, Hcss, (Hst p). reflexivity. }
  pose proof (same_region_empty _ _ Hwdc Hwds Hdd) as Hed.
  assert (∀ (new : list patch) (st' : list patch * Geom),
    same_pieces new
      ((if is_empty (region_diff a (region_inter a t)) then []
        else [(region_diff a (region_inter a t), ca)])
       ++ [(region_inter a t, or_color ca color_b)]) →
    (∃ out, st'.1 = (next ++ new) ++ out
       ∧ same_pieces out (spec_shatter_loop P (region_diff t a) color_b).1
       ∧ wf st'.2 ∧ wf (spec_shatter_loop P (region_diff t a) color_b).2
       ∧ same_region st'.2 (spec_shatter_loop P (region_diff t a) color_b).2) →
    ∃ out, st'.1 = next ++ out
       ∧ same_pieces out (spec_shatter_loop ((a, ca) :: P) t color_b).1
       ∧ wf st'.2 ∧ wf (spec_shatter_loop ((a, ca) :: P) t color_b).2
       ∧ same_region st'.2 (spec_shatter_loop ((a, ca) :: P) t color_b).2) as Hcut.
  { intros new st' Hnew (out & Hout & Hsame & Hw1 & Hw2 & Hreg).
    cbn [spec_shatter_loop]. rewrite <- Hei.
    destruct (spec_shatter_loop P (region_diff t a) color_b) as [pieces rem]. simpl in *.
    exists (new ++ out). rewrite Hout, <- app_assoc.
    split; [done|]. split; [|auto].
    rewrite (cons_middle _ _ pieces), app_assoc.
    apply Forall2_app; assumption. }
  destruct (is_empty (region_diff a s)) eqn:Hedc; simpl.
  - eapply returns_mono;
      [apply (IH (next ++ [(region_inter a s, or_color ca color_b)])
                 (region_diff s a) (region_diff t a)); assumption|].
    intros st'. apply Hcut. rewrite <- Hed. simpl.
    constructor; [split; [exact Hii | done] | constructor].
  - eapply returns_mono;
      [apply (IH ((next ++ [(region_diff a s, ca)])
                    ++ [(region_inter a s, or_color ca color_b)])
                 (region_diff s a) (region_diff t a)); assumption|].
    intros st'. rewrite <- (app_assoc next). apply Hcut. rewrite <- Hed. simpl.
    constructor; [split; [exact Hdd | done]|].
    constructor; [split; [exact Hii | done] | constructor].
Qed.

Lemma process_union_fold (first : list patch) (rest : list (list patch)) :
  process_union (first :: rest)
  = for_each (List.concat rest)
      (fun P '(region_b, color_b) =>
         _shatter_and_blend_with_color_alg P region_b color_b "or")
      first.
Proof.
  simpl. revert first. induction rest as [|part rest IH]; intros first; [done|].
  cbn [for_each List.concat]. rewrite for_each_app.
  destruct (for_each part _ first) as [acc|x]; simpl; [apply IH | done].
Qed.

(** C2 — On an exact substrate, the union fold step is the shatter-and-blend
    step of the specification: for pieces [P] with valid polygonal regions and
    a valid polygonal incoming region, the code returns, piece by piece and in
    the same order, the same point sets with the same colours as the
    specification's step (existing piece kept when the overlap is empty;
    otherwise the piece minus the overlap, if non-empty, with its colour, the
    overlap with [or_color], and the incoming region shrunk by the piece; the
    non-empty remainder appended last with its own colour).  The [union]
    branch applies that step, with the accumulator starting at the first
    non-empty child partition, to every piece of every later one in order. *)
Theorem shatter_follows_specification :
  (∀ (P : list patch) (region_b : Geom) (color_b : Color),
     Forall wf (regions P) → wf region_b →
     ∃ pieces,
       _shatter_and_blend_with_color_alg P region_b color_b "or" = Ret pieces
       ∧ same_pieces pieces (spec_shatter P region_b color_b))
  ∧ (∀ (first : list patch) (rest : list (list patch)),
       process_union (first :: rest)
       = for_each (List.concat rest)
           (fun P '(region_b, color_b) =>
              _shatter_and_blend_with_color_alg P region_b color_b "or")
           first).
Proof.
  split; [|exact process_union_fold].
  intros P region_b color_b HP Hb. apply returns_spec.
  unfold _shatter_and_blend_with_color_alg, spec_shatter.
  rewrite fix_geom_repaired. simpl.
  destruct (repaired_exact region_b) as [Hwr Hsr].
  pose proof (shatter_loop_spec color_b P [] (repaired region_b) region_b HP Hwr Hb Hsr)
    as Hloop.
  destruct (is_empty (repaired region_b)) eqn:Her.
  - simpl.
    assert (is_empty region_b = true) as Heb
      by (rewrite <- (same_region_empty _ _ Hwr Hb Hsr); exact Her).
    clear Hloop. revert HP. induction P as [|[a ca] P IH]; intros HP.
    + simpl. rewrite Heb. constructor.
    + simpl in HP. apply Forall_cons in HP as [Ha HP]. cbn [spec_shatter_loop].
      destruct (region_inter_exact a region_b Ha Hb) as [Hwi Hci].
      assert (is_empty (region_inter a region_b) = true) as ->.
      { apply (wf_empty_iff _ Hwi). intros p Hp. apply Hci in Hp as [_ Hp].
        destruct (empty_covers region_b p Heb Hp). }
      specialize (IH HP).
      destruct (spec_shatter_loop P region_b color_b) as [pieces rem]. simpl in *.
      constructor; [split; [apply same_region_refl | done] | exact IH].
  - eapply returns_bind; [exact Hloop|].
    intros [next s] (out & Hout & Hsame & Hw1 & Hw2 & Hreg). simpl in *. subst next.
    destruct (spec_shatter_loop P region_b color_b) as [pieces rem]. simpl in *.
    rewrite <- (same_region_empty _ _ Hw1 Hw2 Hreg).
    destruct (is_empty s); simpl.
    + rewrite app_nil_r. exact Hsame.
    + apply Forall2_app; [exact Hsame|].
      constructor; [split; [exact Hreg | done] | constructor].
Qed.

End ShatterSpecification.

(** ** The difference branch against its specification *)

Section DifferenceSpecification.
Context `{S : Shapely} `{CA : ColorAlgebra} {C : Coverage S} {E : Exact S C}.

Lemma filter_all {A} (f : A → bool) (xs : list A) :
  Forall (fun x => f x = true) xs → List.filter f xs = xs.
Proof.
  induction 1 as [|x xs Hx _ IH]; simpl; [done|]. rewrite Hx, IH. done.
Qed.

Lemma partition_regions_concat (rest : list (list patch)) :
  Forall partition rest →
  Forall (fun r => wf r ∧ is_empty r = false) (List.map fst (List.concat rest)).
Proof.
  induction 1 as [|part rest [Hreg _] _ IH]; simpl; [constructor|].
  rewrite map_app. apply Forall_app. split; [exact Hreg | exact IH].
Qed.

Lemma flat_map_singletons {A} (f : A → list A) (xs : list A) :
  Forall (fun x => f x = [x]) xs → flat_map f xs = xs.
Proof.
  induction 1 as [|x xs Hx _ IH]; simpl; [done|]. rewrite Hx, IH. done.
Qed.

Lemma subtract_nothing (first : list patch) (u : Geom) :
  partition first → is_empty u = true →
  flat_map (fun a : patch =>
     let diff := region_diff a.1 u in
     if is_empty diff then [] else [(diff, a.2)]) first = first.
Proof.
  intros [Hreg _] Hu. apply flat_map_singletons.
  unfold regions in Hreg. rewrite Forall_fmap in Hreg.
  eapply Forall_impl; [exact Hreg|]. intros [a ca] [_ Hea]. simpl in *.
  unfold region_diff. rewrite (safe_difference_empty_right a u Hea Hu). simpl.
  rewrite Hea. done.
Qed.

Lemma process_difference_spec (results : list (list patch)) :
  Forall partition results →
  process_difference results = Ret (claim_difference results).
Proof.
  intros Hres. destruct results as [|first rest]; [done|].
  apply Forall_cons in Hres as [Hfirst Hrest].
  unfold process_difference, claim_difference, subtract_all.
  pose proof (partition_regions_concat rest Hrest) as Hregs.
  rewrite filter_all;
    [|eapply Forall_impl; [exact Hregs|]; intros r [_ ->]; done].
  destruct (unary_union_exact (List.map fst (List.concat rest))) as (u & Hu & Hwu & Hcu).
  { eapply Forall_impl; [exact Hregs|]. intros r [Hr _]. exact Hr. }
  rewrite Hu. cbn [region_of].
  destruct (List.map fst (List.concat rest)) as [|s subs] eqn:Hsubs.
  - apply (f_equal Ret). symmetry. apply subtract_nothing; [exact Hfirst|].
    apply (wf_empty_iff _ Hwu). intros p Hp. apply Hcu in Hp as (g & Hg & _).
    inversion Hg.
  - simpl. rewrite fix_geom_repaired. simpl.
    assert (is_empty u = false) as Heu.
    { apply Forall_cons in Hregs as [[Hws Hes] _].
      destruct (nonempty_covers s Hws Hes) as [p Hp].
      destruct (is_empty u) eqn:Heu; [|done].
      destruct (empty_covers u p Heu). apply Hcu. exists s. split; [left | exact Hp]. }
    rewrite (repaired_wf u Hwu Heu), Heu. apply difference_loop.
Qed.

(** C3, as amended — On an exact substrate, a [difference] node takes the
    first non-empty child partition as the minuend and subtracts from each of
    its pieces the plain geometric union of all regions of the later non-empty
    child partitions; pieces whose difference is empty are dropped and the
    colours of the surviving pieces are unchanged.  A child that evaluates to
    nothing is skipped, also when it is the first child. *)
Theorem difference_subtracts_from_first_nonempty
    (children : list node) (parts : list (list patch)) :
  Forall2 (fun c p => process_node c = Ret p) children parts →
  process_node (OpNode "difference" children) = Ret (spec_difference parts).
Proof.
  intros Hparts. rewrite process_node_op, (eval_children_parts _ _ Hparts).
  change (process_op "difference" (List.filter nonempty_result parts)
          = Ret (spec_difference parts)).
  rewrite process_op_difference. unfold spec_difference.
  apply process_difference_spec.
  apply Forall_forall. intros part Hpart.
  apply list_elem_of_In, filter_In in Hpart as [Hpart _].
  apply list_elem_of_In in Hpart.
  apply Forall2_flip in Hparts.
  apply list_elem_of_lookup in Hpart as [i Hi].
  destruct (Forall2_lookup_l _ _ _ i part Hparts Hi) as (c & _ & Hc).
  pose proof (process_node_partition c (process_node_known c part Hc)) as Hp.
  rewrite Hc in Hp. exact Hp.
Qed.

End DifferenceSpecification.

(** ** Conversion of a primitive gene *)

Section Conversion.
Context `{Shapely} `{ColorAlgebra}.

Lemma gene_to_shapely_unit_shape (gene : PrimitiveGene) :
  gene_to_shapely gene =
  b ← unit_shape gene;
  match b with
  | Return r => Ret r
  | Next base =>
    match transformed (repaired base) (transform gene) with
    | Ret geom => Ret (repaired geom)
    | Raise _ => Ret Polygon_empty
    end
  end.
Proof.
  unfold gene_to_shapely, unit_shape, transformed.
  destruct (if String.eqb (kind gene) "disk" then _ else _) as [[r|base]|x]; simpl; try done.
  rewrite fix_geom_repaired. simpl.
  destruct (scale _ _ _) as [g1|]; simpl; [|done].
  destruct (rotate _ _) as [g2|]; simpl; [|done].
  destruct (translate _ _ _) as [g3|]; simpl; [|done].
  apply fix_geom_repaired.
Qed.

(** The conversion as the code runs it: the unit shape is repaired, the three
    transforms run in one guarded block, and the result is repaired; a
    failure of a transform, or of building the polygon ring, yields the empty
    region. *)
Lemma gene_to_shapely_guarded_block (gene : PrimitiveGene) :
  (∀ base geom,
     unit_shape gene = Ret (Next base) →
     transformed (repaired base) (transform gene) = Ret geom →
     gene_to_shapely gene = fix_geom (Some geom))
  ∧ (∀ base,
       unit_shape gene = Ret (Next base) →
       fails (transformed (repaired base) (transform gene)) →
       gene_to_shapely gene = Ret Polygon_empty)
  ∧ (kind gene = "polygon" → fails (Polygon_of (polygon_vertices gene)) →
       gene_to_shapely gene = Ret Polygon_empty).
Proof.
  rewrite gene_to_shapely_unit_shape. split; [|split].
  - intros base geom -> Hg. simpl. rewrite Hg, fix_geom_repaired. done.
  - intros base -> [x Hx]. simpl. rewrite Hx. done.
  - intros Hk [x Hx]. unfold unit_shape. rewrite Hk, Hx. done.
Qed.

End Conversion.

(** ** Evolving the population *)

Section Evolve.
Context {Genome Rng Image : Type} (mutate : Genome → Rng → Genome * Rng).

Lemma pop_state_evolve_invalid (ps : @Backend.PopulationStateManager Genome Rng)
    (selected_indices : gset Z) :
  ¬ Backend.valid_selection (Backend.population ps) selected_indices →
  Backend.pop_state_evolve mutate ps selected_indices = (ps, Raise InvalidSelection).
Proof.
  intros Hinv. unfold Backend.pop_state_evolve.
  rewrite bool_decide_eq_false_2; [reflexivity | exact Hinv].
Qed.

Lemma pop_state_evolve_valid (ps : @Backend.PopulationStateManager Genome Rng)
    (selected_indices : gset Z) :
  Backend.valid_selection (Backend.population ps) selected_indices →
  ∃ ps' offspring,
    Backend.pop_state_evolve mutate ps selected_indices = (ps', Ret offspring).
Proof.
  intros Hval. unfold Backend.pop_state_evolve.
  rewrite bool_decide_eq_true_2; [|exact Hval].
  destruct (Backend.breed _ _ _ _ _) as [offspring r]. eauto.
Qed.

(** C6 — [evolve] with an empty selection, or with an index outside
    [0 ≤ i < len(population)], fails with [InvalidSelection] and leaves the
    population and the generation counter as they were; with a valid selection
    it returns and the generation counter is one more than before. *)
Theorem evolve_checks_selection
    (self : @Backend.BackendAdapter Genome Rng Image) (selected_indices : gset Z) :
  ((selected_indices = ∅
    ∨ ∃ i, i ∈ selected_indices
           ∧ ¬ (0 ≤ i < Z.of_nat (length (Backend.population (Backend.pop_state self))))%Z) →
   (Backend.evolve mutate self selected_indices).2 = Raise InvalidSelection
   ∧ Backend.population (Backend.pop_state (Backend.evolve mutate self selected_indices).1)
     = Backend.population (Backend.pop_state self)
   ∧ Backend.generation (Backend.evolve mutate self selected_indices).1
     = Backend.generation self)
  ∧ (selected_indices ≠ ∅ →
     (∀ i, i ∈ selected_indices →
        (0 ≤ i < Z.of_nat (length (Backend.population (Backend.pop_state self))))%Z) →
     (∃ result, (Backend.evolve mutate self selected_indices).2 = Ret result)
     ∧ Backend.generation (Backend.evolve mutate self selected_indices).1
       = (Backend.generation self + 1)%Z).
Proof.
  unfold Backend.evolve. split.
  - intros Hinv. rewrite pop_state_evolve_invalid; [done|].
    intros [Hne Hall]. destruct Hinv as [->|(i & Hi & Hout)]; [done|].
    apply Hout, Hall, Hi.
  - intros Hne Hall.
    destruct (pop_state_evolve_valid (Backend.pop_state self) selected_indices)
      as (ps' & offspring & ->); [split; assumption|].
    simpl. eauto.
Qed.

End Evolve.

(** * Runs on the grid *)

Local Open Scope Z_scope.

Example union_of_two_disks :
  Grid.evaluate (Grid.op_node "union" [Grid.red_disk; Grid.green_disk])
  = Ret [ (Grid.Poly true {[ (0, -1); (-1, 0); (0, 1) ]}, (255, 0, 0));
          (Grid.Poly true {[ (0, 0); (1, 0) ]}, (127, 127, 0));
          (Grid.Poly true {[ (1, -1); (2, 0); (1, 1) ]}, (0, 255, 0)) ].
Proof. vm_compute. reflexivity. Qed.

Example difference_dropout :
  Grid.evaluate (Grid.op_node "difference" [Grid.blue_square; Grid.red_disk]) = Ret [].
Proof. vm_compute. reflexivity. Qed.

Example degenerate_is_empty : Grid.evaluate Grid.degenerate = Ret [].
Proof. vm_compute. reflexivity. Qed.

Example unknown_kind_raises :
  Grid.evaluate (Grid.leaf "blob" (Grid.tf 1 1 0 0 0) (0, 0, 0) None)
  = Raise (ValueError "Unknown kind blob").
Proof. vm_compute. reflexivity. Qed.

Lemma process_node_is_partition_witness :
  ∃ pieces,
    Grid.evaluate (Grid.op_node "union" [Grid.red_disk; Grid.green_disk]) = Ret pieces
    ∧ pairwise (@disjoint Grid.exact (grid_coverage _))
               (@regions Grid.exact Grid.colors pieces)
    ∧ pairwise (@no_overlap Grid.exact) (@regions Grid.exact Grid.colors pieces).
Proof.
  apply (proj1 (@process_node_is_partition Grid.exact Grid.colors _ grid_exact)).
  simpl. unfold known_kind. simpl. tauto.
Defined.

Lemma shatter_follows_specification_witness :
  ∃ pieces,
    @_shatter_and_blend_with_color_alg Grid.exact Grid.colors
      [(Grid.Poly true {[ (0, 0); (1, 0); (-1, 0); (0, 1); (0, -1) ]}, (255, 0, 0))]
      (Grid.Poly true {[ (1, 0); (2, 0); (0, 0); (1, 1); (1, -1) ]}) (0, 255, 0) "or"
    = Ret pieces
    ∧ @same_pieces Grid.exact Grid.colors (grid_coverage _) pieces
        (@spec_shatter Grid.exact Grid.colors
           [(Grid.Poly true {[ (0, 0); (1, 0); (-1, 0); (0, 1); (0, -1) ]}, (255, 0, 0))]
           (Grid.Poly true {[ (1, 0); (2, 0); (0, 0); (1, 1); (1, -1) ]}) (0, 255, 0)).
Proof.
  apply (proj1 (@shatter_follows_specification Grid.exact Grid.colors _ grid_exact)).
  - constructor; [apply grid_wf_poly | constructor].
  - apply grid_wf_poly.
Defined.

Lemma difference_subtracts_from_first_nonempty_witness :
  Grid.evaluate
    (Grid.op_node "difference" [Grid.degenerate; Grid.red_disk; Grid.green_disk])
  = Ret (@spec_difference Grid.exact Grid.colors
           [ [];
             [(Grid.Poly true {[ (0, 0); (1, 0); (-1, 0); (0, 1); (0, -1) ]}, (255, 0, 0))];
             [(Grid.Poly true {[ (1, 0); (2, 0); (0, 0); (1, 1); (1, -1) ]}, (0, 255, 0))] ]).
Proof.
  apply (@difference_subtracts_from_first_nonempty Grid.exact Grid.colors _ grid_exact).
  repeat constructor; vm_compute; reflexivity.
Defined.

(** C3, as stated, fails: the first child of this [difference] node evaluates
    to nothing, so the claim's minuend has no piece and its result is empty,
    while the code takes the square, the first non-empty child, as minuend. *)
Lemma difference_minuend_not_first_child :
  Forall2 (fun c p => Grid.evaluate c = Ret p)
    [Grid.degenerate; Grid.blue_square]
    [ []; [(Grid.Poly true {[ (0, 0) ]}, (0, 0, 255))] ]
  ∧ @claim_difference Grid.exact Grid.colors
      [ []; [(Grid.Poly true {[ (0, 0) ]}, (0, 0, 255))] ] = []
  ∧ Grid.evaluate (Grid.op_node "difference" [Grid.degenerate; Grid.blue_square])
    = Ret [(Grid.Poly true {[ (0, 0) ]}, (0, 0, 255))]
  ∧ Grid.evaluate (Grid.op_node "difference" [Grid.degenerate; Grid.blue_square])
    ≠ Ret (@claim_difference Grid.exact Grid.colors
             [ []; [(Grid.Poly true {[ (0, 0) ]}, (0, 0, 255))] ]).
Proof.
  split; [repeat constructor; vm_compute; reflexivity|].
  split; [reflexivity|].
  split; [vm_compute; reflexivity|].
  intros Heq. vm_compute in Heq. discriminate Heq.
Qed.

Lemma intersection_folds_nonempty_children_witness :
  Grid.evaluate
    (Grid.op_node "intersection" [Grid.red_disk; Grid.degenerate; Grid.green_disk])
  = Ret (@spec_intersection Grid.exact Grid.colors
           [ [(Grid.Poly true {[ (0, 0); (1, 0); (-1, 0); (0, 1); (0, -1) ]}, (255, 0, 0))];
             [];
             [(Grid.Poly true {[ (1, 0); (2, 0); (0, 0); (1, 1); (1, -1) ]}, (0, 255, 0))] ]).
Proof.
  apply (@intersection_folds_nonempty_children Grid.exact Grid.colors).
  repeat constructor; vm_compute; reflexivity.
Defined.

(** C4, as stated, fails: the second child of this [intersection] node
    evaluates to nothing, so the cross product with its partition is empty,
    while the code skips that child and returns the square. *)
Lemma intersection_skips_empty_child :
  Forall2 (fun c p => Grid.evaluate c = Ret p)
    [Grid.blue_square; Grid.degenerate]
    [ [(Grid.Poly true {[ (0, 0) ]}, (0, 0, 255))]; [] ]
  ∧ @claim_intersection Grid.exact Grid.colors
      [ [(Grid.Poly true {[ (0, 0) ]}, (0, 0, 255))]; [] ] = []
  ∧ Grid.evaluate (Grid.op_node "intersection" [Grid.blue_square; Grid.degenerate])
    = Ret [(Grid.Poly true {[ (0, 0) ]}, (0, 0, 255))]
  ∧ Grid.evaluate (Grid.op_node "intersection" [Grid.blue_square; Grid.degenerate])
    ≠ Ret (@claim_intersection Grid.exact Grid.colors
             [ [(Grid.Poly true {[ (0, 0) ]}, (0, 0, 255))]; [] ]).
Proof.
  split; [repeat constructor; vm_compute; reflexivity|].
  split; [reflexivity|].
  split; [vm_compute; reflexivity|].
  intros Heq. vm_compute in Heq. discriminate Heq.
Qed.

Lemma safe_operations_fail_soft_witness :
  @safe_intersection Grid.glitchy (Grid.Poly true {[ (0, 0); (1, 0) ]})
                                  (Grid.Poly true {[ (0, 0); (0, 1) ]})
  = Ret (Grid.Poly true ∅)
  ∧ @safe_difference Grid.glitchy (Grid.Poly true {[ (0, 0); (1, 0) ]})
                                  (Grid.Poly true {[ (0, 0); (0, 1) ]})
    = Ret (Grid.Poly true {[ (0, 0); (1, 0) ]})
  ∧ ∃ pieces,
      Grid.evaluate (Grid.op_node "union" [Grid.red_disk; Grid.degenerate]) = Ret pieces.
Proof.
  split; [|split].
  - apply (proj1 (proj2 (proj2 (@safe_operations_fail_soft Grid.glitchy Grid.colors)))).
    + exists GEOSException. vm_compute. reflexivity.
    + exists GEOSException. vm_compute. reflexivity.
  - apply (proj1 (proj2 (proj2 (proj2
             (@safe_operations_fail_soft Grid.glitchy Grid.colors))))).
    + vm_compute. reflexivity.
    + exists GEOSException. vm_compute. reflexivity.
    + exists GEOSException. vm_compute. reflexivity.
  - apply (proj2 (proj2 (proj2 (proj2
             (@safe_operations_fail_soft Grid.exact Grid.colors))))).
    simpl. unfold known_kind. simpl. tauto.
Defined.

Lemma evolve_checks_selection_witness :
  ((Backend.evolve Backend.toy_mutate Backend.toy_adapter {[ 7 ]}).2
   = Raise InvalidSelection
   ∧ Backend.population
       (Backend.pop_state (Backend.evolve Backend.toy_mutate Backend.toy_adapter {[ 7 ]}).1)
     = [10; 20; 30]%nat
   ∧ Backend.generation (Backend.evolve Backend.toy_mutate Backend.toy_adapter {[ 7 ]}).1
     = 5)
  ∧ ((∃ result,
        (Backend.evolve Backend.toy_mutate Backend.toy_adapter {[ 0; 2 ]}).2 = Ret result)
     ∧ Backend.generation
         (Backend.evolve Backend.toy_mutate Backend.toy_adapter {[ 0; 2 ]}).1 = 6).
Proof.
  split.
  - apply (proj1 (evolve_checks_selection Backend.toy_mutate Backend.toy_adapter {[ 7 ]})).
    right. exists 7. split; [set_solver | simpl; lia].
  - apply (proj2 (evolve_checks_selection Backend.toy_mutate Backend.toy_adapter {[ 0; 2 ]})).
    + set_solver.
    + intros i Hi. simpl. set_unfold. lia.
Defined.

Example evolve_empty_selection :
  Backend.evolve Backend.toy_mutate Backend.toy_adapter ∅
  = ({| Backend.pop_state := Backend.pop_state Backend.toy_adapter;
        Backend.generation := 5;
        Backend._image_cache := {[ (4, 0) := "recent" ]} |},
     Raise InvalidSelection).
Proof. vm_compute. reflexivity. Qed.

Example evolve_valid_selection :
  Backend.evolve Backend.toy_mutate Backend.toy_adapter {[ 0; 2 ]}
  = ({| Backend.pop_state :=
          {| Backend.population := [11; 32; 13]%nat; Backend.rng := 4%nat |};
        Backend.generation := 6;
        Backend._image_cache := {[ (4, 0) := "recent" ]} |},
     Ret [11; 32; 13]%nat).
Proof. vm_compute. reflexivity. Qed.

Lemma fix_geom_total_repair_witness :
  @fix_geom Grid.exact (Some (Grid.Poly true {[ (0, 0) ]}))
  = Ret (Grid.Poly true {[ (0, 0) ]})
  ∧ @fix_geom Grid.exact (Some (Grid.Line ∅)) = Ret (Grid.Poly true ∅)
  ∧ @fix_geom Grid.exact (Some (Grid.Poly false {[ (0, 0) ]}))
    = Ret (@buffer_repair Grid.exact (Grid.Poly false {[ (0, 0) ]}))
  ∧ @fix_geom Grid.exact
      (Some (Grid.Coll [(true, {[ (0, 0) ]}); (false, {[ (5, 5) ]}); (true, {[ (1, 0) ]})]))
    = Ret (@buffer_repair Grid.exact
             (Grid.Coll [(true, {[ (0, 0) ]}); (false, {[ (5, 5) ]}); (true, {[ (1, 0) ]})])).
Proof.
  split; [|split; [|split]].
  - apply (proj1 (proj2 (proj2 (proj2
      (@fix_geom_total_repair Grid.exact (Some (Grid.Poly true {[ (0, 0) ]})))))) _ eq_refl);
      vm_compute; reflexivity.
  - apply (proj1 (proj2 (proj2
      (@fix_geom_total_repair Grid.exact (Some (Grid.Line ∅))))) _ eq_refl);
      vm_compute; reflexivity.
  - apply (proj1 (proj2 (proj2 (proj2 (proj2
      (@fix_geom_total_repair Grid.exact (Some (Grid.Poly false {[ (0, 0) ]}))))))) _ false eq_refl);
      vm_compute; reflexivity.
  - apply (proj1 (proj2 (proj2 (proj2 (proj2
      (@fix_geom_total_repair Grid.exact
         (Some (Grid.Coll [(true, {[ (0, 0) ]}); (false, {[ (5, 5) ]}); (true, {[ (1, 0) ]})]))))))) _ true eq_refl);
      vm_compute; reflexivity.
Defined.

(** C8, as stated, fails on an invalid input: the invalid polygon is not
    turned into the empty region, the buffering repair rebuilds it. *)
Lemma fix_geom_rebuilds_invalid_polygon :
  @is_valid Grid.exact (Grid.Poly false {[ (0, 0) ]}) = Ret false
  ∧ @fix_geom Grid.exact (Some (Grid.Poly false {[ (0, 0) ]}))
    = Ret (Grid.Poly true {[ (0, 0) ]})
  ∧ Grid.shape_is_empty (Grid.Poly true {[ (0, 0) ]}) = false
  ∧ @fix_geom Grid.exact (Some (Grid.Poly false {[ (0, 0) ]}))
    ≠ Ret (@Polygon_empty Grid.exact).
Proof.
  split; [reflexivity|]. split; [vm_compute; reflexivity|].
  split; [vm_compute; reflexivity|].
  intros Heq. vm_compute in Heq. discriminate Heq.
Qed.

Example repair_keeps_area_of_collection :
  @fix_geom Grid.exact
    (Some (Grid.Coll [(true, {[ (0, 0) ]}); (false, {[ (5, 5) ]}); (true, {[ (1, 0) ]})]))
  = Ret (Grid.Poly true {[ (0, 0); (1, 0) ]}).
Proof. vm_compute. reflexivity. Qed.

Lemma process_node_pieces_nonempty_witness :
  Forall (fun p : Grid.shape * Grid.rgb => Grid.shape_is_empty p.1 = false)
    [ (Grid.Poly true {[ (0, -1); (-1, 0); (0, 1) ]}, (255, 0, 0));
      (Grid.Poly true {[ (0, 0); (1, 0) ]}, (127, 127, 0));
      (Grid.Poly true {[ (1, -1); (2, 0); (1, 1) ]}, (0, 255, 0)) ].
Proof.
  apply (proj1 (proj2 (@process_node_pieces_nonempty Grid.exact Grid.colors
                  (Grid.op_node "union" [Grid.red_disk; Grid.green_disk])))).
  vm_compute. reflexivity.
Defined.

Lemma safe_difference_empty_operand_witness :
  @safe_difference Grid.exact (Grid.Poly true {[ (0, 0) ]}) (Grid.Line ∅)
  = Ret (Grid.Poly true {[ (0, 0) ]})
  ∧ @safe_difference Grid.exact (Grid.Line ∅) (Grid.Poly true {[ (0, 0) ]})
    = Ret (Grid.Poly true ∅).
Proof.
  split.
  - apply (proj1 (@safe_difference_empty_operand Grid.exact _ _)); reflexivity.
  - apply (proj2 (@safe_difference_empty_operand Grid.exact _ _)); reflexivity.
Defined.

(** C10, as stated, fails when both operands are empty: [b] is empty, yet the
    empty line string [a] is not returned; the empty polygon is. *)
Lemma safe_difference_of_two_empties :
  Grid.shape_is_empty (Grid.Poly true ∅) = true
  ∧ @safe_difference Grid.exact (Grid.Line ∅) (Grid.Poly true ∅)
    = Ret (Grid.Poly true ∅)
  ∧ @safe_difference Grid.exact (Grid.Line ∅) (Grid.Poly true ∅)
    ≠ Ret (Grid.Line ∅).
Proof.
  split; [reflexivity|]. split; [reflexivity|].
  intros Heq. vm_compute in Heq. discriminate Heq.
Qed.

(** Outside the laws of an exact substrate the fail-soft fallbacks give up the
    partition: where the overlay of the two disks raises, the second disk is
    neither cut out of the first nor shrunk, and both pieces keep the cells
    [(0, 0)] and [(1, 0)]. *)
Example union_where_the_overlay_fails :
  @process_node Grid.glitchy Grid.colors
    (OpNode "union"
       [ PrimitiveNode (@Build_PrimitiveGene Grid.glitchy Grid.colors "disk"
                          (@Build_Transform Grid.glitchy 1 1 0 0 0) (255, 0, 0) None);
         PrimitiveNode (@Build_PrimitiveGene Grid.glitchy Grid.colors "disk"
                          (@Build_Transform Grid.glitchy 1 1 0 1 0) (0, 255, 0) None) ])
  = Ret [ (Grid.Poly true {[ (0, 0); (1, 0); (-1, 0); (0, 1); (0, -1) ]}, (255, 0, 0));
          (Grid.Poly true {[ (1, 0); (2, 0); (0, 0); (1, 1); (1, -1) ]}, (0, 255, 0)) ].
Proof. vm_compute. reflexivity. Qed.

(** * Further properties of the evaluation *)

Section EvaluationErrors.
Context `{Shapely} `{ColorAlgebra}.

Lemma shatter_returns (existing : list patch) (g : Geom) (c : Color) (mode : string) :
  ∃ r, _shatter_and_blend_with_color_alg existing g c mode = Ret r.
Proof.
  unfold _shatter_and_blend_with_color_alg. rewrite fix_geom_repaired. simpl.
  destruct (is_empty (repaired g)); [eauto|].
  assert (returns (for_each existing (shatter_step c mode) ([], repaired g))
                  (fun _ => True)) as Hloop.
  { apply for_each_invariant; [exact I|]. intros [next s] [a ca] _ _. simpl.
    destruct (is_empty s); [exact I|].
    rewrite safe_intersection_region. simpl.
    destruct (is_empty (region_inter a s)); [exact I|].
    rewrite !safe_difference_region. simpl. exact I. }
  apply returns_spec in Hloop as ([next s] & -> & _). simpl. eauto.
Qed.

Lemma process_op_returns (op : string) (results : list (list patch)) :
  ∃ r, process_op op results = Ret r.
Proof.
  assert (returns (process_op op results) (fun _ => True)) as Hr.
  { unfold process_op. destruct results as [|first rest]; [exact I|].
    destruct (String.eqb op "union").
    { simpl. apply for_each_invariant; [exact I|]. intros cur part _ _.
      apply for_each_invariant; [exact I|]. intros cur' [g c] _ _.
      destruct (shatter_returns cur' g c "or") as [r ->]. exact I. }
    destruct (String.eqb op "intersection").
    { rewrite process_intersection_fold. exact I. }
    destruct (String.eqb op "difference"); [|exact I].
    unfold process_difference.
    destruct (List.filter _ _) as [|s subs]; [exact I|].
    destruct (unary_union (s :: subs)) as [u|x]; simpl; [|exact I].
    rewrite fix_geom_repaired. simpl.
    destruct (is_empty (repaired u)); [exact I|].
    apply for_each_invariant; [exact I|]. intros final [a ca] _ _.
    rewrite safe_difference_region. exact I. }
  apply returns_spec in Hr as (r & -> & _). eauto.
Qed.

Lemma gene_to_shapely_raises (gene : PrimitiveGene) (e : exn) :
  gene_to_shapely gene = Raise e → e = ValueError ("Unknown kind " +:+ kind gene).
Proof.
  rewrite gene_to_shapely_unit_shape. unfold unit_shape.
  destruct (String.eqb (kind gene) "disk").
  { simpl. destruct (transformed _ _); discriminate. }
  destruct (String.eqb (kind gene) "square").
  { simpl. destruct (transformed _ _); discriminate. }
  destruct (String.eqb (kind gene) "polygon").
  { destruct (Polygon_of (polygon_vertices gene)); simpl; [|discriminate].
    destruct (transformed _ _); discriminate. }
  simpl. intros Heq. injection Heq as <-. reflexivity.
Qed.

Lemma eval_children_raises (cs : list node) (e : exn) (P : exn → Prop) :
  Forall (fun c => ∀ e, process_node c = Raise e → P e) cs →
  eval_children cs = Raise e → P e.
Proof.
  induction 1 as [|c cs Hc _ IH]; simpl; [discriminate|].
  destruct (process_node c) as [res|x] eqn:Hres; simpl.
  - destruct (eval_children cs) as [later|y]; simpl; [discriminate|].
    intros Heq. injection Heq as <-. apply IH. reflexivity.
  - intros Heq. injection Heq as <-. apply Hc. reflexivity.
Qed.

(** X1 — The only exception evaluation raises is the [ValueError] of a
    primitive of unknown kind, and it raises exactly when the tree holds such a
    primitive, wherever it sits (also under an operator of unknown kind). *)
Theorem process_node_raises_only_unknown_kind (n : node) :
  (¬ known_kinds n ↔ ∃ e, process_node n = Raise e)
  ∧ (∀ e, process_node n = Raise e → ∃ k, e = ValueError ("Unknown kind " +:+ k)).
Proof.
  split.
  - split.
    + intros Hk. destruct (process_node n) as [pieces|e] eqn:Hn; [|eauto].
      destruct Hk. eapply process_node_known, Hn.
    + intros [e He] Hk. destruct (process_node_returns n Hk) as [pieces Hp].
      rewrite Hp in He. discriminate.
  - induction n as [gene|op cs IH] using node_induction; intros e.
    + simpl. destruct (gene_to_shapely gene) as [g|x] eqn:Hg; simpl.
      * destruct (is_empty g); discriminate.
      * intros Heq. injection Heq as <-. eauto using gene_to_shapely_raises.
    + rewrite process_node_op.
      destruct (eval_children cs) as [results|x] eqn:Hres; simpl.
      * destruct (process_op_returns op results) as [r ->]. discriminate.
      * intros Heq. injection Heq as <-.
        exact (eval_children_raises cs x _ IH Hres).
Qed.

(** X2 — An operator with a single child evaluates to what the child
    evaluates to, for each of the three operators: the same pieces, or the
    same exception. *)
Theorem process_node_single_child (op : string) (child : node) :
  op = "union" ∨ op = "intersection" ∨ op = "difference" →
  process_node (OpNode op [child]) = process_node child.
Proof.
  intros Hop. rewrite process_node_op. cbn [eval_children].
  destruct (process_node child) as [[|piece pieces]|e]; simpl; [| |done].
  - done.
  - destruct Hop as [-> | [-> | ->]]; reflexivity.
Qed.

(** X3 — An operator node whose kind is none of the three operators, or
    whose children all evaluate to nothing, evaluates to the empty sequence
    (its children are still evaluated first). *)
Theorem process_node_degenerate_operator
    (op : string) (children : list node) (parts : list (list patch)) :
  Forall2 (fun c p => process_node c = Ret p) children parts →
  (op ≠ "union" ∧ op ≠ "intersection" ∧ op ≠ "difference") ∨ Forall (eq []) parts →
  process_node (OpNode op children) = Ret [].
Proof.
  intros Hparts Hcase. rewrite process_node_op, (eval_children_parts _ _ Hparts). simpl.
  destruct Hcase as [(Hu & Hi & Hd) | Hempty].
  - unfold process_op. destruct (List.filter nonempty_result parts); [done|].
    apply String.eqb_neq in Hu, Hi, Hd. rewrite Hu, Hi, Hd. done.
  - replace (List.filter nonempty_result parts) with (@nil (list patch)); [done|].
    clear Hparts. induction Hempty as [|part parts <- _ IH]; [done|]. simpl. exact IH.
Qed.

End EvaluationErrors.

Section RegionSemantics.
Context `{S : Shapely} `{CA : ColorAlgebra} {C : Coverage S} {E : Exact S C}.

Lemma repaired_cases (g : Geom) :
  repaired g = Polygon_empty ∨ (wf (repaired g) ∧ is_empty (repaired g) = false).
Proof.
  unfold repaired. destruct (is_empty g) eqn:He.
  { rewrite (fix_geom_empty g He). left. done. }
  destruct (is_valid_returns g) as [v Hv].
  destruct (v && polygonal g) eqn:Hvp.
  - apply andb_true_iff in Hvp as [-> Hp].
    rewrite (fix_geom_as_is g He Hv Hp). simpl. right. split; [split|]; assumption.
  - rewrite (fix_geom_buffer g v He Hv Hvp). simpl. unfold buffer_repair.
    destruct (buffer0_exact g) as (r & -> & Hr & _).
    destruct (is_empty r) eqn:Her; [left; done|].
    destruct Hr as [Hrv Hrp]. rewrite Hrp. right. split; [split|]; assumption.
Qed.

(** X4 — On an exact substrate the repair pass is idempotent: repairing an
    already repaired geometry returns it unchanged. *)
Theorem fix_geom_idempotent (x : option Geom) :
  ∃ r, fix_geom x = Ret r ∧ fix_geom (Some r) = Ret r.
Proof.
  destruct x as [g|].
  - exists (repaired g). split; [apply fix_geom_repaired|].
    destruct (repaired_cases g) as [-> | [[Hv Hp] He]].
    + apply fix_geom_empty, Polygon_empty_is_empty.
    + apply fix_geom_as_is; assumption.
  - exists Polygon_empty. split; [done|].
    apply fix_geom_empty, Polygon_empty_is_empty.
Qed.

Lemma covered_nil (p : Pt) : ¬ covered [] p.
Proof. intros (piece & Hin & _). inversion Hin. Qed.

Lemma covered_app (ps qs : list patch) (p : Pt) :
  covered (ps ++ qs) p ↔ covered ps p ∨ covered qs p.
Proof.
  unfold covered. split.
  - intros (piece & Hin & Hp). apply elem_of_app in Hin as [Hin|Hin]; eauto.
  - intros [(piece & Hin & Hp)|(piece & Hin & Hp)]; exists piece;
      (split; [apply elem_of_app; auto | exact Hp]).
Qed.

Lemma covered_one (g : Geom) (c : Color) (p : Pt) : covered [(g, c)] p ↔ covers g p.
Proof.
  unfold covered. split.
  - intros (piece & Hin & Hp). apply list_elem_of_singleton in Hin as ->. exact Hp.
  - intros Hp. exists (g, c). split; [apply list_elem_of_singleton; done | exact Hp].
Qed.

Lemma covered_cons (a : patch) (ps : list patch) (p : Pt) :
  covered (a :: ps) p ↔ covers a.1 p ∨ covered ps p.
Proof.
  destruct a as [g c]. rewrite (covered_app [(g, c)] ps p), covered_one. done.
Qed.

(** The loop of the shatter step neither loses nor adds a point. *)
Lemma shatter_loop_covered (color : Color) (mode : string)
    (existing next : list patch) (s : Geom) :
  (∀ g p, covers g p ∨ ¬ covers g p) →
  wf s → Forall wf (regions existing) →
  returns (for_each existing (shatter_step color mode) (next, s))
    (fun st => wf st.2 ∧ ∀ p, covered st.1 p ∨ covers st.2 p
                              ↔ covered next p ∨ covered existing p ∨ covers s p).
Proof.
  intros Hdec. revert next s.
  induction existing as [|[a ca] rest IH]; intros next s Hs Hex.
  { simpl. split; [exact Hs|]. intros p. pose proof (covered_nil p). tauto. }
  simpl in Hex. apply Forall_cons in Hex as [Ha Hex].
  assert (returns (for_each rest (shatter_step color mode) (next ++ [(a, ca)], s))
    (fun st => wf st.2 ∧ ∀ p, covered st.1 p ∨ covers st.2 p
               ↔ covered next p ∨ covered ((a, ca) :: rest) p ∨ covers s p)) as Hkeep.
  { eapply returns_mono; [apply (IH (next ++ [(a, ca)]) s Hs Hex)|].
    intros st [Hw Hcov]. split; [exact Hw|]. intros p.
    rewrite (Hcov p), covered_app, covered_one, covered_cons. simpl. tauto. }
  cbn [for_each]. unfold shatter_step at 2.
  destruct (is_empty s) eqn:Hes; [exact Hkeep|].
  rewrite safe_intersection_region. simpl.
  destruct (is_empty (region_inter a s)) eqn:Hei; [exact Hkeep|].
  rewrite !safe_difference_region. simpl.
  destruct (region_inter_exact a s Ha Hs) as [Hwi Hci].
  destruct (region_diff_exact a s Ha Hs) as [Hwd Hcd].
  destruct (region_diff_exact s a Hs Ha) as [Hws Hcs].
  destruct (is_empty (region_diff a s)) eqn:Hed; simpl.
  - eapply returns_mono; [apply (IH _ (region_diff s a) Hws Hex)|].
    intros st [Hw Hcov]. split; [exact Hw|]. intros p.
    rewrite (Hcov p), covered_app, covered_one, covered_cons, Hci, Hcs. simpl.
    pose proof (empty_covers _ p Hed) as Hnone. rewrite Hcd in Hnone.
    destruct (Hdec a p), (Hdec s p); tauto.
  - eapply returns_mono; [apply (IH _ (region_diff s a) Hws Hex)|].
    intros st [Hw Hcov]. split; [exact Hw|]. intros p.
    rewrite (Hcov p), !covered_app, !covered_one, covered_cons, Hci, Hcs, Hcd. simpl.
    destruct (Hdec a p), (Hdec s p); tauto.
Qed.

Lemma shatter_covered (existing : list patch) (g : Geom) (c : Color) (mode : string) :
  (∀ g p, covers g p ∨ ¬ covers g p) →
  Forall wf (regions existing) →
  returns (_shatter_and_blend_with_color_alg existing g c mode)
    (fun pieces => ∀ p, covered pieces p ↔ covered existing p ∨ covers g p).
Proof.
  intros Hdec Hex. unfold _shatter_and_blend_with_color_alg.
  rewrite fix_geom_repaired. simpl.
  destruct (repaired_exact g) as [Hwr Hsr].
  destruct (is_empty (repaired g)) eqn:He.
  { simpl. intros p. pose proof (empty_covers _ p He) as Hnone.
    rewrite (Hsr p) in Hnone. tauto. }
  eapply returns_bind; [apply (shatter_loop_covered c mode existing [] _ Hdec Hwr Hex)|].
  intros [next s] [Hw Hcov]. simpl in *. intros p. specialize (Hcov p).
  pose proof (covered_nil p). rewrite (Hsr p) in Hcov.
  destruct (is_empty s) eqn:Hes; simpl.
  - pose proof (empty_covers _ p Hes). tauto.
  - rewrite covered_app, covered_one. tauto.
Qed.

End RegionSemantics.

Section ConversionSteps.
Context `{S : Shapely} `{CA : ColorAlgebra} {C : Coverage S} {E : Exact S C}
        {A : Affine S C}.

Lemma repaired_flat (g : Geom) : flat g → repaired g = Polygon_empty.
Proof.
  intros Hflat. destruct (repaired_cases g) as [Hr|[Hwf Hne]]; [exact Hr|].
  destruct (nonempty_covers _ Hwf Hne) as [p Hp].
  destruct (repaired_exact g) as [_ Hsame]. apply Hsame in Hp.
  destruct (Hflat p Hp).
Qed.

Lemma Polygon_empty_flat : flat Polygon_empty.
Proof. intros p. apply empty_covers, Polygon_empty_is_empty. Qed.


End ConversionSteps.

Lemma grid_flat_area (g : Grid.shape) :
  @flat Grid.exact (grid_coverage (fun _ => false)) g ↔ Grid.area g = ∅.
Proof.
  unfold flat. simpl. unfold grid_covers. split.
  - intros Hflat. apply set_eq. intros p. split; [intros Hp; destruct (Hflat p Hp)|].
    intros Hp. apply elem_of_empty in Hp. done.
  - intros -> p Hp. apply elem_of_empty in Hp. done.
Qed.

Lemma grid_map_cells_flat (f : Grid.cell → Grid.cell) (injective : bool) (g : Grid.shape) :
  Grid.area g = ∅ → Grid.area (Grid.map_cells injective f g) = ∅.
Proof.
  destruct g as [v c|c|c|ms]; simpl.
  - intros ->. destruct injective; simpl; [apply set_map_empty | reflexivity].
  - reflexivity.
  - reflexivity.
  - intros Hms. apply empty_union_list_L. apply Forall_forall. intros X HX.
    apply list_elem_of_fmap in HX as ([b c] & -> & Hm).
    apply list_elem_of_fmap in Hm as ([b' c'] & [= -> ->] & Hm). simpl.
    destruct b'; [|reflexivity].
    apply empty_union_list_L in Hms. rewrite Forall_forall in Hms.
    assert (c' = ∅) as ->; [|apply set_map_empty].
    apply (Hms c'). apply list_elem_of_fmap. exists (true, c'). done.
Qed.

Lemma grid_map_cells_wf (f : Grid.cell → Grid.cell) (c : gset Grid.cell) :
  c ≠ ∅ →
  @wf Grid.exact (Grid.map_cells true f (Grid.Poly true c))
  ∧ Grid.shape_is_empty (Grid.map_cells true f (Grid.Poly true c)) = false.
Proof.
  intros Hc. simpl. split; [apply grid_wf_poly|].
  apply bool_decide_eq_false_2. intros Hempty.
  apply set_choose_L in Hc as [p Hp].
  assert (f p ∈ (set_map f c : gset Grid.cell)) as Hfp by (apply elem_of_map; eauto).
  rewrite Hempty in Hfp. apply elem_of_empty in Hfp. done.
Qed.

Lemma grid_affine : Affine Grid.exact (grid_coverage (fun _ => false)).
Proof.
  split.
  - intros g xfact yfact r Hg [= <-]. apply grid_wf_inv in Hg as [c ->].
    destruct (decide (c = ∅)) as [->|Hc].
    { right. apply grid_flat_area, grid_map_cells_flat. reflexivity. }
    destruct (negb (xfact =? 0) && negb (yfact =? 0)) eqn:Hinj.
    + left. apply (grid_map_cells_wf _ c Hc).
    + right. apply grid_flat_area. reflexivity.
  - intros g theta r Hg He [= <-]. apply grid_wf_inv in Hg as [c ->].
    apply grid_map_cells_wf. simpl in He. apply bool_decide_eq_false in He. exact He.
  - intros g theta r Hg [= <-]. apply grid_flat_area, grid_map_cells_flat, grid_flat_area, Hg.
  - intros g xoff yoff r Hg He [= <-]. apply grid_wf_inv in Hg as [c ->].
    apply grid_map_cells_wf. simpl in He. apply bool_decide_eq_false in He. exact He.
  - intros g xoff yoff r Hg [= <-].
    apply grid_flat_area, grid_map_cells_flat, grid_flat_area, Hg.
Qed.

Section NodeSemantics.
Context `{S : Shapely} `{CA : ColorAlgebra} {C : Coverage S} {E : Exact S C}.

Lemma parts_partition (children : list node) (parts : list (list patch)) :
  Forall2 (fun c p => process_node c = Ret p) children parts →
  Forall partition parts.
Proof.
  induction 1 as [|c part cs ps Hc _ IH]; constructor; [|exact IH].
  pose proof (process_node_partition c (process_node_known c part Hc)) as Hp.
  rewrite Hc in Hp. exact Hp.
Qed.

Lemma partition_regions_all_wf (ps : list patch) :
  partition ps → Forall wf (regions ps).
Proof. intros [Hreg _]. eapply Forall_impl; [exact Hreg|]. intros r [Hr _]. exact Hr. Qed.

Lemma covered_concat (rest : list (list patch)) (p : Pt) :
  covered (List.concat rest) p ↔ ∃ part, part ∈ rest ∧ covered part p.
Proof.
  induction rest as [|part rest IH]; simpl.
  - split; [intros Hc; destruct (covered_nil p Hc) | intros (part & Hin & _); inversion Hin].
  - rewrite covered_app, IH. split.
    + intros [Hp|(q & Hq & Hp)]; [exists part; split; [left | exact Hp]|].
      exists q. split; [right; exact Hq | exact Hp].
    + intros (q & Hq & Hp). apply elem_of_cons in Hq as [->|Hq]; [left; exact Hp|].
      right. exists q. split; assumption.
Qed.

Lemma covered_filter_nonempty (parts : list (list patch)) (p : Pt) :
  (∃ part, part ∈ List.filter nonempty_result parts ∧ covered part p)
  ↔ ∃ part, part ∈ parts ∧ covered part p.
Proof.
  split; intros (part & Hin & Hp); exists part; (split; [|exact Hp]).
  - apply list_elem_of_In, filter_In in Hin as [Hin _]. apply list_elem_of_In, Hin.
  - apply list_elem_of_In, filter_In. split; [apply list_elem_of_In, Hin|].
    destruct part; [destruct (covered_nil p Hp) | reflexivity].
Qed.

Lemma union_fold_covered (incoming acc : list patch) :
  (∀ g p, covers g p ∨ ¬ covers g p) →
  partition acc →
  returns (for_each incoming
             (fun P '(region_b, color_b) =>
                _shatter_and_blend_with_color_alg P region_b color_b "or") acc)
    (fun out => partition out
                ∧ ∀ p, covered out p ↔ covered acc p ∨ covered incoming p).
Proof.
  intros Hdec. revert acc. induction incoming as [|[g c] incoming IH]; intros acc Hacc.
  { simpl. split; [exact Hacc|]. intros p. pose proof (covered_nil p). tauto. }
  cbn [for_each]. eapply returns_bind.
  - apply returns_and; [apply (shatter_partition acc g c "or" Hacc)|].
    apply (shatter_covered acc g c "or" Hdec), partition_regions_all_wf, Hacc.
  - intros mid [Hmid Hcov]. eapply returns_mono; [apply (IH mid Hmid)|].
    intros out [Hout Hcov']. split; [exact Hout|]. intros p.
    rewrite (Hcov' p), (Hcov p), covered_cons. simpl. tauto.
Qed.

(** X5 — On an exact substrate a [union] node covers exactly the points its
    children cover: no point of a child is lost by the shatter-and-blend fold
    and none is added. *)
Theorem union_covers_what_children_cover
    (children : list node) (parts : list (list patch)) :
  (∀ g p, covers g p ∨ ¬ covers g p) →
  Forall2 (fun c p => process_node c = Ret p) children parts →
  ∃ pieces,
    process_node (OpNode "union" children) = Ret pieces
    ∧ ∀ p, covered pieces p ↔ ∃ part, part ∈ parts ∧ covered part p.
Proof.
  intros Hdec Hparts. pose proof (parts_partition _ _ Hparts) as Hpart.
  apply returns_spec.
  rewrite process_node_op, (eval_children_parts _ _ Hparts).
  change (returns (process_op "union" (List.filter nonempty_result parts))
            (fun pieces => ∀ p, covered pieces p ↔ ∃ part, part ∈ parts ∧ covered part p)).
  rewrite process_op_union.
  assert (Forall partition (List.filter nonempty_result parts)) as Hfil.
  { apply Forall_forall. intros part Hin.
    apply list_elem_of_In, filter_In in Hin as [Hin _].
    rewrite Forall_forall in Hpart. apply Hpart, list_elem_of_In, Hin. }
  pose proof (covered_filter_nonempty parts) as Hsame.
  destruct (List.filter nonempty_result parts) as [|first rest].
  - simpl. intros p. rewrite <- Hsame. split.
    + intros Hc. destruct (covered_nil p Hc).
    + intros (part & Hin & _). inversion Hin.
  - apply Forall_cons in Hfil as [Hfirst _]. rewrite process_union_fold.
    eapply returns_mono; [apply (union_fold_covered _ first Hdec Hfirst)|].
    intros out [_ Hcov] p. rewrite (Hcov p), covered_concat, <- Hsame. split.
    + intros [Hp|(q & Hq & Hp)]; [exists first; split; [left | exact Hp]|].
      exists q. split; [right; exact Hq | exact Hp].
    + intros (q & Hq & Hp). apply elem_of_cons in Hq as [->|Hq]; [left; exact Hp|].
      right. exists q. split; assumption.
Qed.

End NodeSemantics.

Section OperatorSemantics.
Context `{S : Shapely} `{CA : ColorAlgebra} {C : Coverage S} {E : Exact S C}.

Lemma cross_covered (acc part : list patch) (p : Pt) :
  Forall wf (regions acc) → Forall wf (regions part) →
  covered (cross acc part) p ↔ covered acc p ∧ covered part p.
Proof.
  intros Hacc Hpart. unfold regions in *. rewrite Forall_fmap, Forall_forall in Hacc, Hpart.
  unfold covered, cross. split.
  - intros (piece & Hin & Hp).
    apply list_elem_of_In, in_flat_map in Hin as (a & Ha & Hin).
    apply in_flat_map in Hin as (b & Hb & Hin).
    apply list_elem_of_In in Ha, Hb. cbv zeta in Hin.
    destruct (region_inter_exact a.1 b.1 (Hacc a Ha) (Hpart b Hb)) as [_ Hci].
    destruct (is_empty (region_inter a.1 b.1)); [destruct Hin|].
    destruct Hin as [<-|[]]. simpl in Hp. apply Hci in Hp as [Hpa Hpb].
    split; [exists a | exists b]; split; assumption.
  - intros [(a & Ha & Hpa) (b & Hb & Hpb)].
    destruct (region_inter_exact a.1 b.1 (Hacc a Ha) (Hpart b Hb)) as [_ Hci].
    assert (covers (region_inter a.1 b.1) p) as Hp by (apply Hci; split; assumption).
    exists (region_inter a.1 b.1, and_color a.2 b.2). split; [|exact Hp].
    apply list_elem_of_In, in_flat_map. exists a. split; [apply list_elem_of_In, Ha|].
    apply in_flat_map. exists b. split; [apply list_elem_of_In, Hb|]. cbv zeta.
    destruct (is_empty (region_inter a.1 b.1)) eqn:Hei; [|left; reflexivity].
    destruct (empty_covers _ p Hei Hp).
Qed.

Lemma fold_cross_covered (first : list patch) (rest : list (list patch)) (p : Pt) :
  partition first → Forall partition rest →
  covered (foldl cross first rest) p
  ↔ covered first p ∧ ∀ part, part ∈ rest → covered part p.
Proof.
  intros Hfirst Hrest. revert first Hfirst.
  induction Hrest as [|part rest Hpart _ IH]; intros first Hfirst; simpl.
  - split; [intros Hc; split; [exact Hc | intros part Hin; inversion Hin] | tauto].
  - rewrite (IH _ (cross_partition _ _ Hfirst Hpart)).
    rewrite (cross_covered first part p (partition_regions_all_wf _ Hfirst)
                           (partition_regions_all_wf _ Hpart)).
    split.
    + intros [[Hf Hp] Hall]. split; [exact Hf|]. intros q Hq.
      apply elem_of_cons in Hq as [->|Hq]; [exact Hp | apply Hall, Hq].
    + intros [Hf Hall]. split; [split; [exact Hf | apply Hall; left]|].
      intros q Hq. apply Hall. right. exact Hq.
Qed.

Lemma filter_parts_partition (children : list node) (parts : list (list patch)) :
  Forall2 (fun c p => process_node c = Ret p) children parts →
  Forall partition (List.filter nonempty_result parts).
Proof.
  intros Hparts. pose proof (parts_partition _ _ Hparts) as Hpart.
  apply Forall_forall. intros part Hin.
  apply list_elem_of_In, filter_In in Hin as [Hin _].
  rewrite Forall_forall in Hpart. apply Hpart, list_elem_of_In, Hin.
Qed.

(** X6 — On an exact substrate an [intersection] node covers exactly the
    points covered by every child that evaluates to something (and nothing
    when no child does); a child that evaluates to nothing does not count. *)
Theorem intersection_covers_common_points
    (children : list node) (parts : list (list patch)) :
  Forall2 (fun c p => process_node c = Ret p) children parts →
  ∃ pieces,
    process_node (OpNode "intersection" children) = Ret pieces
    ∧ ∀ p, covered pieces p
           ↔ List.filter nonempty_result parts ≠ []
             ∧ ∀ part, part ∈ List.filter nonempty_result parts → covered part p.
Proof.
  intros Hparts. exists (spec_intersection parts).
  split; [apply intersection_node_fold|]; [exact Hparts|].
  pose proof (filter_parts_partition _ _ Hparts) as Hfil.
  unfold spec_intersection.
  destruct (List.filter nonempty_result parts) as [|first rest]; intros p.
  - simpl. split; [intros Hc; destruct (covered_nil p Hc) | intros [Hne _]; done].
  - apply Forall_cons in Hfil as [Hfirst Hrest]. simpl.
    rewrite (fold_cross_covered first rest p Hfirst Hrest). split.
    + intros [Hf Hall]. split; [done|]. intros q Hq.
      apply elem_of_cons in Hq as [->|Hq]; [exact Hf | apply Hall, Hq].
    + intros [_ Hall]. split; [apply Hall; left|].
      intros q Hq. apply Hall. right. exact Hq.
Qed.

Lemma subtract_all_covered (first : list patch) (rest : list (list patch)) (p : Pt) :
  partition first → Forall partition rest →
  covered (subtract_all first rest) p
  ↔ covered first p ∧ ¬ ∃ part, part ∈ rest ∧ covered part p.
Proof.
  intros Hfirst Hrest. unfold subtract_all.
  pose proof (partition_regions_concat rest Hrest) as Hregs.
  destruct (unary_union_exact (List.map fst (List.concat rest))) as (u & Hu & Hwu & Hcu).
  { eapply Forall_impl; [exact Hregs|]. intros r [Hr _]. exact Hr. }
  rewrite Hu. cbn [region_of]. cbv zeta.
  assert (covers u p ↔ ∃ part, part ∈ rest ∧ covered part p) as Hsub.
  { rewrite (Hcu p), <- covered_concat. unfold covered. split.
    - intros (g & Hg & Hp). apply list_elem_of_In, in_map_iff in Hg as (piece & <- & Hin).
      exists piece. split; [apply list_elem_of_In, Hin | exact Hp].
    - intros (piece & Hin & Hp). exists piece.1. split; [|exact Hp].
      apply list_elem_of_In, in_map. apply list_elem_of_In, Hin. }
  rewrite <- Hsub. unfold covered. split.
  - intros (piece & Hin & Hp).
    apply list_elem_of_In, in_flat_map in Hin as (a & Ha & Hin).
    apply list_elem_of_In in Ha.
    destruct (partition_regions_wf first a Hfirst Ha) as [Hwa _].
    destruct (region_diff_exact a.1 u Hwa Hwu) as [_ Hcd].
    destruct (is_empty (region_diff a.1 u)); [destruct Hin|].
    destruct Hin as [<-|[]]. simpl in Hp. apply Hcd in Hp as [Hpa Hnu].
    split; [exists a; split; assumption | exact Hnu].
  - intros [(a & Ha & Hpa) Hnu].
    destruct (partition_regions_wf first a Hfirst Ha) as [Hwa _].
    destruct (region_diff_exact a.1 u Hwa Hwu) as [_ Hcd].
    assert (covers (region_diff a.1 u) p) as Hp by (apply Hcd; split; assumption).
    exists (region_diff a.1 u, a.2). split; [|exact Hp].
    apply list_elem_of_In, in_flat_map. exists a. split; [apply list_elem_of_In, Ha|].
    destruct (is_empty (region_diff a.1 u)) eqn:Hed; [|left; reflexivity].
    destruct (empty_covers _ p Hed Hp).
Qed.

(** X7 — On an exact substrate a [difference] node covers exactly the points
    that the first child evaluating to something covers and that no later
    child covers; with no such child it covers nothing. *)
Theorem difference_covers_first_minus_rest
    (children : list node) (parts : list (list patch)) :
  Forall2 (fun c p => process_node c = Ret p) children parts →
  ∃ pieces,
    process_node (OpNode "difference" children) = Ret pieces
    ∧ ∀ p, covered pieces p
           ↔ match List.filter nonempty_result parts with
             | [] => False
             | first :: rest =>
               covered first p ∧ ¬ ∃ part, part ∈ rest ∧ covered part p
             end.
Proof.
  intros Hparts. exists (spec_difference parts).
  pose proof (filter_parts_partition _ _ Hparts) as Hfil. split.
  - rewrite process_node_op, (eval_children_parts _ _ Hparts).
    change (process_op "difference" (List.filter nonempty_result parts)
            = Ret (spec_difference parts)).
    rewrite process_op_difference. apply process_difference_spec, Hfil.
  - unfold spec_difference, claim_difference.
    destruct (List.filter nonempty_result parts) as [|first rest]; intros p.
    + split; [intros Hc; destruct (covered_nil p Hc) | intros []].
    + apply Forall_cons in Hfil as [Hfirst Hrest].
      apply subtract_all_covered; assumption.
Qed.

End OperatorSemantics.

(** * The preview cache *)

Section CacheEviction.
Context {Genome Rng Image : Type} (mutate : Genome → Rng → Genome * Rng).

Lemma foldl_delete_lookup (keys : list (Z * Z)) (cache : gmap (Z * Z) Image) (k : Z * Z) :
  foldl (fun cache key => delete key cache) cache keys !! k
  = if bool_decide (k ∈ keys) then None else cache !! k.
Proof.
  revert cache. induction keys as [|key keys IH]; intros cache; cbn [foldl].
  - rewrite bool_decide_eq_false_2; [reflexivity | apply not_elem_of_nil].
  - rewrite IH. destruct (decide (k = key)) as [->|Hne].
    + rewrite lookup_delete_eq, (bool_decide_eq_true_2 (key ∈ key :: keys)) by left.
      destruct (bool_decide (key ∈ keys)); reflexivity.
    + rewrite lookup_delete_ne by congruence.
      destruct (decide (k ∈ keys)) as [Hin|Hnin].
      * rewrite !bool_decide_eq_true_2; [reflexivity | right; exact Hin | exact Hin].
      * rewrite !bool_decide_eq_false_2; [reflexivity | | exact Hnin].
        intros Hin. apply elem_of_cons in Hin as [?|?]; done.
Qed.

Lemma evict_generation_lookup (cache : gmap (Z * Z) Image) (old_gen : Z) (k : Z * Z) :
  foldl (fun cache key => delete key cache) cache
        (filter (fun k : Z * Z => k.1 = old_gen) (elements (dom cache))) !! k
  = if bool_decide (k.1 = old_gen) then None else cache !! k.
Proof.
  rewrite foldl_delete_lookup.
  destruct (decide (k.1 = old_gen)) as [Heq|Hne].
  - rewrite (bool_decide_eq_true_2 _ Heq).
    destruct (bool_decide _) eqn:Hin; [reflexivity|].
    apply bool_decide_eq_false_1 in Hin.
    destruct (cache !! k) as [img|] eqn:Hk; [|reflexivity].
    destruct Hin. apply list_elem_of_filter. split; [exact Heq|].
    apply elem_of_elements, elem_of_dom. eauto.
  - rewrite (bool_decide_eq_false_2 _ Hne).
    rewrite bool_decide_eq_false_2; [reflexivity|].
    intros Hin. apply list_elem_of_filter in Hin as [Heq _]. done.
Qed.

Lemma evict_generations_lookup (old_gens : list Z) (cache : gmap (Z * Z) Image) (k : Z * Z) :
  foldl (fun cache old_gen =>
           let keys_to_remove :=
             filter (fun k : Z * Z => k.1 = old_gen) (elements (dom cache)) in
           foldl (fun cache key => delete key cache) cache keys_to_remove)
        cache old_gens !! k
  = if bool_decide (k.1 ∈ old_gens) then None else cache !! k.
Proof.
  revert cache. induction old_gens as [|g gs IH]; intros cache; cbn [foldl].
  - rewrite bool_decide_eq_false_2; [reflexivity | apply not_elem_of_nil].
  - rewrite IH, evict_generation_lookup.
    destruct (decide (k.1 = g)) as [Heq|Hne].
    + rewrite (bool_decide_eq_true_2 _ Heq).
      rewrite (bool_decide_eq_true_2 (k.1 ∈ g :: gs)) by (rewrite Heq; left).
      destruct (bool_decide (k.1 ∈ gs)); reflexivity.
    + rewrite (bool_decide_eq_false_2 _ Hne).
      destruct (decide (k.1 ∈ gs)) as [Hin|Hnin].
      * rewrite !bool_decide_eq_true_2; [reflexivity | right; exact Hin | exact Hin].
      * rewrite !bool_decide_eq_false_2; [reflexivity | | exact Hnin].
        intros Hin. apply elem_of_cons in Hin as [?|?]; done.
Qed.

Lemma evict_old_generations_lookup (cache : gmap (Z * Z) Image) (generation : Z) (k : Z * Z) :
  Backend.evict_old_generations cache generation !! k
  = if bool_decide (k.1 < generation - 2) then None else cache !! k.
Proof.
  unfold Backend.evict_old_generations. cbv zeta. rewrite evict_generations_lookup.
  destruct (decide (k.1 < generation - 2)) as [Hold|Hrecent].
  - rewrite (bool_decide_eq_true_2 _ Hold).
    destruct (bool_decide _) eqn:Hin; [reflexivity|].
    apply bool_decide_eq_false_1 in Hin.
    destruct (cache !! k) as [img|] eqn:Hk; [|reflexivity].
    destruct Hin. apply list_elem_of_filter. split; [exact Hold|].
    apply elem_of_elements, elem_of_map. exists k. split; [reflexivity|].
    apply elem_of_dom. eauto.
  - rewrite (bool_decide_eq_false_2 _ Hrecent).
    rewrite bool_decide_eq_false_2; [reflexivity|].
    intros Hin. apply list_elem_of_filter in Hin as [Hold _]. done.
Qed.

(** X8 — Whatever the selection, and also when [evolve] fails, the call
    leaves in the preview cache exactly the entries of the generations from
    [generation - 2] on (the generation counter before the call): every older
    entry is dropped, every other entry is kept with its image. *)
Theorem evolve_keeps_recent_previews
    (self : @Backend.BackendAdapter Genome Rng Image) (selected_indices : gset Z)
    (key : Z * Z) :
  Backend._image_cache (Backend.evolve mutate self selected_indices).1 !! key
  = if bool_decide (key.1 < Backend.generation self - 2) then None
    else Backend._image_cache self !! key.
Proof.
  unfold Backend.evolve. cbv zeta.
  destruct (Backend.pop_state_evolve _ _ _) as [ps [result|e]]; simpl;
    apply evict_old_generations_lookup.
Qed.

End CacheEviction.

Section PreviewRendering.
Context {Genome Rng : Type}.

Lemma collect_results (outcome : nat → Exc Previews.bytes) (use_cache : bool)
    (generation : Z) (results : list (option Previews.bytes))
    (cache : gmap (Z * Z) Previews.bytes) (idx : nat) :
  (Previews.collect outcome use_cache generation (results, cache) idx).1
  = <[idx := Some (Previews.png_or_blank (outcome idx))]> results.
Proof. unfold Previews.collect. destruct (outcome idx); reflexivity. Qed.

Lemma collect_cache (outcome : nat → Exc Previews.bytes) (use_cache : bool)
    (generation : Z) (results : list (option Previews.bytes))
    (cache : gmap (Z * Z) Previews.bytes) (idx : nat) :
  (Previews.collect outcome use_cache generation (results, cache) idx).2
  = match outcome idx with
    | Ret img_bytes =>
      if use_cache then <[(generation, Z.of_nat idx) := img_bytes]> cache else cache
    | Raise _ => cache
    end.
Proof. unfold Previews.collect. destruct (outcome idx); reflexivity. Qed.

Lemma collected_results (outcome : nat → Exc Previews.bytes) (use_cache : bool)
    (generation : Z) (completed : list nat) (results : list (option Previews.bytes))
    (cache : gmap (Z * Z) Previews.bytes) (i : nat) :
  (foldl (Previews.collect outcome use_cache generation) (results, cache) completed).1 !! i
  = if bool_decide (i ∈ completed) then
      match results !! i with
      | Some _ => Some (Some (Previews.png_or_blank (outcome i)))
      | None => None
      end
    else results !! i.
Proof.
  revert results cache. induction completed as [|idx completed IH]; intros results cache.
  - cbn [foldl fst]. rewrite bool_decide_eq_false_2; [reflexivity | apply not_elem_of_nil].
  - cbn [foldl].
    destruct (Previews.collect outcome use_cache generation (results, cache) idx)
      as [results' cache'] eqn:Hstep.
    pose proof (collect_results outcome use_cache generation results cache idx) as Hres.
    rewrite Hstep in Hres. cbn [fst] in Hres. subst results'. rewrite IH.
    destruct (decide (i = idx)) as [->|Hne].
    + rewrite (bool_decide_eq_true_2 (idx ∈ idx :: completed)) by left.
      destruct (results !! idx) as [old|] eqn:Hold.
      * rewrite list_lookup_insert_eq by (eapply lookup_lt_Some; exact Hold).
        destruct (bool_decide (idx ∈ completed)); reflexivity.
      * rewrite list_insert_ge by (apply lookup_ge_None; exact Hold). rewrite Hold.
        destruct (bool_decide (idx ∈ completed)); reflexivity.
    + rewrite list_lookup_insert_ne by congruence.
      destruct (decide (i ∈ completed)) as [Hin|Hnin].
      * rewrite !bool_decide_eq_true_2; [reflexivity | right; exact Hin | exact Hin].
      * rewrite !bool_decide_eq_false_2; [reflexivity | | exact Hnin].
        intros Hin. apply elem_of_cons in Hin as [?|?]; done.
Qed.

Lemma collected_cache (outcome : nat → Exc Previews.bytes) (use_cache : bool)
    (generation : Z) (completed : list nat) (results : list (option Previews.bytes))
    (cache : gmap (Z * Z) Previews.bytes) (key : Z * Z) :
  (foldl (Previews.collect outcome use_cache generation) (results, cache) completed).2 !! key
  = if use_cache && bool_decide (key.1 = generation) && bool_decide (0 ≤ key.2)
       && bool_decide (Z.to_nat key.2 ∈ completed)
    then match outcome (Z.to_nat key.2) with
         | Ret img_bytes => Some img_bytes
         | Raise _ => cache !! key
         end
    else cache !! key.
Proof.
  revert results cache. induction completed as [|idx completed IH]; intros results cache.
  - cbn [foldl snd]. rewrite (bool_decide_eq_false_2 (_ ∈ [])) by apply not_elem_of_nil.
    rewrite andb_false_r. reflexivity.
  - cbn [foldl].
    destruct (Previews.collect outcome use_cache generation (results, cache) idx)
      as [results' cache'] eqn:Hstep.
    pose proof (collect_cache outcome use_cache generation results cache idx) as Hc.
    rewrite Hstep in Hc. cbn [snd] in Hc. rewrite IH. clear IH Hstep.
    destruct key as [g j]. cbn [fst snd].
    destruct use_cache; cbn [andb].
    2:{ destruct (outcome idx); subst cache'; reflexivity. }
    destruct (decide (g = generation)) as [->|Hg].
    2:{ rewrite !(bool_decide_eq_false_2 _ Hg). cbn [andb].
        destruct (outcome idx); subst cache'; [|reflexivity].
        rewrite lookup_insert_ne; [reflexivity | congruence]. }
    rewrite !(bool_decide_eq_true_2 (generation = generation)) by reflexivity. cbn [andb].
    destruct (decide (0 ≤ j)) as [Hj|Hj].
    2:{ rewrite !(bool_decide_eq_false_2 _ Hj). cbn [andb].
        destruct (outcome idx); subst cache'; [|reflexivity].
        rewrite lookup_insert_ne; [reflexivity|]. intros [=]. lia. }
    rewrite !(bool_decide_eq_true_2 _ Hj). cbn [andb].
    destruct (decide (Z.to_nat j = idx)) as [Heq|Hne].
    + rewrite (bool_decide_eq_true_2 (Z.to_nat j ∈ idx :: completed)) by (rewrite Heq; left).
      assert (j = Z.of_nat idx) as -> by lia. rewrite Nat2Z.id.
      destruct (outcome idx) as [img|e]; subst cache'.
      * rewrite lookup_insert_eq. destruct (bool_decide (idx ∈ completed)); reflexivity.
      * destruct (bool_decide (idx ∈ completed)); reflexivity.
    + assert (cache' !! (generation, j) = cache !! (generation, j)) as ->.
      { destruct (outcome idx); subst cache'; [|reflexivity].
        rewrite lookup_insert_ne; [reflexivity|]. intros [=]. lia. }
      destruct (decide (Z.to_nat j ∈ completed)) as [Hin|Hnin].
      * rewrite !bool_decide_eq_true_2; [reflexivity | right; exact Hin | exact Hin].
      * rewrite !bool_decide_eq_false_2; [reflexivity | | exact Hnin].
        intros Hin. apply elem_of_cons in Hin as [?|?]; done.
Qed.

Lemma collected_length (outcome : nat → Exc Previews.bytes) (use_cache : bool)
    (generation : Z) (completed : list nat) (results : list (option Previews.bytes))
    (cache : gmap (Z * Z) Previews.bytes) :
  length (foldl (Previews.collect outcome use_cache generation) (results, cache) completed).1
  = length results.
Proof.
  revert results cache. induction completed as [|idx completed IH]; intros results cache.
  - reflexivity.
  - cbn [foldl].
    destruct (Previews.collect outcome use_cache generation (results, cache) idx)
      as [results' cache'] eqn:Hstep.
    pose proof (collect_results outcome use_cache generation results cache idx) as Hres.
    rewrite Hstep in Hres. cbn [fst] in Hres. subst results'.
    rewrite IH. apply length_insert.
Qed.

Lemma cached_results_lookup (self : @Backend.BackendAdapter Genome Rng Previews.bytes)
    (idx : nat) :
  (idx < length (Backend.population (Backend.pop_state self)))%nat →
  Previews.cached_results self !! idx
  = Some (Backend._image_cache self !! (Backend.generation self, Z.of_nat idx)).
Proof.
  intros Hlt. unfold Previews.cached_results. rewrite list_lookup_imap.
  destruct (lookup_lt_is_Some_2 _ _ Hlt) as [genome ->]. reflexivity.
Qed.

Lemma cached_results_miss (self : @Backend.BackendAdapter Genome Rng Previews.bytes)
    (idx : nat) :
  (idx < length (Backend.population (Backend.pop_state self)))%nat →
  Backend._image_cache self !! (Backend.generation self, Z.of_nat idx) = None →
  forallb Previews.is_not_None (Previews.cached_results self) = false.
Proof.
  intros Hlt Hmiss. apply not_true_is_false. intros Hall.
  rewrite forallb_forall in Hall.
  assert (Previews.is_not_None (A := Previews.bytes) None = true) as Hcontra; [|done].
  apply Hall. apply list_elem_of_In, list_elem_of_lookup. exists idx.
  rewrite (cached_results_lookup self idx Hlt), Hmiss. reflexivity.
Qed.

Lemma rendered_afresh (outcome : nat → Exc Previews.bytes) (completed : list nat)
    (self : @Backend.BackendAdapter Genome Rng Previews.bytes) (use_cache : bool) :
  completed ≡ₚ seq 0 (length (Backend.population (Backend.pop_state self))) →
  use_cache && forallb Previews.is_not_None (Previews.cached_results self) = false →
  (Previews.render_all_previews_parallel outcome completed self use_cache).2
  = (fun idx => Some (Previews.png_or_blank (outcome idx)))
      <$> seq 0 (length (Backend.population (Backend.pop_state self))).
Proof.
  intros Hperm Hmiss. unfold Previews.render_all_previews_parallel.
  rewrite Hmiss. cbv zeta.
  set (n := length (Backend.population (Backend.pop_state self))) in *.
  destruct (foldl _ _ _) as [results cache] eqn:Hfold. cbn [snd].
  pose proof (collected_length outcome use_cache (Backend.generation self) completed
                (replicate n None) (Backend._image_cache self)) as Hlen.
  rewrite Hfold, length_replicate in Hlen. cbn [fst] in Hlen.
  apply list_eq. intros i.
  pose proof (collected_results outcome use_cache (Backend.generation self) completed
                (replicate n None) (Backend._image_cache self) i) as Hi.
  rewrite Hfold in Hi. cbn [fst] in Hi. rewrite Hi, list_lookup_fmap.
  destruct (decide (i < n)%nat) as [Hlt|Hge].
  - rewrite bool_decide_eq_true_2
      by (rewrite Hperm; apply elem_of_seq; lia).
    rewrite lookup_replicate_2 by exact Hlt.
    rewrite lookup_seq_lt by exact Hlt. reflexivity.
  - rewrite bool_decide_eq_false_2
      by (rewrite Hperm; intros Hin; apply elem_of_seq in Hin; lia).
    assert (replicate n (@None Previews.bytes) !! i = None) as ->
      by (apply lookup_replicate_None; lia).
    rewrite lookup_seq_ge by lia. reflexivity.
Qed.

(** X9 — When previews have to be rendered (the cache is not used, or it
    misses an individual of the current generation), the returned list has
    one entry per individual, in population order, whatever the order in
    which the renders complete: the PNG data of the render, or [b""] where it
    raised.  Cached images are not used in it, for no individual. *)
Theorem previews_rendered_in_any_order
    (outcome : nat → Exc Previews.bytes) (completed : list nat)
    (self : @Backend.BackendAdapter Genome Rng Previews.bytes) (use_cache : bool) :
  completed ≡ₚ seq 0 (length (Backend.population (Backend.pop_state self))) →
  (use_cache = false
   ∨ ∃ idx, (idx < length (Backend.population (Backend.pop_state self)))%nat
            ∧ Backend._image_cache self !! (Backend.generation self, Z.of_nat idx) = None) →
  (Previews.render_all_previews_parallel outcome completed self use_cache).2
  = (fun idx => Some (Previews.png_or_blank (outcome idx)))
      <$> seq 0 (length (Backend.population (Backend.pop_state self))).
Proof.
  intros Hperm Hmiss. apply rendered_afresh; [exact Hperm|].
  destruct Hmiss as [->|(idx & Hlt & Hnone)]; [reflexivity|].
  rewrite (cached_results_miss self idx Hlt Hnone). apply andb_false_r.
Qed.

Lemma rendered_cache (outcome : nat → Exc Previews.bytes) (completed : list nat)
    (self : @Backend.BackendAdapter Genome Rng Previews.bytes) (use_cache : bool)
    (key : Z * Z) :
  completed ≡ₚ seq 0 (length (Backend.population (Backend.pop_state self))) →
  use_cache && forallb Previews.is_not_None (Previews.cached_results self) = false →
  Backend._image_cache
    (Previews.render_all_previews_parallel outcome completed self use_cache).1 !! key
  = if use_cache && bool_decide (key.1 = Backend.generation self)
       && bool_decide (0 ≤ key.2
                       < Z.of_nat (length (Backend.population (Backend.pop_state self))))
    then match outcome (Z.to_nat key.2) with
         | Ret img_bytes => Some img_bytes
         | Raise _ => Backend._image_cache self !! key
         end
    else Backend._image_cache self !! key.
Proof.
  intros Hperm Hmiss. unfold Previews.render_all_previews_parallel.
  rewrite Hmiss. cbv zeta.
  set (n := length (Backend.population (Backend.pop_state self))) in *.
  pose proof (collected_cache outcome use_cache (Backend.generation self) completed
                (replicate n None) (Backend._image_cache self) key) as Hk.
  destruct (foldl _ _ _) as [results cache]. cbn [fst snd Backend._image_cache] in *.
  rewrite Hk. clear Hk.
  destruct (use_cache && bool_decide (key.1 = Backend.generation self)); [|reflexivity].
  cbn [andb].
  destruct (decide (0 ≤ key.2)) as [Hj|Hj].
  - rewrite (bool_decide_eq_true_2 _ Hj). cbn [andb].
    destruct (decide (key.2 < Z.of_nat n)) as [Hlt|Hge].
    + rewrite (bool_decide_eq_true_2 (0 ≤ key.2 < Z.of_nat n)) by lia.
      rewrite bool_decide_eq_true_2; [reflexivity|].
      rewrite Hperm. apply elem_of_seq. lia.
    + rewrite (bool_decide_eq_false_2 (0 ≤ key.2 < Z.of_nat n)) by lia.
      rewrite bool_decide_eq_false_2; [reflexivity|].
      rewrite Hperm. intros Hin. apply elem_of_seq in Hin. lia.
  - rewrite (bool_decide_eq_false_2 _ Hj).
    rewrite (bool_decide_eq_false_2 (0 ≤ key.2 < Z.of_nat n)) by lia. reflexivity.
Qed.

Lemma rendered_without_cache (outcome : nat → Exc Previews.bytes) (completed : list nat)
    (self : @Backend.BackendAdapter Genome Rng Previews.bytes) :
  (Previews.render_all_previews_parallel outcome completed self false).1 = self.
Proof.
  unfold Previews.render_all_previews_parallel. cbn [andb]. cbv zeta.
  assert (∀ results cache,
    (foldl (Previews.collect outcome false (Backend.generation self))
           (results, cache) completed).2 = cache) as Hsame.
  { induction completed as [|idx completed IH]; intros results cache; [reflexivity|].
    cbn [foldl]. unfold Previews.collect at 2.
    destruct (outcome idx); apply IH. }
  specialize (Hsame (replicate (length (Backend.population (Backend.pop_state self))) None)
                    (Backend._image_cache self)).
  destruct (foldl _ _ _) as [results cache]. cbn [fst snd] in *. subst cache.
  destruct self; reflexivity.
Qed.

(** X10 — A call that renders with [use_cache] stores exactly the successful
    renders, under the current generation and the index of the individual:
    the entry of an individual whose render raised, and every entry of
    another generation, is what it was before the call.  With
    [use_cache=False] the adapter is left as it was. *)
Theorem previews_cache_successful_renders
    (outcome : nat → Exc Previews.bytes) (completed : list nat)
    (self : @Backend.BackendAdapter Genome Rng Previews.bytes) :
  completed ≡ₚ seq 0 (length (Backend.population (Backend.pop_state self))) →
  (∃ idx, (idx < length (Backend.population (Backend.pop_state self)))%nat
          ∧ Backend._image_cache self !! (Backend.generation self, Z.of_nat idx) = None) →
  (∀ key,
     Backend._image_cache
       (Previews.render_all_previews_parallel outcome completed self true).1 !! key
     = if bool_decide (key.1 = Backend.generation self
                       ∧ 0 ≤ key.2
                         < Z.of_nat (length (Backend.population (Backend.pop_state self))))
       then match outcome (Z.to_nat key.2) with
            | Ret img_bytes => Some img_bytes
            | Raise _ => Backend._image_cache self !! key
            end
       else Backend._image_cache self !! key)
  ∧ (Previews.render_all_previews_parallel outcome completed self false).1 = self.
Proof.
  intros Hperm (idx & Hlt & Hnone). split; [|apply rendered_without_cache].
  intros key. rewrite rendered_cache; [|exact Hperm|].
  - cbn [andb].
    destruct (decide (key.1 = Backend.generation self)) as [Hg|Hg].
    + rewrite (bool_decide_eq_true_2 _ Hg). cbn [andb].
      destruct (decide (0 ≤ key.2
          < Z.of_nat (length (Backend.population (Backend.pop_state self))))) as [Hr|Hr].
      * rewrite !bool_decide_eq_true_2; [reflexivity | split; assumption | exact Hr].
      * rewrite !bool_decide_eq_false_2; [reflexivity | tauto | exact Hr].
    + rewrite (bool_decide_eq_false_2 _ Hg). cbn [andb].
      rewrite bool_decide_eq_false_2; [reflexivity | tauto].
  - rewrite (cached_results_miss self idx Hlt Hnone). reflexivity.
Qed.

Lemma cached_results_hit (self : @Backend.BackendAdapter Genome Rng Previews.bytes)
    (images : list Previews.bytes) :
  length images = length (Backend.population (Backend.pop_state self)) →
  (∀ idx img, images !! idx = Some img →
     Backend._image_cache self !! (Backend.generation self, Z.of_nat idx) = Some img) →
  Previews.cached_results self = Some <$> images.
Proof.
  intros Hlen Himg. apply list_eq. intros i. rewrite list_lookup_fmap.
  destruct (images !! i) as [img|] eqn:Hi.
  - rewrite cached_results_lookup
      by (rewrite <- Hlen; eapply lookup_lt_Some; exact Hi).
    rewrite (Himg i img Hi). reflexivity.
  - unfold Previews.cached_results. rewrite list_lookup_imap.
    rewrite (proj2 (lookup_ge_None _ i)); [reflexivity|].
    rewrite <- Hlen. apply lookup_ge_None. exact Hi.
Qed.

Lemma forallb_is_not_None_Some {A} (xs : list A) :
  forallb Previews.is_not_None (Some <$> xs) = true.
Proof. induction xs as [|x xs IH]; [reflexivity | exact IH]. Qed.

(** X11 — After a call with the cache in which every render succeeded, the
    next call with the cache returns the same list without rendering (the
    outcomes and the completion order of the second call do not matter) and
    leaves the adapter as the first call left it. *)
Theorem previews_second_call_is_cached
    (outcome outcome' : nat → Exc Previews.bytes) (completed completed' : list nat)
    (self : @Backend.BackendAdapter Genome Rng Previews.bytes) :
  completed ≡ₚ seq 0 (length (Backend.population (Backend.pop_state self))) →
  (∀ idx, (idx < length (Backend.population (Backend.pop_state self)))%nat →
          ∃ img_bytes, outcome idx = Ret img_bytes) →
  Previews.render_all_previews_parallel outcome' completed'
    (Previews.render_all_previews_parallel outcome completed self true).1 true
  = Previews.render_all_previews_parallel outcome completed self true.
Proof.
  intros Hperm Hok.
  destruct (forallb Previews.is_not_None (Previews.cached_results self)) eqn:Hhit.
  - unfold Previews.render_all_previews_parallel at 2 3. cbn [andb]. rewrite Hhit.
    cbn [fst]. unfold Previews.render_all_previews_parallel. cbn [andb].
    rewrite Hhit. reflexivity.
  - pose proof (rendered_afresh outcome completed self true Hperm Hhit) as Hres.
    pose proof (fun key => rendered_cache outcome completed self true key Hperm Hhit) as Hcache.
    assert (Backend.pop_state
              (Previews.render_all_previews_parallel outcome completed self true).1
            = Backend.pop_state self
            ∧ Backend.generation
                (Previews.render_all_previews_parallel outcome completed self true).1
              = Backend.generation self) as [Hpop Hgen].
    { unfold Previews.render_all_previews_parallel. cbn [andb]. rewrite Hhit. cbv zeta.
      destruct (foldl _ _ _). split; reflexivity. }
    destruct (Previews.render_all_previews_parallel outcome completed self true)
      as [self' results]. cbn [fst snd] in *.
    set (n := length (Backend.population (Backend.pop_state self))) in *.
    assert (results = Some <$> ((fun idx => Previews.png_or_blank (outcome idx)) <$> seq 0 n))
      as Hsome by (rewrite <- list_fmap_compose; exact Hres).
    assert (Previews.cached_results self' = results) as Hcached.
    { rewrite Hsome. apply cached_results_hit.
      - rewrite Hpop, length_fmap, length_seq. reflexivity.
      - intros idx img Hidx. rewrite list_lookup_fmap in Hidx.
        destruct (seq 0 n !! idx) as [j|] eqn:Hj; [|discriminate].
        apply lookup_seq in Hj as [-> Hlt]. cbn in Hidx. injection Hidx as <-.
        rewrite Hgen, Hcache. cbn [fst snd andb].
        rewrite (bool_decide_eq_true_2 (Backend.generation self = Backend.generation self))
          by reflexivity.
        rewrite bool_decide_eq_true_2 by lia. cbn [andb]. rewrite Nat2Z.id.
        destruct (Hok idx Hlt) as [img ->]. reflexivity. }
    unfold Previews.render_all_previews_parallel. cbn [andb].
    rewrite Hcached, Hsome, forallb_is_not_None_Some. reflexivity.
Qed.

End PreviewRendering.

(** * The evolve screen *)

Section ScreenSelection.
Context {Genome Rng : Type} (mutate : Genome → Rng → Genome * Rng).
Context (loadFromData : Previews.bytes → bool).

Lemma rendered_length (outcome : nat → Exc Previews.bytes) (completed : list nat)
    (self : @Backend.BackendAdapter Genome Rng Previews.bytes) (use_cache : bool) :
  length (Previews.render_all_previews_parallel outcome completed self use_cache).2
  = length (Backend.population (Backend.pop_state self)).
Proof.
  unfold Previews.render_all_previews_parallel.
  destruct (use_cache && _).
  - cbn [snd]. unfold Previews.cached_results. apply length_imap.
  - cbv zeta.
    pose proof (collected_length outcome use_cache (Backend.generation self) completed
      (replicate (length (Backend.population (Backend.pop_state self))) None)
      (Backend._image_cache self)) as Hlen.
    destruct (foldl _ _ _) as [results cache]. cbn [fst snd] in *.
    rewrite Hlen. apply length_replicate.
Qed.

Lemma rendered_pop_state (outcome : nat → Exc Previews.bytes) (completed : list nat)
    (self : @Backend.BackendAdapter Genome Rng Previews.bytes) (use_cache : bool) :
  Backend.pop_state (Previews.render_all_previews_parallel outcome completed self use_cache).1
  = Backend.pop_state self
  ∧ Backend.generation
      (Previews.render_all_previews_parallel outcome completed self use_cache).1
    = Backend.generation self.
Proof.
  unfold Previews.render_all_previews_parallel.
  destruct (use_cache && _); [split; reflexivity|].
  cbv zeta. destruct (foldl _ _ _). split; reflexivity.
Qed.

Lemma render_population_grid_backend (outcome : nat → Exc Previews.bytes)
    (completed : list nat) (available_width : Z)
    (self : @EvolveScreen.EvolveScreen Genome Rng) :
  Backend.pop_state (EvolveScreen.backend
    (EvolveScreen.render_population_grid loadFromData outcome completed available_width self))
  = Backend.pop_state (EvolveScreen.backend self)
  ∧ Backend.generation (EvolveScreen.backend
      (EvolveScreen.render_population_grid loadFromData outcome completed available_width self))
    = Backend.generation (EvolveScreen.backend self)
  ∧ EvolveScreen.generation
      (EvolveScreen.render_population_grid loadFromData outcome completed available_width self)
    = EvolveScreen.generation self.
Proof.
  unfold EvolveScreen.render_population_grid. cbv zeta.
  destruct (Backend.population (Backend.pop_state (EvolveScreen.backend self)))
    as [|genome pop] eqn:Hpop; [done|].
  match goal with
  | |- context [Previews.render_all_previews_parallel ?o ?c ?b ?u] =>
    pose proof (rendered_pop_state o c b u) as [Hps Hgen];
    destruct (Previews.render_all_previews_parallel o c b u) as [backend' payloads]
  end.
  cbn in *. done.
Qed.

Lemma render_population_grid_in_step (outcome : nat → Exc Previews.bytes)
    (completed : list nat) (available_width : Z)
    (self : @EvolveScreen.EvolveScreen Genome Rng) :
  EvolveScreen.in_step
    (EvolveScreen.render_population_grid loadFromData outcome completed available_width self).
Proof.
  unfold EvolveScreen.render_population_grid. cbv zeta.
  destruct (Backend.population (Backend.pop_state (EvolveScreen.backend self)))
    as [|genome pop] eqn:Hpop.
  { unfold EvolveScreen.in_step. cbn. rewrite Hpop. repeat split.
    - intros k w position Hk. rewrite lookup_nil in Hk. done.
    - intros Hin. apply elem_of_empty in Hin. done.
    - intros (k & w & position & _ & Hk & _). rewrite lookup_nil in Hk. done.
    - done. }
  match goal with
  | |- context [Previews.render_all_previews_parallel ?o ?c ?b ?u] =>
    pose proof (rendered_pop_state o c b u) as [Hps _];
    pose proof (rendered_length o c b u) as Hlen;
    destruct (Previews.render_all_previews_parallel o c b u) as [backend' payloads]
  end.
  cbn [fst snd Backend.pop_state] in *.
  unfold EvolveScreen.in_step. cbn. repeat split.
  - intros k w position Hk. rewrite list_lookup_imap in Hk.
    destruct (payloads !! k); [|done]. cbn in Hk. injection Hk as <- _. reflexivity.
  - intros Hin. apply elem_of_empty in Hin. done.
  - intros (k & w & position & _ & Hk & Hs). rewrite list_lookup_imap in Hk.
    destruct (payloads !! k); [|done]. cbn in Hk. injection Hk as <- _. done.
  - done.
  - rewrite length_imap, Hlen, Hps, Hpop. reflexivity.
Qed.

Lemma mousePressEvent_in_step (self : @EvolveScreen.EvolveScreen Genome Rng)
    (click : nat * bool) :
  EvolveScreen.in_step self →
  EvolveScreen.in_step (EvolveScreen.mousePressEvent self click).
Proof.
  intros (Hidx & Hsel & Hcur & Hlen). unfold EvolveScreen.mousePressEvent.
  destruct click as [i inspected].
  destruct (EvolveScreen.cards self !! i) as [[w pos]|] eqn:Hi;
    [|repeat split; try assumption; apply Hsel].
  pose proof (Hidx i w pos Hi) as Hw.
  pose proof (lookup_lt_Some _ _ _ Hi) as Hlt.
  assert (∀ label,
    EvolveScreen.in_step
      {| EvolveScreen.backend := EvolveScreen.backend self;
         EvolveScreen.generation := EvolveScreen.generation self;
         EvolveScreen.selected_indices :=
           if negb (EvolveScreen.is_selected w)
           then EvolveScreen.selected_indices self ∪ {[ EvolveScreen.index w ]}
           else EvolveScreen.selected_indices self ∖ {[ EvolveScreen.index w ]};
         EvolveScreen.current_selected_index :=
           if negb (EvolveScreen.is_selected w) then Some (EvolveScreen.index w)
           else if bool_decide (EvolveScreen.current_selected_index self
                                = Some (EvolveScreen.index w))
                then None else EvolveScreen.current_selected_index self;
         EvolveScreen.cards :=
           <[i := (EvolveScreen.toggle_select w, pos)]> (EvolveScreen.cards self);
         EvolveScreen.lbl_inspector_index := label |}) as Hstep.
  2:{ unfold EvolveScreen.handle_selection, EvolveScreen.toggle_select in Hstep |- *.
      cbn [EvolveScreen.cards EvolveScreen.selected_indices
           EvolveScreen.current_selected_index EvolveScreen.backend
           EvolveScreen.generation EvolveScreen.lbl_inspector_index
           EvolveScreen.index EvolveScreen.is_selected EvolveScreen.pixmap].
      destruct (EvolveScreen.is_selected w) eqn:Hs; cbn [negb] in *.
      - destruct (bool_decide (EvolveScreen.current_selected_index self
                               = Some (EvolveScreen.index w))); apply Hstep.
      - apply Hstep. }
  intros label.
  unfold EvolveScreen.in_step, EvolveScreen.toggle_select.
  cbn [EvolveScreen.cards EvolveScreen.selected_indices EvolveScreen.current_selected_index
       EvolveScreen.backend EvolveScreen.index EvolveScreen.is_selected EvolveScreen.pixmap].
  split; [|split; [|split]].
  - intros k w' pos' Hk. destruct (decide (k = i)) as [->|Hne].
    + rewrite list_lookup_insert_eq in Hk by exact Hlt. injection Hk as <- <-. exact Hw.
    + rewrite list_lookup_insert_ne in Hk by congruence. eapply Hidx; exact Hk.
  - intros j. destruct (EvolveScreen.is_selected w) eqn:Hs; cbn [negb].
    + rewrite elem_of_difference, elem_of_singleton, Hsel. split.
      * intros [(k & w0 & p0 & -> & Hk & Hs0) Hne]. exists k, w0, p0.
        split; [reflexivity|]. split; [|exact Hs0].
        rewrite list_lookup_insert_ne; [exact Hk|]. intros ->. apply Hne. rewrite Hw. reflexivity.
      * intros (k & w0 & p0 & -> & Hk & Hs0). destruct (decide (k = i)) as [->|Hne].
        -- rewrite list_lookup_insert_eq in Hk by exact Hlt. injection Hk as <- <-.
           cbn in Hs0. discriminate.
        -- rewrite list_lookup_insert_ne in Hk by congruence. split.
           ++ exists k, w0, p0. done.
           ++ rewrite Hw. intros Heq. apply Hne. lia.
    + rewrite elem_of_union, elem_of_singleton, Hsel. split.
      * intros [(k & w0 & p0 & -> & Hk & Hs0) | ->].
        -- destruct (decide (k = i)) as [->|Hne]; [congruence|].
           exists k, w0, p0. split; [reflexivity|]. split; [|exact Hs0].
           rewrite list_lookup_insert_ne by congruence. exact Hk.
        -- eexists i, _, pos. split; [exact Hw|].
           rewrite list_lookup_insert_eq by exact Hlt. split; [reflexivity|].
           reflexivity.
      * intros (k & w0 & p0 & -> & Hk & Hs0). destruct (decide (k = i)) as [->|Hne].
        -- right. rewrite Hw. reflexivity.
        -- left. rewrite list_lookup_insert_ne in Hk by congruence.
           exists k, w0, p0. done.
  - destruct (EvolveScreen.is_selected w) eqn:Hs; cbn [negb].
    + intros j Hj. case_bool_decide as Hc; [discriminate|].
      apply elem_of_difference. split; [apply Hcur, Hj|].
      rewrite elem_of_singleton. intros ->. apply Hc, Hj.
    + intros j [= <-]. apply elem_of_union. right. apply elem_of_singleton. reflexivity.
  - rewrite length_insert. exact Hlen.
Qed.

(** X12 — After the evolve screen has drawn the grid, and after any series of
    clicks on its cards, whether or not the backend answers the inspections
    they start, the selected indices are exactly those of the highlighted
    cards, each card has its place in the population as its index (so every
    selected index is one of the population), and the field
    [current_selected_index], if it is set, is one of the selected indices.
    Nothing is said of the label of the inspector, which keeps an earlier
    index when an inspection fails. *)
Theorem clicks_keep_selection_in_step
    (outcome : nat → Exc Previews.bytes) (completed : list nat) (available_width : Z)
    (self : @EvolveScreen.EvolveScreen Genome Rng) (clicks : list (nat * bool)) :
  EvolveScreen.in_step
    (foldl EvolveScreen.mousePressEvent
       (EvolveScreen.render_population_grid loadFromData outcome completed
          available_width self)
       clicks).
Proof.
  pose proof (render_population_grid_in_step outcome completed available_width self) as Hfresh.
  revert Hfresh.
  generalize (EvolveScreen.render_population_grid loadFromData outcome completed
                available_width self) as screen.
  induction clicks as [|i clicks IH]; intros screen Hscreen; [exact Hscreen|].
  cbn [foldl]. apply IH, mousePressEvent_in_step, Hscreen.
Qed.

End ScreenSelection.

Section ScreenEvolution.
Context {Genome Rng : Type} (mutate : Genome → Rng → Genome * Rng).
Context (loadFromData : Previews.bytes → bool).

Lemma evolve_raise_generation
    (adapter adapter' : @Backend.BackendAdapter Genome Rng Previews.bytes)
    (selected : gset Z) (e : exn) :
  Backend.evolve mutate adapter selected = (adapter', Raise e) →
  Backend.generation adapter' = Backend.generation adapter.
Proof.
  unfold Backend.evolve. cbv zeta.
  destruct (Backend.pop_state_evolve _ _ _) as [ps [result|x]]; intros [= <- _];
    reflexivity.
Qed.

(** X13 — On a screen whose inspector index, if any, is selected and whose
    generation is the one of the backend: [evolve_step] with nothing selected
    asks for a selection and changes nothing, the backend included; with a
    selection it calls [backend.evolve] with exactly the selected indices; and
    in every case, also when evolving or saving fails, the generation of the
    screen is the one of the backend afterwards. *)
Theorem evolve_step_sends_the_selection
    (outcome : nat → Exc Previews.bytes) (completed : list nat) (available_width : Z)
    (saved : Exc unit) (self : @EvolveScreen.EvolveScreen Genome Rng) :
  (∀ i, EvolveScreen.current_selected_index self = Some i →
        i ∈ EvolveScreen.selected_indices self) →
  EvolveScreen.generation self = Backend.generation (EvolveScreen.backend self) →
  (EvolveScreen.selected_indices self = ∅ →
   EvolveScreen.evolve_step mutate loadFromData outcome completed available_width saved self
   = (self, EvolveScreen.SelectionRequired))
  ∧ (EvolveScreen.selected_indices self ≠ ∅ →
     (EvolveScreen.evolve_step mutate loadFromData outcome completed available_width
        saved self).2 ≠ EvolveScreen.SelectionRequired
     ∧ Backend.pop_state (EvolveScreen.backend
         (EvolveScreen.evolve_step mutate loadFromData outcome completed available_width
            saved self).1)
       = Backend.pop_state
           (Backend.evolve mutate (EvolveScreen.backend self)
              (EvolveScreen.selected_indices self)).1)
  ∧ EvolveScreen.generation
      (EvolveScreen.evolve_step mutate loadFromData outcome completed available_width
         saved self).1
    = Backend.generation (EvolveScreen.backend
        (EvolveScreen.evolve_step mutate loadFromData outcome completed available_width
           saved self).1).
Proof.
  intros Hcur Hgen. unfold EvolveScreen.evolve_step. cbv zeta.
  destruct (decide (EvolveScreen.selected_indices self = ∅)) as [Hnone|Hsome].
  - rewrite (bool_decide_eq_true_2 _ Hnone).
    destruct (EvolveScreen.current_selected_index self) as [i|] eqn:Hi.
    { pose proof (Hcur i eq_refl) as Hin. rewrite Hnone in Hin.
      apply elem_of_empty in Hin. done. }
    rewrite (bool_decide_eq_true_2 _ Hnone).
    split; [|split]; [intros _ | done | exact Hgen].
    destruct self; cbn in *. congruence.
  - rewrite !(bool_decide_eq_false_2 _ Hsome).
    destruct (Backend.evolve mutate (EvolveScreen.backend self)
                (EvolveScreen.selected_indices self)) as [adapter' [result|e]] eqn:Hev.
    + destruct saved as [[]|e].
      * pose proof (render_population_grid_backend loadFromData outcome completed
                      available_width
                      {| EvolveScreen.backend := adapter';
                         EvolveScreen.generation := Backend.generation adapter';
                         EvolveScreen.selected_indices := EvolveScreen.selected_indices self;
                         EvolveScreen.current_selected_index :=
                           EvolveScreen.current_selected_index self;
                         EvolveScreen.cards := [];
                         EvolveScreen.lbl_inspector_index :=
                           EvolveScreen.lbl_inspector_index self |})
          as (Hps & Hg & Hs).
        cbn [fst snd EvolveScreen.backend EvolveScreen.generation] in *.
        split; [done|]. split; [intros _; split; [discriminate | exact Hps]|].
        rewrite Hs, Hg. reflexivity.
      * cbn. split; [done|]. split; [intros _; split; [discriminate | reflexivity]|].
        reflexivity.
    + cbn. split; [done|]. split; [intros _; split; [discriminate | reflexivity]|].
      rewrite (evolve_raise_generation _ _ _ _ Hev). exact Hgen.
Qed.

Lemma popped_stays_missing (generation : Z) (idxs : list nat)
    (cache : gmap (Z * Z) Previews.bytes) (key : Z * Z) :
  cache !! key = None →
  foldl (fun cache idx => delete (generation, Z.of_nat idx) cache) cache idxs !! key = None.
Proof.
  revert cache. induction idxs as [|idx idxs IH]; intros cache Hnone; [exact Hnone|].
  cbn [foldl]. apply IH. apply lookup_delete_None. right. exact Hnone.
Qed.

Lemma popped_is_missing (generation : Z) (idxs : list nat)
    (cache : gmap (Z * Z) Previews.bytes) (i : nat) :
  i ∈ idxs →
  foldl (fun cache idx => delete (generation, Z.of_nat idx) cache) cache idxs
    !! (generation, Z.of_nat i) = None.
Proof.
  revert cache. induction idxs as [|idx idxs IH]; intros cache Hin.
  - apply elem_of_nil in Hin. done.
  - cbn [foldl]. apply elem_of_cons in Hin as [->|Hin]; [|apply IH, Hin].
    apply popped_stays_missing, lookup_delete_eq.
Qed.

(** X14 — When the evolve screen draws the grid of a non-empty population it
    never shows a cached preview: the previews of the current generation are
    popped from the cache first, so each card shows the render just made for
    its individual, or the dark red placeholder where that render failed,
    whatever the cache held; the cards are laid out row by row in
    [max(1, available_width // 235)] columns, none of them selected. *)
Theorem grid_refresh_renders_afresh
    (outcome : nat → Exc Previews.bytes) (completed : list nat) (available_width : Z)
    (self : @EvolveScreen.EvolveScreen Genome Rng) :
  Backend.population (Backend.pop_state (EvolveScreen.backend self)) ≠ [] →
  completed
    ≡ₚ seq 0 (length (Backend.population (Backend.pop_state (EvolveScreen.backend self)))) →
  EvolveScreen.cards
    (EvolveScreen.render_population_grid loadFromData outcome completed available_width self)
  = (fun i =>
       ({| EvolveScreen.index := Z.of_nat i;
           EvolveScreen.pixmap :=
             EvolveScreen.preview_pixmap loadFromData
               (Some (Previews.png_or_blank (outcome i)));
           EvolveScreen.is_selected := false |},
        (Z.of_nat i `div` Z.max 1 (available_width `div` 235),
         Z.of_nat i `mod` Z.max 1 (available_width `div` 235))))
    <$> seq 0 (length (Backend.population (Backend.pop_state (EvolveScreen.backend self)))).
Proof.
  intros Hpop Hperm. unfold EvolveScreen.render_population_grid. cbv zeta.
  destruct (Backend.population (Backend.pop_state (EvolveScreen.backend self)))
    as [|genome pop] eqn:Hp; [done|]. clear Hpop.
  match goal with
  | |- context [Previews.render_all_previews_parallel ?o ?c ?b ?u] =>
    pose proof (rendered_afresh o c b u) as Hres;
    pose proof (cached_results_miss b 0) as Hmiss;
    destruct (Previews.render_all_previews_parallel o c b u) as [backend' payloads]
  end.
  cbn [fst snd Backend.pop_state Backend.generation Backend._image_cache] in *.
  rewrite Hp in Hres, Hmiss.
  rewrite Hres; [|exact Hperm|].
  - cbn [EvolveScreen.cards]. apply list_eq. intros i.
    rewrite list_lookup_imap, !list_lookup_fmap.
    destruct (seq 0 (length (genome :: pop)) !! i) as [j|] eqn:Hj; [|reflexivity].
    apply lookup_seq in Hj as [-> _]. reflexivity.
  - rewrite Hmiss; [reflexivity | cbn; lia |].
    apply (popped_is_missing _ _ _ 0%nat). cbn. left.
Qed.

End ScreenEvolution.

(** * The population grid image *)

Section GridLayout.
Context {Genome : Type} (image_size : Genome → Z → option (Z * Z)) (label_height : Z).

Lemma grid_row_col (n cols idx : Z) :
  1 ≤ cols → 0 ≤ idx < n →
  0 ≤ idx `mod` cols < cols
  ∧ 0 ≤ idx `div` cols < Drawing.ceil_div n cols
  ∧ idx = cols * (idx `div` cols) + idx `mod` cols.
Proof.
  intros Hcols Hidx. unfold Drawing.ceil_div.
  pose proof (Z.mod_pos_bound idx cols ltac:(lia)) as Hmod.
  pose proof (Z.div_mod idx cols ltac:(lia)) as Hdm.
  assert (0 ≤ idx `div` cols) as Hrow by (apply Z.div_pos; lia).
  split; [exact Hmod|]. split; [|exact Hdm]. split; [exact Hrow|].
  replace (n + cols - 1) with ((n - 1) + 1 * cols) by lia.
  rewrite Z.div_add by lia.
  assert (idx `div` cols ≤ (n - 1) `div` cols) by (apply Z.div_le_mono; lia).
  lia.
Qed.

Lemma render_population_grid_layout (population : list Genome)
    (cols resolution cell_padding : Z) (grid : Drawing.GridImage)
    (cell_width cell_height : Z) :
  Drawing.render_population_grid image_size label_height population cols resolution
    cell_padding = Ret grid →
  hd (0, 0) (List.map (Drawing.cell_image image_size resolution) population)
  = (cell_width, cell_height) →
  Drawing.size grid
  = (Z.max 1 cols * cell_width + (Z.max 1 cols + 1) * cell_padding,
     Drawing.ceil_div (Z.of_nat (length population)) (Z.max 1 cols)
       * (cell_height + label_height)
     + (Drawing.ceil_div (Z.of_nat (length population)) (Z.max 1 cols) + 1)
       * cell_padding)
  ∧ length (Drawing.pasted grid) = length population
  ∧ ∀ idx origin img,
      Drawing.pasted grid !! idx = Some (origin, img) →
      (idx < length population)%nat
      ∧ origin
        = (cell_padding
           + Z.of_nat idx `mod` Z.max 1 cols * (cell_width + cell_padding),
           cell_padding
           + Z.of_nat idx `div` Z.max 1 cols
             * (cell_height + label_height + cell_padding)).
Proof.
  unfold Drawing.render_population_grid.
  destruct population as [|genome population]; [discriminate|].
  generalize (genome :: population) as pop. intros pop. cbv zeta. intros Hgrid Hcell.
  rewrite Hcell in Hgrid. injection Hgrid as Hgrid. subst grid.
  unfold Drawing.size, Drawing.pasted.
  split; [reflexivity|]. split; [rewrite length_imap, length_map; reflexivity|].
  intros idx origin img Hidx.
  rewrite list_lookup_imap in Hidx.
  destruct (List.map _ pop !! idx) as [size|] eqn:Hs; [|discriminate].
  injection Hidx as <- _. split; [|reflexivity].
  apply lookup_lt_Some in Hs. rewrite length_map in Hs. exact Hs.
Qed.

(** X15 — In the grid image of a population every cell, which has the size of
    the first image and the height of a label under it, lies inside the image
    with the padding around it, and there is one cell for each individual; an
    empty population is refused.  The population and the number of columns
    are below [2^53], where the float division of the row count is exact. *)
Theorem population_grid_cells_fit (population : list Genome)
    (cols resolution cell_padding : Z) (grid : Drawing.GridImage)
    (cell_width cell_height : Z) (idx : nat) (origin img : Z * Z) :
  Z.of_nat (length population) < 2 ^ 53 → cols < 2 ^ 53 →
  0 ≤ cell_padding → 0 ≤ label_height → 0 ≤ cell_width → 0 ≤ cell_height →
  Drawing.render_population_grid image_size label_height population cols resolution
    cell_padding = Ret grid →
  hd (0, 0) (List.map (Drawing.cell_image image_size resolution) population)
  = (cell_width, cell_height) →
  Drawing.pasted grid !! idx = Some (origin, img) →
  population ≠ []
  ∧ length (Drawing.pasted grid) = length population
  ∧ cell_padding ≤ origin.1
  ∧ origin.1 + cell_width + cell_padding ≤ (Drawing.size grid).1
  ∧ cell_padding ≤ origin.2
  ∧ origin.2 + cell_height + label_height + cell_padding ≤ (Drawing.size grid).2.
Proof.
  intros _ _ Hp Hl Hw Hh Hgrid Hcell Hidx.
  destruct (render_population_grid_layout _ _ _ _ _ _ _ Hgrid Hcell)
    as (Hsize & Hlen & Horigin).
  destruct (Horigin idx origin img Hidx) as [Hlt ->]. rewrite Hsize. cbn [fst snd].
  split; [intros ->; cbn in Hlt; lia|].
  split; [exact Hlen|].
  destruct (grid_row_col (Z.of_nat (length population)) (Z.max 1 cols) (Z.of_nat idx))
    as ((Hc0 & Hc1) & (Hr0 & Hr1) & _); [lia | lia |].
  set (col := Z.of_nat idx `mod` Z.max 1 cols) in *.
  set (row := Z.of_nat idx `div` Z.max 1 cols) in *.
  set (rows := Drawing.ceil_div (Z.of_nat (length population)) (Z.max 1 cols)) in *.
  set (c := Z.max 1 cols) in *.
  repeat split; nia.
Qed.

(** X16 — In the grid image of a population the cells of two different
    individuals do not overlap: one lies to the side of the other, or above
    it, with at least the padding between them.  The population and the
    number of columns are below [2^53], as for the cells fitting. *)
Theorem population_grid_cells_apart (population : list Genome)
    (cols resolution cell_padding : Z) (grid : Drawing.GridImage)
    (cell_width cell_height : Z) (idx idx' : nat) (origin img origin' img' : Z * Z) :
  Z.of_nat (length population) < 2 ^ 53 → cols < 2 ^ 53 →
  0 ≤ cell_padding → 0 ≤ label_height → 0 ≤ cell_width → 0 ≤ cell_height →
  Drawing.render_population_grid image_size label_height population cols resolution
    cell_padding = Ret grid →
  hd (0, 0) (List.map (Drawing.cell_image image_size resolution) population)
  = (cell_width, cell_height) →
  Drawing.pasted grid !! idx = Some (origin, img) →
  Drawing.pasted grid !! idx' = Some (origin', img') →
  idx ≠ idx' →
  origin.1 + cell_width + cell_padding ≤ origin'.1
  ∨ origin'.1 + cell_width + cell_padding ≤ origin.1
  ∨ origin.2 + cell_height + label_height + cell_padding ≤ origin'.2
  ∨ origin'.2 + cell_height + label_height + cell_padding ≤ origin.2.
Proof.
  intros _ _ Hp Hl Hw Hh Hgrid Hcell Hidx Hidx' Hne.
  destruct (render_population_grid_layout _ _ _ _ _ _ _ Hgrid Hcell) as (_ & _ & Horigin).
  destruct (Horigin idx origin img Hidx) as [Hlt ->].
  destruct (Horigin idx' origin' img' Hidx') as [Hlt' ->]. cbn [fst snd].
  destruct (grid_row_col (Z.of_nat (length population)) (Z.max 1 cols) (Z.of_nat idx))
    as ((Hc0 & Hc1) & (Hr0 & _) & Hdm); [lia | lia |].
  destruct (grid_row_col (Z.of_nat (length population)) (Z.max 1 cols) (Z.of_nat idx'))
    as ((Hc0' & Hc1') & (Hr0' & _) & Hdm'); [lia | lia |].
  set (col := Z.of_nat idx `mod` Z.max 1 cols) in *.
  set (row := Z.of_nat idx `div` Z.max 1 cols) in *.
  set (col' := Z.of_nat idx' `mod` Z.max 1 cols) in *.
  set (row' := Z.of_nat idx' `div` Z.max 1 cols) in *.
  set (c := Z.max 1 cols) in *.
  destruct (Z.lt_trichotomy col col') as [Hcol|[Hcol|Hcol]].
  - left. nia.
  - destruct (Z.lt_trichotomy row row') as [Hrow|[Hrow|Hrow]].
    + right. right. left. nia.
    + exfalso. apply Hne. apply Nat2Z.inj. rewrite Hdm, Hdm', Hcol, Hrow. reflexivity.
    + right. right. right. nia.
  - right. left. nia.
Qed.

End GridLayout.

(** * The paths of the tree renderer *)

Section PolygonPaths.
Context {Coord Vertex : Type} (xy : Coord → Vertex).

Lemma ring_loop (n : nat) (ring : list Coord) (k : nat)
    (vertices : list Vertex) (codes : list TreeRenderer.code) :
  foldl (fun '(vertices, codes) '(idx, coord) =>
           (vertices ++ [xy coord],
            codes ++ [if (idx =? 0)%nat then TreeRenderer.MOVETO
                      else if (idx =? n - 1)%nat then TreeRenderer.CLOSEPOLY
                      else TreeRenderer.LINETO]))
        (vertices, codes) (zip (seq k (length ring)) ring)
  = (vertices ++ List.map xy ring,
     codes ++ List.map (fun idx => if (idx =? 0)%nat then TreeRenderer.MOVETO
                                   else if (idx =? n - 1)%nat then TreeRenderer.CLOSEPOLY
                                   else TreeRenderer.LINETO)
                       (seq k (length ring))).
Proof.
  revert k vertices codes. induction ring as [|coord ring IH]; intros k vertices codes.
  - cbn. rewrite !app_nil_r. reflexivity.
  - cbn [length seq zip zip_with foldl List.map]. rewrite IH.
    rewrite <- !app_assoc. reflexivity.
Qed.

Lemma ring_codes (n : nat) :
  (2 ≤ n)%nat →
  List.map (fun idx => if (idx =? 0)%nat then TreeRenderer.MOVETO
                       else if (idx =? n - 1)%nat then TreeRenderer.CLOSEPOLY
                       else TreeRenderer.LINETO)
           (seq 0 n)
  = TreeRenderer.subpath_codes n.
Proof.
  intros Hn. unfold TreeRenderer.subpath_codes.
  assert (seq 0 n = 0%nat :: seq 1 (n - 2) ++ [(n - 1)%nat]) as ->.
  { replace n with (1 + ((n - 2) + 1))%nat at 1 by lia.
    rewrite seq_app. cbn [seq app]. f_equal.
    rewrite seq_app. cbn [seq]. do 2 f_equal. lia. }
  cbn [List.map Nat.eqb]. rewrite map_app. cbn [List.map].
  f_equal. f_equal.
  - apply list_eq. intros i. rewrite list_lookup_fmap.
    destruct (decide (i < n - 2)%nat) as [Hlt|Hge].
    + rewrite lookup_seq_lt, lookup_replicate_2 by exact Hlt. cbn [fmap option_fmap option_map].
      destruct (Nat.eqb_spec (1 + i) 0); [lia|].
      destruct (Nat.eqb_spec (1 + i) (n - 1)); [lia|]. reflexivity.
    + rewrite lookup_seq_ge by lia.
      symmetry. apply lookup_replicate_None. lia.
  - destruct (Nat.eqb_spec (n - 1) 0); [lia|].
    rewrite Nat.eqb_refl. reflexivity.
Qed.

Lemma add_ring_spec (coords : list Coord) (vertices : list Vertex)
    (codes : list TreeRenderer.code) :
  TreeRenderer._add_ring xy coords (vertices, codes)
  = if (length coords <? 2)%nat then (vertices, codes)
    else (vertices ++ List.map xy coords,
          codes ++ TreeRenderer.subpath_codes (length coords)).
Proof.
  unfold TreeRenderer._add_ring. cbv zeta.
  destruct (Nat.ltb_spec (length coords) 2) as [Hlt|Hge]; [reflexivity|].
  rewrite ring_loop, ring_codes by exact Hge. reflexivity.
Qed.

Lemma add_rings_spec (rings : list (list Coord)) (vertices : list Vertex)
    (codes : list TreeRenderer.code) :
  foldl (fun path interior => TreeRenderer._add_ring xy interior path) (vertices, codes) rings
  = (vertices
     ++ List.map xy (concat (List.filter (fun ring => 2 <=? length ring)%nat rings)),
     codes ++ concat (List.map (fun ring : list Coord =>
                                  TreeRenderer.subpath_codes (length ring))
                               (List.filter (fun ring => 2 <=? length ring)%nat rings))).
Proof.
  revert vertices codes. induction rings as [|ring rings IH]; intros vertices codes.
  - cbn. rewrite !app_nil_r. reflexivity.
  - cbn [foldl List.filter]. rewrite add_ring_spec.
    destruct (Nat.ltb_spec (length ring) 2) as [Hlt|Hge].
    + rewrite (proj2 (Nat.leb_gt 2 (length ring))) by lia. apply IH.
    + rewrite (proj2 (Nat.leb_le 2 (length ring))) by lia.
      rewrite IH. cbn [List.map concat]. rewrite map_app, <- !app_assoc. reflexivity.
Qed.

(** X17 — The path of a polygon has one closed subpath for each ring of at
    least two points, the exterior first and the interiors in their order: the
    vertices are those of the points of the ring and the codes are [MOVETO] at the
    first point, [CLOSEPOLY] at the last, [LINETO] between; shorter rings are
    left out.  There is no path for an empty polygon, nor when no ring is
    left; the path has as many codes as vertices. *)
Theorem polygon_path_closed_subpaths (polygon : @TreeRenderer.Polygon Coord) :
  TreeRenderer._polygon_to_path xy polygon
  = (if TreeRenderer.is_empty polygon then None
     else
       match List.filter (fun ring => 2 <=? length ring)%nat
               (TreeRenderer.exterior polygon :: TreeRenderer.interiors polygon) with
       | [] => None
       | rings =>
         Some (List.map xy (concat rings),
               concat (List.map (fun ring : list Coord =>
                                   TreeRenderer.subpath_codes (length ring)) rings))
       end)
  ∧ ∀ vertices codes,
      TreeRenderer._polygon_to_path xy polygon = Some (vertices, codes) →
      length vertices = length codes.
Proof.
  assert (∀ rings : list (list Coord),
    length (concat (List.filter (fun ring => 2 <=? length ring)%nat rings))
    = length (concat (List.map (fun ring : list Coord =>
                                  TreeRenderer.subpath_codes (length ring))
                               (List.filter (fun ring => 2 <=? length ring)%nat rings))))
    as Hlen.
  { induction rings as [|ring rings IH]; [reflexivity|]. cbn [List.filter].
    destruct (Nat.leb_spec 2 (length ring)) as [Hge|Hlt]; [|exact IH].
    cbn [List.map concat]. rewrite !length_app, IH. f_equal.
    unfold TreeRenderer.subpath_codes. cbn [length].
    rewrite length_app, length_replicate. cbn. lia. }
  assert (TreeRenderer._polygon_to_path xy polygon
    = (if TreeRenderer.is_empty polygon then None
       else
         match List.filter (fun ring => 2 <=? length ring)%nat
                 (TreeRenderer.exterior polygon :: TreeRenderer.interiors polygon) with
         | [] => None
         | rings =>
           Some (List.map xy (concat rings),
                 concat (List.map (fun ring : list Coord =>
                                     TreeRenderer.subpath_codes (length ring)) rings))
         end)) as Hpath.
  { unfold TreeRenderer._polygon_to_path.
    destruct (TreeRenderer.is_empty polygon); [reflexivity|]. cbv zeta.
    pose proof (add_rings_spec
                  (TreeRenderer.exterior polygon :: TreeRenderer.interiors polygon) [] [])
      as Hrings.
    cbn [foldl] in Hrings. rewrite Hrings. cbn [app fst].
    destruct (List.filter _ _) as [|ring rings] eqn:Hkept; [reflexivity|].
    assert (ring ∈ List.filter (fun ring => 2 <=? length ring)%nat
              (TreeRenderer.exterior polygon :: TreeRenderer.interiors polygon))
      as Hin by (rewrite Hkept; left).
    apply list_elem_of_In, filter_In in Hin as [_ Hring]. apply Nat.leb_le in Hring.
    destruct ring as [|coord ring]; [cbn in Hring; lia|]. reflexivity. }
  split; [exact Hpath|]. intros vertices codes Hsome. rewrite Hpath in Hsome.
  destruct (TreeRenderer.is_empty polygon); [discriminate|].
  specialize (Hlen (TreeRenderer.exterior polygon :: TreeRenderer.interiors polygon)).
  destruct (List.filter _ _) as [|ring rings]; [discriminate|].
  injection Hsome as <- <-. rewrite length_map. exact Hlen.
Qed.

End PolygonPaths.

Section TreeLayout.
Context {F : Type} (float_of_nat : nat → F) (mean : list F → F) (level_y : nat → F).

Lemma TreeNode_induction (P : @TreeRenderer.TreeNode F → Prop) :
  (∀ kind label x y children,
     Forall P children → P (TreeRenderer.Node kind label x y children)) →
  ∀ node, P node.
Proof.
  intros Hnode. fix IH 1. intros [kind label x y children]. apply Hnode.
  induction children as [|child children IHc]; constructor; [apply IH | exact IHc].
Qed.

Lemma collect_leaves_children (kind label : string) (x y : F)
    (children : list (@TreeRenderer.TreeNode F)) :
  children ≠ [] →
  TreeRenderer.collect_leaves (TreeRenderer.Node kind label x y children)
  = flat_map TreeRenderer.collect_leaves children.
Proof. destruct children; [done | reflexivity]. Qed.

Lemma assign_children_leaves (depth : nat) (children : list (@TreeRenderer.TreeNode F)) :
  Forall (fun node => ∀ depth next_x,
    (TreeRenderer.assign_x float_of_nat mean level_y node depth next_x).1.1
    = (next_x + length (TreeRenderer.collect_leaves node))%nat
    ∧ TreeRenderer.x <$> TreeRenderer.collect_leaves
        (TreeRenderer.assign_x float_of_nat mean level_y node depth next_x).2
      = float_of_nat <$> seq next_x (length (TreeRenderer.collect_leaves node)))
    children →
  ∀ next_x x_positions,
    (TreeRenderer.assign_children
       (fun child next_x =>
          TreeRenderer.assign_x float_of_nat mean level_y child (S depth) next_x)
       children next_x x_positions).1.1
    = (next_x + length (flat_map TreeRenderer.collect_leaves children))%nat
    ∧ TreeRenderer.x <$> flat_map TreeRenderer.collect_leaves
        (TreeRenderer.assign_children
           (fun child next_x =>
              TreeRenderer.assign_x float_of_nat mean level_y child (S depth) next_x)
           children next_x x_positions).2
      = float_of_nat <$> seq next_x (length (flat_map TreeRenderer.collect_leaves children))
    ∧ length
        (TreeRenderer.assign_children
           (fun child next_x =>
              TreeRenderer.assign_x float_of_nat mean level_y child (S depth) next_x)
           children next_x x_positions).2
      = length children.
Proof.
  induction 1 as [|child children Hchild _ IH]; intros next_x x_positions.
  - cbn. rewrite Nat.add_0_r. done.
  - cbn [TreeRenderer.assign_children].
    specialize (Hchild (S depth) next_x).
    destruct (TreeRenderer.assign_x float_of_nat mean level_y child (S depth) next_x)
      as [[next_x1 child_xs] child'].
    cbn [fst snd] in Hchild. destruct Hchild as [-> Hxs].
    specialize (IH (next_x + length (TreeRenderer.collect_leaves child))%nat
                   (x_positions ++ child_xs)).
    destruct (TreeRenderer.assign_children _ children _ _) as [[next_x2 xs2] children'].
    cbn [fst snd] in *. destruct IH as (-> & Hrest & Hlen).
    cbn [flat_map length]. rewrite !length_app, !fmap_app, seq_app, fmap_app.
    rewrite Hxs, Hrest. split; [lia|]. split; [reflexivity|]. rewrite Hlen. reflexivity.
Qed.

(** X18 — [_assign_positions] puts the leaves of the tree in a row: read from
    left to right, as [_draw_tree] collects them, they get the positions
    [0.0], [1.0], [2.0] and so on, one for each leaf of the tree. *)
Theorem leaves_in_a_row (root : @TreeRenderer.TreeNode F) :
  TreeRenderer.x <$> TreeRenderer.collect_leaves
    (TreeRenderer._assign_positions float_of_nat mean level_y root)
  = float_of_nat <$> seq 0 (length (TreeRenderer.collect_leaves root)).
Proof.
  unfold TreeRenderer._assign_positions.
  enough (∀ tree depth next_x,
    (TreeRenderer.assign_x float_of_nat mean level_y tree depth next_x).1.1
    = (next_x + length (TreeRenderer.collect_leaves tree))%nat
    ∧ TreeRenderer.x <$> TreeRenderer.collect_leaves
        (TreeRenderer.assign_x float_of_nat mean level_y tree depth next_x).2
      = float_of_nat <$> seq next_x (length (TreeRenderer.collect_leaves tree)))
    as Hall by apply Hall.
  intros tree. induction tree as [kind label x y children IH] using TreeNode_induction.
  intros depth next_x. destruct children as [|child children].
  { cbn. split; [lia | reflexivity]. }
  pose proof (assign_children_leaves depth (child :: children) IH next_x [])
    as (Hnext & Hleaves & Hlen).
  set (cs := child :: children) in *.
  assert (TreeRenderer.assign_x float_of_nat mean level_y
            (TreeRenderer.Node kind label x y cs) depth next_x
          = (let '(next_x, x_positions, children) :=
               TreeRenderer.assign_children
                 (fun child next_x =>
                    TreeRenderer.assign_x float_of_nat mean level_y child (S depth) next_x)
                 cs next_x [] in
             ((next_x, [mean x_positions]),
              TreeRenderer.Node kind label (mean x_positions) (level_y depth) children)))
    as -> by reflexivity.
  destruct (TreeRenderer.assign_children _ cs next_x []) as [[next_x' xs] cs'].
  cbn [fst snd] in *.
  rewrite (collect_leaves_children kind label x y cs) by discriminate.
  rewrite collect_leaves_children; [split; [exact Hnext | exact Hleaves]|].
  intros ->. cbn in Hlen. discriminate.
Qed.

Lemma assign_children_members
    (assign : @TreeRenderer.TreeNode F → nat → (nat * list F) * TreeRenderer.TreeNode)
    (children : list TreeRenderer.TreeNode) (next_x : nat) (x_positions : list F)
    (child' : TreeRenderer.TreeNode) :
  child' ∈ (TreeRenderer.assign_children assign children next_x x_positions).2 →
  ∃ child next_x', child ∈ children ∧ child' = (assign child next_x').2.
Proof.
  revert next_x x_positions. induction children as [|child children IH];
    intros next_x x_positions Hin.
  - cbn in Hin. apply elem_of_nil in Hin. done.
  - cbn [TreeRenderer.assign_children] in Hin.
    destruct (assign child next_x) as [[next_x1 child_xs] child1] eqn:Hchild.
    specialize (IH next_x1 (x_positions ++ child_xs)).
    destruct (TreeRenderer.assign_children assign children next_x1 _)
      as [[next_x2 xs2] children'].
    cbn [snd] in *. apply elem_of_cons in Hin as [->|Hin].
    + exists child, next_x. split; [left|]. rewrite Hchild. reflexivity.
    + destruct (IH Hin) as (c & nx & Hc & ->). exists c, nx. split; [right; exact Hc|].
      reflexivity.
Qed.

Lemma compute_depth_children (kind label : string) (x y : F)
    (children : list (@TreeRenderer.TreeNode F)) (child : TreeRenderer.TreeNode) :
  child ∈ children →
  (TreeRenderer._compute_depth child
   < TreeRenderer._compute_depth (TreeRenderer.Node kind label x y children))%nat.
Proof.
  intros Hin. destruct children as [|c cs]; [apply elem_of_nil in Hin; done|].
  set (children := c :: cs) in *.
  change (TreeRenderer._compute_depth (TreeRenderer.Node kind label x y children))
    with (1 + foldr (fun child deepest =>
                       Nat.max (TreeRenderer._compute_depth child) deepest) 0 children)%nat.
  clearbody children. induction children as [|c' cs' IH].
  - apply elem_of_nil in Hin. done.
  - cbn [foldr]. apply elem_of_cons in Hin as [->|Hin]; [lia|].
    specialize (IH Hin). lia.
Qed.

(** X19 — [_assign_positions] puts every node on the line of its level,
    [-level * y_step] with the root on level 0, and every level of the tree is
    below [_compute_depth], from which [_draw_tree] takes the lower limit of
    the picture. *)
Theorem nodes_within_depth (root : @TreeRenderer.TreeNode F) (level : nat)
    (placed : TreeRenderer.TreeNode) :
  (level, placed)
    ∈ TreeRenderer.levels (TreeRenderer._assign_positions float_of_nat mean level_y root) 0 →
  TreeRenderer.y placed = level_y level
  ∧ (level < TreeRenderer._compute_depth root)%nat.
Proof.
  unfold TreeRenderer._assign_positions.
  enough (∀ tree depth next_x,
    (level, placed)
      ∈ TreeRenderer.levels
          (TreeRenderer.assign_x float_of_nat mean level_y tree depth next_x).2 depth →
    TreeRenderer.y placed = level_y level
    ∧ (depth ≤ level < depth + TreeRenderer._compute_depth tree)%nat) as Hall.
  { intros Hin. destruct (Hall root 0%nat 0%nat Hin) as [Hy Hd]. split; [exact Hy | lia]. }
  intros tree. induction tree as [kind label x y children IH] using TreeNode_induction.
  intros depth next_x. destruct children as [|child children].
  { cbn. intros Hin. apply elem_of_cons in Hin as [Hin|Hin];
      [|apply elem_of_nil in Hin; done].
    injection Hin as -> ->. cbn. split; [reflexivity | lia]. }
  set (cs := child :: children) in *.
  assert (TreeRenderer.assign_x float_of_nat mean level_y
            (TreeRenderer.Node kind label x y cs) depth next_x
          = (let '(next_x, x_positions, children) :=
               TreeRenderer.assign_children
                 (fun child next_x =>
                    TreeRenderer.assign_x float_of_nat mean level_y child (S depth) next_x)
                 cs next_x [] in
             ((next_x, [mean x_positions]),
              TreeRenderer.Node kind label (mean x_positions) (level_y depth) children)))
    as -> by reflexivity.
  pose proof (assign_children_members
                (fun child next_x =>
                   TreeRenderer.assign_x float_of_nat mean level_y child (S depth) next_x)
                cs next_x []) as Hmembers.
  destruct (TreeRenderer.assign_children _ cs next_x []) as [[next_x' xs] cs'].
  cbn [fst snd] in *. cbn [TreeRenderer.levels].
  intros Hin. apply elem_of_cons in Hin as [Hroot|Hin].
  - injection Hroot as -> ->. cbn. split; [reflexivity|].
    pose proof (compute_depth_children kind label x y cs child ltac:(left)). lia.
  - apply list_elem_of_In, in_flat_map in Hin as (child' & Hchild' & Hin).
    apply list_elem_of_In in Hchild', Hin.
    destruct (Hmembers child' Hchild') as (c & nx & Hc & ->).
    rewrite Forall_forall in IH.
    destruct (IH c Hc (S depth) nx Hin) as [Hy Hd]. split; [exact Hy|].
    pose proof (compute_depth_children kind label x y cs c Hc). lia.
Qed.

End TreeLayout.

(** * Further runs *)

Lemma process_node_raises_only_unknown_kind_witness :
  ∃ k, ValueError "Unknown kind blob" = ValueError ("Unknown kind " +:+ k).
Proof.
  apply (proj2 (@process_node_raises_only_unknown_kind Grid.exact Grid.colors
                  (Grid.leaf "blob" (Grid.tf 1 1 0 0 0) (0, 0, 0) None))).
  vm_compute. reflexivity.
Defined.

Lemma process_node_single_child_witness :
  Grid.evaluate (Grid.op_node "difference" [Grid.red_disk])
  = Grid.evaluate Grid.red_disk.
Proof.
  apply (@process_node_single_child Grid.exact Grid.colors "difference" Grid.red_disk).
  right. right. reflexivity.
Defined.

Lemma process_node_degenerate_operator_witness :
  Grid.evaluate (Grid.op_node "xor" [Grid.red_disk]) = Ret [].
Proof.
  apply (@process_node_degenerate_operator Grid.exact Grid.colors "xor" [Grid.red_disk]
           [ [(Grid.Poly true {[ (0, 0); (1, 0); (-1, 0); (0, 1); (0, -1) ]}, (255, 0, 0))] ]).
  - repeat constructor; vm_compute; reflexivity.
  - left. repeat split; discriminate.
Defined.

Lemma fix_geom_idempotent_witness :
  ∃ r, @fix_geom Grid.exact (Some (Grid.Poly false {[ (0, 0) ]})) = Ret r
       ∧ @fix_geom Grid.exact (Some r) = Ret r.
Proof.
  apply (@fix_geom_idempotent Grid.exact _ grid_exact).
Defined.

Lemma union_covers_what_children_cover_witness :
  ∃ pieces,
    Grid.evaluate (Grid.op_node "union" [Grid.red_disk; Grid.green_disk]) = Ret pieces
    ∧ ∀ p, @covered Grid.exact Grid.colors (grid_coverage _) pieces p
           ↔ ∃ part,
               part ∈ [ [(Grid.Poly true {[ (0, 0); (1, 0); (-1, 0); (0, 1); (0, -1) ]},
                          (255, 0, 0))];
                        [(Grid.Poly true {[ (1, 0); (2, 0); (0, 0); (1, 1); (1, -1) ]},
                          (0, 255, 0))] ]
               ∧ @covered Grid.exact Grid.colors (grid_coverage _) part p.
Proof.
  apply (@union_covers_what_children_cover Grid.exact Grid.colors _ grid_exact).
  - intros g p. simpl. unfold grid_covers. destruct (decide (p ∈ Grid.area g)); tauto.
  - repeat constructor; vm_compute; reflexivity.
Defined.

Lemma intersection_covers_common_points_witness :
  ∃ pieces,
    Grid.evaluate
      (Grid.op_node "intersection" [Grid.red_disk; Grid.degenerate; Grid.green_disk])
    = Ret pieces
    ∧ ∀ p, @covered Grid.exact Grid.colors (grid_coverage _) pieces p
           ↔ List.filter (@nonempty_result Grid.exact Grid.colors)
               [ [(Grid.Poly true {[ (0, 0); (1, 0); (-1, 0); (0, 1); (0, -1) ]},
                   (255, 0, 0))];
                 [];
                 [(Grid.Poly true {[ (1, 0); (2, 0); (0, 0); (1, 1); (1, -1) ]},
                   (0, 255, 0))] ] ≠ []
             ∧ ∀ part,
                 part ∈ List.filter (@nonempty_result Grid.exact Grid.colors)
                   [ [(Grid.Poly true {[ (0, 0); (1, 0); (-1, 0); (0, 1); (0, -1) ]},
                       (255, 0, 0))];
                     [];
                     [(Grid.Poly true {[ (1, 0); (2, 0); (0, 0); (1, 1); (1, -1) ]},
                       (0, 255, 0))] ] →
                 @covered Grid.exact Grid.colors (grid_coverage _) part p.
Proof.
  apply (@intersection_covers_common_points Grid.exact Grid.colors _ grid_exact).
  repeat constructor; vm_compute; reflexivity.
Defined.

Lemma difference_covers_first_minus_rest_witness :
  ∃ pieces,
    Grid.evaluate
      (Grid.op_node "difference" [Grid.degenerate; Grid.red_disk; Grid.green_disk])
    = Ret pieces
    ∧ ∀ p, @covered Grid.exact Grid.colors (grid_coverage _) pieces p
           ↔ match List.filter (@nonempty_result Grid.exact Grid.colors)
                 [ [];
                   [(Grid.Poly true {[ (0, 0); (1, 0); (-1, 0); (0, 1); (0, -1) ]},
                     (255, 0, 0))];
                   [(Grid.Poly true {[ (1, 0); (2, 0); (0, 0); (1, 1); (1, -1) ]},
                     (0, 255, 0))] ] with
             | [] => False
             | first :: rest =>
               @covered Grid.exact Grid.colors (grid_coverage _) first p
               ∧ ¬ ∃ part, part ∈ rest
                           ∧ @covered Grid.exact Grid.colors (grid_coverage _) part p
             end.
Proof.
  apply (@difference_covers_first_minus_rest Grid.exact Grid.colors _ grid_exact).
  repeat constructor; vm_compute; reflexivity.
Defined.

Lemma previews_rendered_in_any_order_witness :
  (Previews.render_all_previews_parallel Previews.toy_outcome [1; 0]%nat
     Previews.toy_adapter true).2
  = [Some [Byte.x0a]; Some []].
Proof.
  apply (previews_rendered_in_any_order Previews.toy_outcome [1; 0]%nat
           Previews.toy_adapter true).
  - simpl. apply perm_swap.
  - right. exists 1%nat. split; [simpl; lia | vm_compute; reflexivity].
Defined.

Lemma previews_cache_successful_renders_witness :
  Backend._image_cache
    (Previews.render_all_previews_parallel Previews.toy_outcome [1; 0]%nat
       Previews.toy_adapter true).1 !! (3, 0)
  = Some [Byte.x0a].
Proof.
  apply (proj1 (previews_cache_successful_renders Previews.toy_outcome [1; 0]%nat
                  Previews.toy_adapter
                  (perm_swap 0%nat 1%nat [])
                  (ex_intro _ 1%nat (conj (le_n 2) eq_refl)))
               (3, 0)).
Defined.

Lemma previews_second_call_is_cached_witness :
  Previews.render_all_previews_parallel Previews.toy_outcome []
    (Previews.render_all_previews_parallel (fun _ => Ret [Byte.x0a]) [1; 0]%nat
       Previews.toy_adapter true).1 true
  = Previews.render_all_previews_parallel (fun _ => Ret [Byte.x0a]) [1; 0]%nat
      Previews.toy_adapter true.
Proof.
  apply (previews_second_call_is_cached (fun _ => Ret [Byte.x0a]) Previews.toy_outcome
           [1; 0]%nat [] Previews.toy_adapter).
  - simpl. apply perm_swap.
  - intros idx _. exists [Byte.x0a]. reflexivity.
Defined.


(** A square scaled by zero is flattened: it stays a polygon that is not
    empty, but it is invalid and has no area, and it stays so when it is
    rotated and translated.  The last repair pass empties it; so does the
    repair pass after the scaling, in the procedure of the claim. *)
Example flattened_square_is_emptied :
  @transformed Grid.exact (Grid.Poly true {[ (0, 0) ]}) (Grid.tf 0 1 1 2 0)
  = Ret (Grid.Flat {[ (2, 0) ]})
  ∧ @gene_to_shapely Grid.exact Grid.colors
      (Grid.gene "square" (Grid.tf 0 1 1 2 0) (0, 0, 255) None)
    = Ret (Grid.Poly true ∅)
  ∧ @claim_to_region Grid.exact Grid.colors
      (Grid.gene "square" (Grid.tf 0 1 1 2 0) (0, 0, 255) None)
    = Ret (Grid.Poly true ∅).
Proof. repeat split; vm_compute; reflexivity. Qed.

Example disk_is_moved :
  @gene_to_shapely Grid.exact Grid.colors
    (Grid.gene "disk" (Grid.tf 1 1 1 2 0) (255, 0, 0) None)
  = Ret (Grid.Poly true {[ (2, 0); (2, 1); (2, -1); (1, 0); (3, 0) ]}).
Proof. vm_compute. reflexivity. Qed.

(** The label of the inspector can show an index that is not selected: the
    first card is clicked and inspected, the second is clicked while the
    backend fails to answer, the first is clicked again. *)
Example inspector_keeps_stale_index :
  EvolveScreen.selected_indices
    (foldl EvolveScreen.mousePressEvent
       (EvolveScreen.render_population_grid (fun _ => true) Previews.toy_outcome
          [1; 0]%nat 500 EvolveScreen.toy_screen)
       [(0, true); (1, false); (0, true)]%nat) = {[ 1 ]}
  ∧ EvolveScreen.current_selected_index
      (foldl EvolveScreen.mousePressEvent
         (EvolveScreen.render_population_grid (fun _ => true) Previews.toy_outcome
            [1; 0]%nat 500 EvolveScreen.toy_screen)
         [(0, true); (1, false); (0, true)]%nat) = Some 1
  ∧ EvolveScreen.lbl_inspector_index
      (foldl EvolveScreen.mousePressEvent
         (EvolveScreen.render_population_grid (fun _ => true) Previews.toy_outcome
            [1; 0]%nat 500 EvolveScreen.toy_screen)
         [(0, true); (1, false); (0, true)]%nat) = Some 0.
Proof. repeat split; vm_compute; reflexivity. Qed.

Lemma evolve_step_sends_the_selection_witness :
  EvolveScreen.generation
    (EvolveScreen.evolve_step Backend.toy_mutate (fun _ => true) Previews.toy_outcome
       [1; 0]%nat 500 (Ret ()) EvolveScreen.toy_screen).1
  = Backend.generation (EvolveScreen.backend
      (EvolveScreen.evolve_step Backend.toy_mutate (fun _ => true) Previews.toy_outcome
         [1; 0]%nat 500 (Ret ()) EvolveScreen.toy_screen).1).
Proof.
  apply (evolve_step_sends_the_selection Backend.toy_mutate (fun _ => true)
           Previews.toy_outcome [1; 0]%nat 500 (Ret ()) EvolveScreen.toy_screen).
  - intros i [= <-]. apply elem_of_singleton. reflexivity.
  - reflexivity.
Defined.

Lemma grid_refresh_renders_afresh_witness :
  EvolveScreen.cards
    (EvolveScreen.render_population_grid (fun _ => true) Previews.toy_outcome
       [1; 0]%nat 500 EvolveScreen.toy_screen)
  = [ (EvolveScreen.Build_IndividualWidget 0 (EvolveScreen.Loaded [Byte.x0a]) false,
       (0, 0));
      (EvolveScreen.Build_IndividualWidget 1 EvolveScreen.DarkRed false, (0, 1)) ].
Proof.
  apply (grid_refresh_renders_afresh (fun _ => true) Previews.toy_outcome [1; 0]%nat
           500 EvolveScreen.toy_screen).
  - discriminate.
  - simpl. apply perm_swap.
Defined.

Example grid_of_five :
  Drawing.render_population_grid Drawing.toy_sizes 24 [1; 2; 3; 4; 5]%nat 4 250 24
  = Ret Drawing.toy_grid
  ∧ Drawing.render_population_grid Drawing.toy_sizes 24 [] 4 250 24
    = Raise (ValueError "Population is empty; nothing to render.").
Proof. split; vm_compute; reflexivity. Qed.

Lemma population_grid_cells_fit_witness :
  [1; 2; 3; 4; 5]%nat ≠ []
  ∧ length (Drawing.pasted Drawing.toy_grid) = length [1; 2; 3; 4; 5]%nat
  ∧ 24 ≤ 24 ∧ 24 + 250 + 24 ≤ 1120 ∧ 24 ≤ 322 ∧ 322 + 250 + 24 + 24 ≤ 620.
Proof.
  apply (population_grid_cells_fit Drawing.toy_sizes 24 [1; 2; 3; 4; 5]%nat 4 250 24
           Drawing.toy_grid 250 250 4 (24, 322) (250, 250));
    [vm_compute; reflexivity | lia | lia | lia | lia | lia
    | vm_compute; reflexivity | reflexivity | reflexivity].
Defined.

Lemma population_grid_cells_apart_witness :
  846 + 250 + 24 ≤ 24 ∨ 24 + 250 + 24 ≤ 846
  ∨ 24 + 250 + 24 + 24 ≤ 322 ∨ 322 + 250 + 24 + 24 ≤ 24.
Proof.
  apply (population_grid_cells_apart Drawing.toy_sizes 24 [1; 2; 3; 4; 5]%nat 4 250 24
           Drawing.toy_grid 250 250 3 4 (846, 24) (250, 250) (24, 322) (250, 250));
    [vm_compute; reflexivity | lia | lia | lia | lia | lia
    | vm_compute; reflexivity | reflexivity | reflexivity | reflexivity | lia].
Defined.

Example path_of_a_square_with_a_hole :
  TreeRenderer._polygon_to_path (fun coord : Z * Z * Z => (coord.1.1, coord.1.2))
    {| TreeRenderer.is_empty := false;
       TreeRenderer.exterior :=
         [(0, 0, 7); (4, 0, 7); (4, 4, 7); (0, 4, 7); (0, 0, 7)];
       TreeRenderer.interiors :=
         [ [(1, 1, 7)]; [(1, 1, 7); (2, 1, 7); (1, 2, 7); (1, 1, 7)] ] |}
  = Some ([(0, 0); (4, 0); (4, 4); (0, 4); (0, 0); (1, 1); (2, 1); (1, 2); (1, 1)],
          [TreeRenderer.MOVETO; TreeRenderer.LINETO; TreeRenderer.LINETO;
           TreeRenderer.LINETO; TreeRenderer.CLOSEPOLY;
           TreeRenderer.MOVETO; TreeRenderer.LINETO; TreeRenderer.LINETO;
           TreeRenderer.CLOSEPOLY]).
Proof. vm_compute. reflexivity. Qed.

Example toy_tree_laid_out :
  TreeRenderer._assign_positions TreeRenderer.Count TreeRenderer.Mean TreeRenderer.Line
    TreeRenderer.toy_tree
  = TreeRenderer.Node "op" "union"
      (TreeRenderer.Mean
         [TreeRenderer.Count 0;
          TreeRenderer.Mean [TreeRenderer.Count 1; TreeRenderer.Count 2]])
      (TreeRenderer.Line 0)
      [ TreeRenderer.Node "primitive" "disk" (TreeRenderer.Count 0) (TreeRenderer.Line 1) [];
        TreeRenderer.Node "op" "difference"
          (TreeRenderer.Mean [TreeRenderer.Count 1; TreeRenderer.Count 2])
          (TreeRenderer.Line 1)
          [ TreeRenderer.Node "primitive" "square" (TreeRenderer.Count 1)
              (TreeRenderer.Line 2) [];
            TreeRenderer.Node "primitive" "polygon(4)" (TreeRenderer.Count 2)
              (TreeRenderer.Line 2) [] ] ].
Proof. vm_compute. reflexivity. Qed.

Lemma nodes_within_depth_witness :
  TreeRenderer.y
    (TreeRenderer.Node "primitive" "square" (TreeRenderer.Count 1) (TreeRenderer.Line 2) [])
  = TreeRenderer.Line 2
  ∧ (2 < TreeRenderer._compute_depth TreeRenderer.toy_tree)%nat.
Proof.
  apply (nodes_within_depth TreeRenderer.Count TreeRenderer.Mean TreeRenderer.Line
           TreeRenderer.toy_tree 2
           (TreeRenderer.Node "primitive" "square" (TreeRenderer.Count 1)
              (TreeRenderer.Line 2) [])).
  apply list_elem_of_In. vm_compute. auto 10.
Defined.

Lemma polygon_path_closed_subpaths_witness :
  length [(0, 0); (4, 0); (4, 4); (0, 4); (0, 0)]
  = length [TreeRenderer.MOVETO; TreeRenderer.LINETO; TreeRenderer.LINETO;
            TreeRenderer.LINETO; TreeRenderer.CLOSEPOLY].
Proof.
  apply (proj2 (polygon_path_closed_subpaths
                  (fun coord : Z * Z * Z => (coord.1.1, coord.1.2))
                  {| TreeRenderer.is_empty := false;
                     TreeRenderer.exterior :=
                       [(0, 0, 7); (4, 0, 7); (4, 4, 7); (0, 4, 7); (0, 0, 7)];
                     TreeRenderer.interiors := [ [(1, 1, 7)] ] |})).
  vm_compute. reflexivity.
Defined.
